(** * Drain: an online log template miner

    A shallow embedding of [drain.go] (package [drain], a Go port of
    Drain3) and the properties of its learner: the parameter classifier,
    the similarity measure, the fixed-depth prefix tree and its growth
    policy, the LRU cluster cache, and [Train] / [Match].

    Modelling decisions, all of them visible in the definitions below:

    - A Go [string] is a Rocq [string] (a sequence of bytes); a
      [[]string] is a [list string].
    - A Go [int] is a [Z].  The two counters that grow without a bound
      given by the size of some slice ([clustersCounter] and a cluster's
      [size]) wrap around at 64 bits ([incr]); lengths, depths and the
      position counters of the similarity loop are bounded by the length
      of a slice and are left in [Z].
    - A [float64] similarity is the exact rational it rounds, or [NaN]
      (the quotient 0/0 of two empty sequences).  Similarities are
      quotients [k / n] with [0 <= k <= n]; rounding does not change the
      outcome of any comparison the program makes on them while [n] stays
      below 2^51.
    - A panic (explicit [panic], nil dereference, index out of range) is
      the [Panic] result; the state it leaves behind is not observed.
    - A [map[string]*Node] is a [gmap string Node]; the tree is a tree
      (no node is shared), so in-place mutation along the descent path is
      the functional update of that path.
    - [Config.ParamPatterns] is a Go map that the classifier ranges over.
      Go does not fix the order in which [range] visits a map.  The model
      keeps the entries as an association list in the order the visit
      takes, one order for all the visits of a learner; two lists that
      are permutations of each other stand for the same Go map visited
      in two orders.
    - A [*Cluster] is the record the cache holds under the cluster's id:
      every record enters the cache under its own id, so mutating the
      record through the pointer is writing it back under that id.
    - What the program imports from Go's libraries ([regexp],
      [unicode], [strings], [strconv], [simplelru]) is either a
      parameter ([Matcher], [Unicode]) or a model written from its
      documented contract. *)

From Stdlib Require Import ZArith QArith Ascii String List Lia Permutation.
From stdpp Require Import gmap strings list fin_maps pretty.

Set Warnings "-register-all".
Local Open Scope Z_scope.

(** ** Results and panics *)

Inductive result (A : Type) : Type :=
| Ok (a : A)
| Panic (msg : string).
Arguments Ok {A} a.
Arguments Panic {A} msg.

#[global] Instance result_ret : MRet result := λ A a, Ok a.
#[global] Instance result_bind : MBind result := λ A B f m,
  match m with
  | Ok a => f a
  | Panic e => Panic e
  end.

Definition nil_dereference {A : Type} : result A :=
  Panic "invalid memory address or nil pointer dereference".

Definition index_out_of_range {A : Type} : result A :=
  Panic "index out of range".

(** ** Integers and floats *)

Definition MaxInt : Z := 2 ^ 63 - 1.

(** Two's complement wrap-around of a 64-bit [int]. *)
Definition wrap64 (z : Z) : Z := (z + 2 ^ 63) mod 2 ^ 64 - 2 ^ 63.

(** [x++] on an [int]. *)
Definition incr (x : Z) : Z := wrap64 (x + 1).

(** [len(s)] as an [int]. *)
Definition len {A : Type} (l : list A) : Z := Z.of_nat (length l).

Inductive float64 : Type :=
| NaN
| Fin (q : Q).

Definition f_gt (a b : float64) : bool :=
  match a, b with
  | Fin x, Fin y => negb (Qle_bool x y)
  | _, _ => false
  end.

Definition f_eq (a b : float64) : bool :=
  match a, b with
  | Fin x, Fin y => Qeq_bool x y
  | _, _ => false
  end.

Definition f_ge (a b : float64) : bool :=
  match a, b with
  | Fin x, Fin y => Qle_bool y x
  | _, _ => false
  end.

(** [float64(a) / float64(n)] for [0 <= a <= n]: with [n = 0] both are 0
    and the quotient is NaN. *)
Definition f_div (a n : Z) : float64 :=
  if n =? 0 then NaN else Fin (inject_Z a / inject_Z n).

(** ** Go's [strings] and [strconv] *)

(** [strconv.Itoa]: the decimal representation. *)
Definition Itoa (n : Z) : string := pretty n.

Definition rune : Type := Z.

(** The code points with Unicode's White_Space property, the table behind
    [unicode.IsSpace]. *)
Definition IsSpace (r : rune) : bool :=
  ((9 <=? r) && (r <=? 13)) || (r =? 32) || (r =? 133) || (r =? 160)
  || (r =? 5760) || ((8192 <=? r) && (r <=? 8202))
  || (r =? 8232) || (r =? 8233) || (r =? 8239) || (r =? 8287)
  || (r =? 12288).

Definition byte_of (n : Z) : ascii := ascii_of_N (Z.to_N n).

(** UTF-8 encoding of one code point (up to U+FFFF, which covers the
    table above), and of a sequence of code points. *)
Definition utf8_rune (r : rune) : string :=
  if r <? 128 then String (byte_of r) ""
  else if r <? 2048 then
    String (byte_of (192 + r / 64)) (String (byte_of (128 + r mod 64)) "")
  else
    String (byte_of (224 + r / 4096))
      (String (byte_of (128 + (r / 64) mod 64))
         (String (byte_of (128 + r mod 64)) "")).

Fixpoint utf8 (rs : list rune) : string :=
  match rs with
  | [] => ""
  | r :: rs' => utf8_rune r +:+ utf8 rs'
  end.

Definition white_space : list rune :=
  [9; 10; 11; 12; 13; 32; 133; 160; 5760;
   8192; 8193; 8194; 8195; 8196; 8197; 8198; 8199; 8200; 8201; 8202;
   8232; 8233; 8239; 8287; 12288].

Fixpoint is_prefix (p s : string) : bool :=
  match p, s with
  | EmptyString, _ => true
  | String a p', String b s' => if Ascii.eqb a b then is_prefix p' s' else false
  | String _ _, EmptyString => false
  end.

(** The number of bytes of the white-space character [s] starts with, if
    it starts with one. [encs] are the encodings to look for. *)
Fixpoint space_width (encs : list string) (s : string) : option nat :=
  match encs with
  | [] => None
  | e :: encs' =>
      if is_prefix e s then Some (String.length e) else space_width encs' s
  end.

(** Drop leading white-space characters; [skip] counts the bytes still
    to drop of the character being dropped. *)
Fixpoint trim_go (encs : list string) (skip : nat) (s : string) : string :=
  match s with
  | EmptyString => EmptyString
  | String _ s' =>
      match skip with
      | S k => trim_go encs k s'
      | O =>
          match space_width encs s with
          | Some (S k) => trim_go encs k s'
          | _ => s
          end
      end
  end.

Definition TrimLeftSpace (s : string) : string :=
  trim_go (map utf8_rune white_space) 0 s.

Definition TrimRightSpace (s : string) : string :=
  String.rev (trim_go (map (λ r, String.rev (utf8_rune r)) white_space) 0
                (String.rev s)).

(** [strings.TrimSpace]: all leading and trailing white space removed, as
    defined by Unicode. *)
Definition TrimSpace (s : string) : string :=
  TrimRightSpace (TrimLeftSpace s).

(** [strings.Split(s, sep)] for a separator of one byte, the only use
    the program makes of it: the substrings between the separators, one
    more than there are separators. *)
Fixpoint Split (s : string) (sep : ascii) : list string :=
  match s with
  | EmptyString => [EmptyString]
  | String c s' =>
      if Ascii.eqb c sep then EmptyString :: Split s' sep
      else
        match Split s' sep with
        | h :: t => String c h :: t
        | [] => [String c EmptyString]
        end
  end.

Definition SpaceTokenizer (content : string) : list string :=
  let content := TrimSpace content in
  Split content " "%char.

(** ** What the program takes from [regexp] and [unicode] *)

(** [MatchString] of a compiled [regexp.Regexp]: whether the string
    contains any match of the regular expression. *)
Class Matcher (Regexp : Type) : Type :=
  MatchString : Regexp → string → bool.

(** [for _, c := range s] decodes [s] into its code points;
    [unicode.IsNumber] is the table of Unicode's category N. *)
Class Unicode : Type := {
  range_string : string → list rune;
  IsNumber : rune → bool
}.

(** A fragment of the syntax of Go's regular expressions, matched on
    bytes, for the configurations of the documentation and of the
    examples.  [^] and [$] may stand at the two ends of a pattern. *)
Module regexp.

Inductive re : Type :=
| Void
| Eps
| Byte (c : ascii)
| Range (lo hi : ascii)
| Dot
| Cat (r1 r2 : re)
| Alt (r1 r2 : re)
| Star (r : re).

Definition Plus (r : re) : re := Cat r (Star r).
Definition Opt (r : re) : re := Alt Eps r.

(** [r{1,n+1}] *)
Fixpoint UpTo (n : nat) (r : re) : re :=
  match n with
  | O => r
  | S n' => Cat r (Opt (UpTo n' r))
  end.

Fixpoint Lit (s : string) : re :=
  match s with
  | EmptyString => Eps
  | String c s' => Cat (Byte c) (Lit s')
  end.

Fixpoint nullable (r : re) : bool :=
  match r with
  | Void | Byte _ | Range _ _ | Dot => false
  | Eps | Star _ => true
  | Cat r1 r2 => nullable r1 && nullable r2
  | Alt r1 r2 => nullable r1 || nullable r2
  end.

Definition in_range (lo hi c : ascii) : bool :=
  ((N_of_ascii lo <=? N_of_ascii c) && (N_of_ascii c <=? N_of_ascii hi))%N.

Fixpoint deriv (c : ascii) (r : re) : re :=
  match r with
  | Void | Eps => Void
  | Byte a => if Ascii.eqb a c then Eps else Void
  | Range lo hi => if in_range lo hi c then Eps else Void
  | Dot => if Ascii.eqb c "010" then Void else Eps
  | Cat r1 r2 =>
      if nullable r1 then Alt (Cat (deriv c r1) r2) (deriv c r2)
      else Cat (deriv c r1) r2
  | Alt r1 r2 => Alt (deriv c r1) (deriv c r2)
  | Star r1 => Cat (deriv c r1) (Star r1)
  end.

(** The whole of [s] is in the language of [r]. *)
Fixpoint full_match (r : re) (s : string) : bool :=
  match s with
  | EmptyString => nullable r
  | String c s' => full_match (deriv c r) s'
  end.

Record Regexp : Type := {
  at_begin : bool;
  body : re;
  at_end : bool
}.

(** Some substring of [s] is in the language of the pattern: one that
    starts at 0 below [^], one that ends at the end above [$]. *)
Definition MatchString (p : Regexp) (s : string) : bool :=
  let n := String.length s in
  existsb (λ i : nat,
    existsb (λ k : nat, full_match (body p) (substring i k s))
      (if at_end p then [(n - i)%nat] else seq 0 (S (n - i))))
    (if at_begin p then [0%nat] else seq 0 (S n)).

(** The pattern of [DefaultConfig]: a dot followed by a star. *)
Definition any : Regexp :=
  {| at_begin := false; body := Star Dot; at_end := false |}.

(** The pattern [^r$]. *)
Definition whole (r : re) : Regexp :=
  {| at_begin := true; body := r; at_end := true |}.

(** The pattern [r], with no anchor. *)
Definition within (r : re) : Regexp :=
  {| at_begin := false; body := r; at_end := false |}.

Definition digit : re := Range "0" "9".
Definition hexdigit : re := Alt digit (Alt (Range "a" "f") (Range "A" "F")).
Definition letter : re := Alt (Range "a" "z") (Range "A" "Z").
(** [\w] *)
Definition word : re := Alt digit (Alt letter (Byte "_")).

End regexp.

#[global] Instance regexp_matcher : Matcher regexp.Regexp := regexp.MatchString.

(** Decoding and the number table on ASCII text: every byte below 128 is
    its own code point, and the numbers among them are the ten digits.
    The examples below ask [hasNumbers] about ASCII tokens only. *)
Definition ascii_runes (s : string) : list rune :=
  map (λ c, Z.of_N (N_of_ascii c)) (list_ascii_of_string s).

Definition ascii_unicode : Unicode := {|
  range_string := ascii_runes;
  IsNumber := λ r, (48 <=? r) && (r <=? 57)
|}.

(** ** Clusters and the cluster cache *)

Module Cluster.
Record t : Type := mk {
  tokens : list string;
  id : Z;
  size : Z
}.
End Cluster.

Definition Tokens (c : Cluster.t) : list string := Cluster.tokens c.

(** The LRU cache of github.com/hashicorp/golang-lru/simplelru, which
    [drain.go] imports and which is not part of the sources. *)
Module simplelru.

(** Modelled from the spec: the type [simplelru.LRU], a bounded LRU
    mapping from cluster id to cluster record (sections 3 and 4.2).
    [evictList] runs from the most recently used entry to the least
    recently used one. *)
Record LRU : Type := mk {
  size : Z;
  evictList : list (Z * Cluster.t)
}.

(** Modelled from the spec: [simplelru.NewLRU]; capacity is fixed at
    construction.  A size that is not positive is refused: the
    constructor returns an error and no cache. *)
Definition NewLRU (size : Z) : option LRU :=
  if size <=? 0 then None else Some (mk size []).

Definition has (key : Z) (l : list (Z * Cluster.t)) : bool :=
  existsb (λ e, fst e =? key) l.

Definition without (key : Z) (l : list (Z * Cluster.t)) : list (Z * Cluster.t) :=
  List.filter (λ e, negb (fst e =? key)) l.

(** Modelled from the spec: [Peek] reads without touching recency;
    lookups on missing ids return absent. *)
Definition Peek (key : Z) (c : LRU) : option Cluster.t :=
  snd <$> List.find (λ e, fst e =? key) (evictList c).

(** Modelled from the spec: [Get] returns the cluster and marks it most
    recently used; lookups on missing ids return absent. *)
Definition Get (key : Z) (c : LRU) : option Cluster.t * LRU :=
  match Peek key c with
  | Some v => (Some v, mk (size c) ((key, v) :: without key (evictList c)))
  | None => (None, c)
  end.

(** Modelled from the spec: [Add] inserts or refreshes; on overflow the
    least recently used entry is evicted silently. *)
Definition Add (key : Z) (value : Cluster.t) (c : LRU) : LRU :=
  if has key (evictList c) then
    mk (size c) ((key, value) :: without key (evictList c))
  else
    let l := (key, value) :: evictList c in
    if size c <? len l then mk (size c) (removelast l) else mk (size c) l.

(** Modelled from the spec: [Keys] enumerates the current contents in
    LRU order, from the oldest key to the newest, without touching
    recency. *)
Definition Keys (c : LRU) : list Z := rev (map fst (evictList c)).

End simplelru.

Record ClusterCache : Type := mkClusterCache {
  cache : option simplelru.LRU
}.

Definition createClusterCache (maxSize : Z) : ClusterCache :=
  let maxSize := if maxSize =? 0 then MaxInt else maxSize in
  mkClusterCache (simplelru.NewLRU maxSize).

(** Operations on the cache read and write it and may panic: a state and
    error monad over [ClusterCache]. *)
Definition M (A : Type) : Type := ClusterCache → result (A * ClusterCache).

#[global] Instance M_ret : MRet M := λ A a s, Ok (a, s).
#[global] Instance M_bind : MBind M := λ A B f m s,
  match m s with
  | Ok (a, s') => f a s'
  | Panic e => Panic e
  end.

Definition lift {A : Type} (r : result A) : M A := λ s,
  match r with
  | Ok a => Ok (a, s)
  | Panic e => Panic e
  end.

Definition ClusterCache_Values (c : ClusterCache) : result (list Cluster.t) :=
  match cache c with
  | None => nil_dereference
  | Some l => Ok (omap (λ key, simplelru.Peek key l) (simplelru.Keys l))
  end.

Definition ClusterCache_Set (key : Z) (cluster : Cluster.t) : M () := λ c,
  match cache c with
  | None => nil_dereference
  | Some l => Ok ((), mkClusterCache (Some (simplelru.Add key cluster l)))
  end.

Definition ClusterCache_Get (key : Z) : M (option Cluster.t) := λ c,
  match cache c with
  | None => nil_dereference
  | Some l =>
      let '(v, l') := simplelru.Get key l in
      Ok (v, mkClusterCache (Some l'))
  end.

(** Writing through a [*Cluster]: the record cached under the cluster's
    id is replaced where it stands; recency does not change. *)
Definition ClusterCache_store (cluster : Cluster.t) (c : ClusterCache) : ClusterCache :=
  mkClusterCache
    ((λ l, simplelru.mk (simplelru.size l)
             (map (λ e, if fst e =? Cluster.id cluster then (fst e, cluster) else e)
                (simplelru.evictList l))) <$> cache c).

(** What the cache holds under a key, read without touching recency. *)
Definition cached (key : Z) (s : ClusterCache) : option Cluster.t :=
  cache s ≫= simplelru.Peek key.

(** ** The prefix tree *)

Inductive Node : Type := mkNode {
  keyToChildNode : gmap string Node;
  clusterIDs : list Z
}.

Definition createNode : Node := mkNode ∅ [].

(** ** Configuration *)

Record Config (Regexp : Type) : Type := mkConfig {
  maxNodeDepth : Z;
  ClusterDepth : Z;
  SimTh : Q;
  MaxChildren : Z;
  ExtraDelimiters : list string;
  MaxClusters : Z;
  ParamPatterns : list (string * Regexp);
  Tokenizer : string → list string
}.
Arguments mkConfig {Regexp}.
Arguments maxNodeDepth {Regexp}.
Arguments ClusterDepth {Regexp}.
Arguments SimTh {Regexp}.
Arguments MaxChildren {Regexp}.
Arguments ExtraDelimiters {Regexp}.
Arguments MaxClusters {Regexp}.
Arguments ParamPatterns {Regexp}.
Arguments Tokenizer {Regexp}.

Definition DefaultConfig : Config regexp.Regexp := {|
  maxNodeDepth := 0;
  ClusterDepth := 4;
  SimTh := 4 # 10;
  MaxChildren := 100;
  ExtraDelimiters := [];
  MaxClusters := 0;
  ParamPatterns := [("*"%string, regexp.any)];
  Tokenizer := SpaceTokenizer
|}.

(** [NewConfig], given the patterns as [regexp.MustCompile] returns
    them. *)
Definition NewConfig {Regexp : Type} (tokenizer : string → list string)
    (paramPatterns : list (string * Regexp)) : Config Regexp := {|
  maxNodeDepth := maxNodeDepth DefaultConfig;
  ClusterDepth := ClusterDepth DefaultConfig;
  SimTh := SimTh DefaultConfig;
  MaxChildren := MaxChildren DefaultConfig;
  ExtraDelimiters := ExtraDelimiters DefaultConfig;
  MaxClusters := MaxClusters DefaultConfig;
  ParamPatterns := paramPatterns;
  Tokenizer := tokenizer
|}.

(** ** The learner *)

Record Drain (Regexp : Type) : Type := mkDrain {
  config : Config Regexp;
  rootNode : Node;
  idToCluster : ClusterCache;
  clustersCounter : Z
}.
Arguments mkDrain {Regexp}.
Arguments config {Regexp}.
Arguments rootNode {Regexp}.
Arguments idToCluster {Regexp}.
Arguments clustersCounter {Regexp}.

(** How the descent of an insertion continues below the current node. *)
Inductive branch : Type :=
| CreateChild (key : string)
| IntoChild (key : string).

Section Drain.

Context {Regexp : Type} `{!Matcher Regexp} `{!Unicode}.

Definition New (config : Config Regexp) : result (Drain Regexp) :=
  if ClusterDepth config <? 3 then Panic "depth argument must be at least 3"
  else
    let config :=
      mkConfig (ClusterDepth config - 2) (ClusterDepth config) (SimTh config)
        (MaxChildren config) (ExtraDelimiters config) (MaxClusters config)
        (ParamPatterns config) (Tokenizer config) in
    Ok {| config := config;
          rootNode := createNode;
          idToCluster := createClusterCache (MaxClusters config);
          clustersCounter := 0 |}.

Definition Clusters (d : Drain Regexp) : result (list Cluster.t) :=
  ClusterCache_Values (idToCluster d).

(** The [range] loop of [getParamString], over the entries in the
    order the loop visits them. *)
Fixpoint getParamString_range (patterns : list (string * Regexp))
    (token : string) : string :=
  match patterns with
  | [] => ""
  | (paramPattern, paramPatternRegexp) :: patterns' =>
      if MatchString paramPatternRegexp token then paramPattern
      else getParamString_range patterns' token
  end.

Definition getParamString (cfg : Config Regexp) (token : string) : string :=
  getParamString_range (ParamPatterns cfg) token.

(** [_, ok := d.config.ParamPatterns[token]] *)
Definition isParamString (cfg : Config Regexp) (token : string) : bool :=
  existsb (λ p, String.eqb (fst p) token) (ParamPatterns cfg).

Fixpoint hasNumbers_range (cs : list rune) : bool :=
  match cs with
  | [] => false
  | c :: cs' => if IsNumber c then true else hasNumbers_range cs'
  end.

Definition hasNumbers (s : string) : bool :=
  hasNumbers_range (range_string s).

Fixpoint getSeqDistance_loop (cfg : Config Regexp) (seq1 seq2 : list string)
    (simTokens paramCount : Z) : Z * Z :=
  match seq1, seq2 with
  | token1 :: seq1', token2 :: seq2' =>
      if isParamString cfg token1 then
        getSeqDistance_loop cfg seq1' seq2' simTokens (paramCount + 1)
      else if String.eqb token1 token2 then
        getSeqDistance_loop cfg seq1' seq2' (simTokens + 1) paramCount
      else
        getSeqDistance_loop cfg seq1' seq2' simTokens paramCount
  | _, _ => (simTokens, paramCount)
  end.

Definition getSeqDistance (cfg : Config Regexp) (seq1 seq2 : list string)
    (includeParams : bool) : result (float64 * Z) :=
  if negb (len seq1 =? len seq2) then Panic "seq1 seq2 be of same length"
  else
    let '(simTokens, paramCount) := getSeqDistance_loop cfg seq1 seq2 0 0 in
    let simTokens := if includeParams then simTokens + paramCount else simTokens in
    let retVal := f_div simTokens (len seq1) in
    Ok (retVal, paramCount).

(** [retVal] starts as a copy of [target]; the loop rewrites the
    positions where [source] differs. *)
Fixpoint createTemplate_loop (cfg : Config Regexp) (source target : list string)
    : list string :=
  match source, target with
  | s :: source', t :: target' =>
      (if negb (String.eqb s t) then getParamString cfg s else t)
        :: createTemplate_loop cfg source' target'
  | _, _ => target
  end.

Definition createTemplate (cfg : Config Regexp) (source target : list string)
    : result (list string) :=
  if negb (len source =? len target) then Panic "source, target be of same length"
  else Ok (createTemplate_loop cfg source target).

Fixpoint fastMatch_loop (cfg : Config Regexp) (clusterIDs : list Z)
    (tokens : list string) (includeParams : bool)
    (maxSim : float64) (maxParamCount : Z) (maxCluster : option Cluster.t)
    : M (float64 * option Cluster.t) :=
  match clusterIDs with
  | [] => mret (maxSim, maxCluster)
  | clusterID :: clusterIDs' =>
      cluster ← ClusterCache_Get clusterID;
      match cluster with
      | None =>
          fastMatch_loop cfg clusterIDs' tokens includeParams
            maxSim maxParamCount maxCluster
      | Some cluster =>
          '(curSim, paramCount) ←
            lift (getSeqDistance cfg (Cluster.tokens cluster) tokens includeParams);
          if f_gt curSim maxSim || (f_eq curSim maxSim && (maxParamCount <? paramCount))
          then
            fastMatch_loop cfg clusterIDs' tokens includeParams
              curSim paramCount (Some cluster)
          else
            fastMatch_loop cfg clusterIDs' tokens includeParams
              maxSim maxParamCount maxCluster
      end
  end.

Definition fastMatch (cfg : Config Regexp) (clusterIDs : list Z)
    (tokens : list string) (simTh : Q) (includeParams : bool)
    : M (option Cluster.t) :=
  '(maxSim, maxCluster) ←
    fastMatch_loop cfg clusterIDs tokens includeParams (Fin (-1)) (-1) None;
  mret (if f_ge maxSim (Fin simTh) then maxCluster else None).

(** The descent of [treeSearch]: the node where it stops, or none when
    neither the token nor its label has a child. *)
Fixpoint treeSearch_loop (cfg : Config Regexp) (curNode : Node)
    (tokens : list string) (curNodeDepth tokenCount : Z) : option Node :=
  match tokens with
  | [] => Some curNode
  | token :: tokens' =>
      if maxNodeDepth cfg <=? curNodeDepth then Some curNode
      else if curNodeDepth =? tokenCount then Some curNode
      else
        match keyToChildNode curNode !! token with
        | Some child => treeSearch_loop cfg child tokens' (curNodeDepth + 1) tokenCount
        | None =>
            match keyToChildNode curNode !! getParamString cfg token with
            | Some child =>
                treeSearch_loop cfg child tokens' (curNodeDepth + 1) tokenCount
            | None => None
            end
        end
  end.

Definition treeSearch (cfg : Config Regexp) (rootNode : Node)
    (tokens : list string) (simTh : Q) (includeParams : bool)
    : M (option Cluster.t) :=
  let tokenCount := len tokens in
  match keyToChildNode rootNode !! Itoa tokenCount with
  | None => mret None
  | Some curNode =>
      if tokenCount =? 0 then
        match clusterIDs curNode with
        | [] => lift index_out_of_range
        | clusterID :: _ => ClusterCache_Get clusterID
        end
      else
        match treeSearch_loop cfg curNode tokens 1 tokenCount with
        | None => mret None
        | Some curNode =>
            fastMatch cfg (clusterIDs curNode) tokens simTh includeParams
        end
  end.

(** The ids of a bucket that the cache still resolves, each looked up
    with [Get]. *)
Fixpoint liveClusterIDs (clusterIDs : list Z) : M (list Z) :=
  match clusterIDs with
  | [] => mret []
  | clusterID :: clusterIDs' =>
      cluster ← ClusterCache_Get clusterID;
      newClusterIDs ← liveClusterIDs clusterIDs';
      mret (if cluster is Some _ then clusterID :: newClusterIDs else newClusterIDs)
  end.

(** Lines 328 to 365: which child the insertion of [token] goes to
    below [curNode], and whether it is created for it. *)
Definition chooseChild (cfg : Config Regexp) (curNode : Node) (token : string)
    : branch :=
  let children := keyToChildNode curNode in
  match children !! token with
  | None =>
      let paramString := getParamString cfg token in
      if negb (hasNumbers token) then
        match children !! paramString with
        | Some _ =>
            if Z.of_nat (size children) <? MaxChildren cfg then CreateChild token
            else IntoChild paramString
        | None =>
            if Z.of_nat (size children) + 1 <? MaxChildren cfg then
              CreateChild token
            else if Z.of_nat (size children) + 1 =? MaxChildren cfg then
              CreateChild paramString
            else IntoChild paramString
        end
      else
        match children !! paramString with
        | None => CreateChild paramString
        | Some _ => IntoChild paramString
        end
  | Some _ => IntoChild token
  end.

(** The loop of [addSeqToPrefixTree] below [curNode]; the result is
    [curNode] after the insertion.  [IntoChild] of a key with no child
    leaves the loop with a nil [curNode], which the next iteration
    dereferences. *)
Fixpoint addSeqToPrefixTree_loop (cfg : Config Regexp) (cluster : Cluster.t)
    (curNode : Node) (tokens : list string) (currentDepth tokenCount : Z)
    : M Node :=
  match tokens with
  | [] => mret curNode
  | token :: tokens' =>
      if (maxNodeDepth cfg <=? currentDepth) || (tokenCount <=? currentDepth) then
        newClusterIDs ← liveClusterIDs (clusterIDs curNode);
        mret (mkNode (keyToChildNode curNode)
                (newClusterIDs ++ [Cluster.id cluster]))
      else
        match chooseChild cfg curNode token with
        | CreateChild key =>
            newNode ← addSeqToPrefixTree_loop cfg cluster createNode tokens'
                        (currentDepth + 1) tokenCount;
            mret (mkNode (<[key := newNode]> (keyToChildNode curNode))
                    (clusterIDs curNode))
        | IntoChild key =>
            match keyToChildNode curNode !! key with
            | Some child =>
                child' ← addSeqToPrefixTree_loop cfg cluster child tokens'
                           (currentDepth + 1) tokenCount;
                mret (mkNode (<[key := child']> (keyToChildNode curNode))
                        (clusterIDs curNode))
            | None =>
                match tokens' with
                | [] => mret curNode
                | _ :: _ => lift nil_dereference
                end
            end
        end
  end.

Definition addSeqToPrefixTree (cfg : Config Regexp) (rootNode : Node)
    (cluster : Cluster.t) : M Node :=
  let tokenCount := len (Cluster.tokens cluster) in
  let tokenCountStr := Itoa tokenCount in
  let firstLayerNode :=
    match keyToChildNode rootNode !! tokenCountStr with
    | Some n => n
    | None => createNode
    end in
  if tokenCount =? 0 then
    mret (mkNode
            (<[tokenCountStr :=
                 mkNode (keyToChildNode firstLayerNode)
                   (clusterIDs firstLayerNode ++ [Cluster.id cluster])]>
               (keyToChildNode rootNode))
            (clusterIDs rootNode))
  else
    firstLayerNode' ← addSeqToPrefixTree_loop cfg cluster firstLayerNode
                        (Cluster.tokens cluster) 1 tokenCount;
    mret (mkNode (<[tokenCountStr := firstLayerNode']> (keyToChildNode rootNode))
            (clusterIDs rootNode)).

Definition Train (d : Drain Regexp) (content : string)
    : result (Cluster.t * Drain Regexp) :=
  let contentTokens := Tokenizer (config d) content in
  '(matchCluster, cache1) ←
    treeSearch (config d) (rootNode d) contentTokens (SimTh (config d)) false
      (idToCluster d);
  match matchCluster with
  | None =>
      let clusterID := incr (clustersCounter d) in
      let matchCluster := Cluster.mk contentTokens clusterID 1 in
      '(_, cache2) ← ClusterCache_Set clusterID matchCluster cache1;
      '(rootNode', cache3) ←
        addSeqToPrefixTree (config d) (rootNode d) matchCluster cache2;
      Ok (matchCluster, mkDrain (config d) rootNode' cache3 clusterID)
  | Some matchCluster =>
      newTemplateTokens ←
        createTemplate (config d) contentTokens (Cluster.tokens matchCluster);
      let matchCluster :=
        Cluster.mk newTemplateTokens (Cluster.id matchCluster)
          (incr (Cluster.size matchCluster)) in
      let cache2 := ClusterCache_store matchCluster cache1 in
      '(_, cache3) ← ClusterCache_Get (Cluster.id matchCluster) cache2;
      Ok (matchCluster, mkDrain (config d) (rootNode d) cache3 (clustersCounter d))
  end.

Definition Match (d : Drain Regexp) (content : string)
    : result (option Cluster.t * Drain Regexp) :=
  let contentTokens := Tokenizer (config d) content in
  '(matchCluster, cache1) ←
    treeSearch (config d) (rootNode d) contentTokens 1 true (idToCluster d);
  Ok (matchCluster, mkDrain (config d) (rootNode d) cache1 (clustersCounter d)).

End Drain.

(** ** Runs of the learner *)

Section Runs.

Context {Regexp : Type} `{!Matcher Regexp} `{!Unicode}.

(** [for _, line := range lines { logger.Train(line) }] *)
Fixpoint train_lines (d : Drain Regexp) (lines : list string)
    : result (Drain Regexp) :=
  match lines with
  | [] => Ok d
  | line :: lines' =>
      '(_, d') ← Train d line;
      train_lines d' lines'
  end.

(** A learner made by [New] and trained on [lines]. *)
Definition learner (cfg : Config Regexp) (lines : list string)
    : result (Drain Regexp) :=
  d ← New cfg;
  train_lines d lines.

(** The states of a learner of configuration [cfg], after any sequence
    of calls to [Train] and [Match] that return. *)
Inductive reachable (cfg : Config Regexp) : Drain Regexp → Prop :=
| reachable_New d :
    New cfg = Ok d → reachable cfg d
| reachable_Train d content c d' :
    reachable cfg d → Train d content = Ok (c, d') → reachable cfg d'
| reachable_Match d content c d' :
    reachable cfg d → Match d content = Ok (c, d') → reachable cfg d'.

End Runs.

(** [P] holds of the value of a computation that did not panic. *)
Definition returns {A : Type} (r : result A) (P : A → Prop) : Prop :=
  match r with
  | Ok a => P a
  | Panic _ => False
  end.

(** ** Shape of the tree *)





(** ** Invariants of the loops *)

Section Invariants.

Context {Regexp : Type} `{!Matcher Regexp}.

(** The best candidate so far is a cached record, and [maxSim] is its
    similarity. *)
Definition candidate (cfg : Config Regexp) (tokens : list string)
    (includeParams : bool) (s0 : ClusterCache) (maxSim : float64)
    (maxCluster : option Cluster.t) : Prop :=
  ∀ c, maxCluster = Some c →
    ∃ paramCount key,
      getSeqDistance cfg (Cluster.tokens c) tokens includeParams = Ok (maxSim, paramCount)
      ∧ cached key s0 = Some c.

End Invariants.

(** ** The specification's words, for comparison with the code *)

Section Spec.

Context {Regexp : Type} `{!Matcher Regexp}.

(** Section 4.3: the positions where the template token is not a
    placeholder label and equals the incoming token. *)
Definition spec_sim_tokens (cfg : Config Regexp) (template tokens : list string) : Z :=
  len (List.filter (λ ts, negb (isParamString cfg ts.1) && String.eqb ts.1 ts.2)
         (zip template tokens)).

(** Section 4.3: the positions where the template token is a
    placeholder label. *)
Definition spec_param_count (cfg : Config Regexp) (template tokens : list string) : Z :=
  len (List.filter (λ ts, isParamString cfg ts.1) (zip template tokens)).

Definition spec_similarity (cfg : Config Regexp) (template tokens : list string)
    (includeParams : bool) : float64 :=
  f_div (spec_sim_tokens cfg template tokens
         + (if includeParams then spec_param_count cfg template tokens else 0))
    (len template).

(** Section 4.3: T'[i] = T[i] if T[i] == S[i], else classifier(T[i]). *)
Definition spec_template_update (cfg : Config Regexp) (T S : list string)
    : list string :=
  zip_with (λ t s, if String.eqb t s then t else getParamString cfg t) T S.

(** The regex configured under [label] accepts [token]. *)
Definition label_accepts (cfg : Config Regexp) (label token : string) : bool :=
  existsb (λ p, String.eqb p.1 label && MatchString p.2 token) (ParamPatterns cfg).

(** Section 4.6: every position either literal-equal or a placeholder
    whose regex accepts the corresponding input token. *)
Definition spec_perfect_match (cfg : Config Regexp) (template tokens : list string)
    : bool :=
  (len template =? len tokens)
  && forallb (λ ts, String.eqb ts.1 ts.2 || label_accepts cfg ts.1 ts.2)
       (zip template tokens).

End Spec.

(** Section 4.1: the first label whose regex fully matches, the empty
    sentinel if none does. *)
Fixpoint spec_classifier (patterns : list (string * regexp.Regexp)) (token : string)
    : string :=
  match patterns with
  | [] => ""
  | (label, p) :: patterns' =>
      if regexp.full_match (regexp.body p) token then label
      else spec_classifier patterns' token
  end.

(** The tokens that are the label of the default configuration. *)
Definition stars (tokens : list string) : Z :=
  len (List.filter (String.eqb "*") tokens).

(** The default configuration as [New] completes it. *)
Definition DefaultConfig_New : Config regexp.Regexp :=
  mkConfig 2 4 (4 # 10) 100 [] 0 [("*"%string, regexp.any)] SpaceTokenizer.

(** The cache without a bound that holds one cluster. *)
Definition cache_of_one (c : Cluster.t) : ClusterCache :=
  mkClusterCache (Some (simplelru.mk MaxInt [(Cluster.id c, c)])).

(** The tree knows the line of [tokens] as cluster 1. *)
Definition knows (root : Node) (tokens : list string) : Prop :=
  ∃ node leaf,
    keyToChildNode root !! Itoa (len tokens) = Some node
    ∧ treeSearch_loop DefaultConfig_New node tokens 1 (len tokens) = Some leaf
    ∧ clusterIDs leaf = [1].

(** A string that consists of white-space characters only. *)
Definition whitespace_only (s : string) : Prop :=
  ∃ rs : list rune, forallb IsSpace rs = true ∧ s = utf8 rs.

(** ** Configurations of the documentation and of the examples *)

Module examples.
Import regexp.

Definition octet : re := UpTo 2 digit.

(** ^([0-9]{1,3}\.[0-9]{1,3}\.[0-9]{1,3}\.[0-9]{1,3})$ *)
Definition ip : Regexp :=
  whole (Cat octet (Cat (Byte ".") (Cat octet (Cat (Byte ".")
          (Cat octet (Cat (Byte ".") octet)))))).

(** ^0x([0-9a-fA-F]{1,8})$ *)
Definition hex : Regexp := whole (Cat (Lit "0x") (UpTo 7 hexdigit)).

(** ^[a-zA-Z]+$ *)
Definition name : Regexp := whole (Plus letter).

(** ^\w+$ *)
Definition name_w : Regexp := whole (Plus word).

(** The configuration of the README. *)
Definition readme : Config Regexp :=
  NewConfig SpaceTokenizer
    [("{ip}"%string, ip); ("{hex}"%string, hex); ("{name}"%string, name)].

Definition readme_lines : list string :=
  ["connected to 10.0.0.1"; "connected to 10.0.0.2"; "connected to 10.0.0.3";
   "Hex number 0xDEADBEAF"; "Hex number 0x10000";
   "user davidoh logged in"; "user eranr logged in"]%string.

(** The patterns of the example program, whose [{name}] is [^\w+$],
    in two orders of visit. *)
Definition hex_then_name : Config Regexp :=
  NewConfig SpaceTokenizer [("{hex}"%string, hex); ("{name}"%string, name_w)].

Definition name_then_hex : Config Regexp :=
  NewConfig SpaceTokenizer [("{name}"%string, name_w); ("{hex}"%string, hex)].

(** The configuration of the README, its map visited backwards. *)
Definition readme_reversed : Config Regexp :=
  NewConfig SpaceTokenizer (rev (ParamPatterns readme)).

(** A pattern with no anchor. *)
Definition digits_within : Config Regexp :=
  NewConfig SpaceTokenizer [("{num}"%string, within (Plus digit))].

(** [MaxChildren = 2] and one pattern, for lower-case words. *)
Definition two_children : Config Regexp :=
  mkConfig 0 4 (4 # 10) 2 [] 0
    [("{name}"%string, whole (Plus (Range "a" "z")))] SpaceTokenizer.


End examples.


(** ** Printing a cluster *)

(** [strings.Join(elems, sep)] *)
Fixpoint Join (elems : list string) (sep : string) : string :=
  match elems with
  | [] => ""
  | e :: elems' =>
      match elems' with
      | [] => e
      | _ :: _ => e +:+ sep +:+ Join elems' sep
      end
  end.

(** [(c *Cluster) String()]:
    [fmt.Sprintf("id={%d} : size={%d} : %s", c.id, c.size, strings.Join(c.tokens, " "))] *)
Definition Cluster_String (c : Cluster.t) : string :=
  "id={" +:+ Itoa (Cluster.id c) +:+ "} : size={" +:+ Itoa (Cluster.size c)
  +:+ "} : " +:+ Join (Cluster.tokens c) " ".

(** ** Comparing candidates, and where a search stops *)

(** A candidate of similarity [sim0] and parameter count [pc0] does not
    beat one of similarity [sim] and parameter count [pc] in the
    comparison of [fastMatch]: its similarity is not greater, and if it
    is equal then its parameter count is not greater. *)
Definition no_better (sim0 : float64) (pc0 : Z) (sim : float64) (pc : Z) : Prop :=
  f_gt sim0 sim = false ∧ (f_eq sim0 sim = true → pc0 ≤ pc).

(** The key of the child a [branch] goes to. *)
Definition branch_key (b : branch) : string :=
  match b with
  | CreateChild key => key
  | IntoChild key => key
  end.

Section Search.

Context {Regexp : Type} `{!Matcher Regexp}.

(** The node whose bucket [treeSearch] reads for [tokens]: the
    first-level node of the token count when there is no token, the
    node where the descent stops otherwise. *)
Definition leaf_of (cfg : Config Regexp) (rootNode : Node) (tokens : list string)
    : option Node :=
  match keyToChildNode rootNode !! Itoa (len tokens) with
  | None => None
  | Some curNode =>
      if len tokens =? 0 then Some curNode
      else treeSearch_loop cfg curNode tokens 1 (len tokens)
  end.

End Search.

(** ** Invariants of the states a learner reaches *)

(** The ids of all the buckets at and below a node satisfy [P]. *)
Inductive bucket_ok (P : Z → Prop) : Node → Prop :=
| bucket_ok_node node :
    Forall P (clusterIDs node) →
    (∀ key child, keyToChildNode node !! key = Some child → bucket_ok P child) →
    bucket_ok P node.


(** The cache, when there is one: its capacity is positive, it holds no
    key twice and every record under its own id, and the ids lie
    between 1 and [counter]. *)
Definition cache_ok (counter : Z) (s : ClusterCache) : Prop :=
  ∀ l, cache s = Some l →
    0 < simplelru.size l
    ∧ NoDup (map fst (simplelru.evictList l))
    ∧ Forall (λ e, Cluster.id e.2 = e.1 ∧ 1 ≤ e.1 ≤ counter) (simplelru.evictList l).

(** A property of the cache that no [Get] destroys. *)
Definition kept_by_Get (K : ClusterCache → Prop) : Prop :=
  ∀ key s v s', ClusterCache_Get key s = Ok (v, s') → K s → K s'.

(** The cache, when there is one, has the capacity [cap] and holds no
    more entries than that. *)
Definition cache_capped (cap : Z) (s : ClusterCache) : Prop :=
  ∀ l, cache s = Some l →
    simplelru.size l = cap ∧ len (simplelru.evictList l) ≤ cap.

(** The sum of the sizes of clusters. *)
Fixpoint total_size (cs : list Cluster.t) : Z :=
  match cs with
  | [] => 0
  | c :: cs' => Cluster.size c + total_size cs'
  end.

(** The cache, when there is one, holds [counter] records, whose sizes
    are positive and add up to [n]. *)
Definition sizes_ok (counter n : Z) (s : ClusterCache) : Prop :=
  ∀ l, cache s = Some l →
    len (simplelru.evictList l) = counter
    ∧ total_size (map snd (simplelru.evictList l)) = n
    ∧ Forall (λ e : Z * Cluster.t, 1 ≤ Cluster.size e.2) (simplelru.evictList l).

(** An id of a bucket below the first-level node of [n] tokens: it was
    given out, and the record the cache holds under it, if any, has a
    template of [n] tokens. *)
Definition id_ok (counter : Z) (s : ClusterCache) (n : Z) (id : Z) : Prop :=
  1 ≤ id ≤ counter ∧ ∀ c, cached id s = Some c → len (Cluster.tokens c) = n.

(** The tree: every first-level node is the node of a token count, the
    ids below it are [id_ok] for that count, and the node of the count
    0 has a bucket that is not empty. *)
Definition tree_ok (counter : Z) (s : ClusterCache) (root : Node) : Prop :=
  ∀ key node, keyToChildNode root !! key = Some node →
    ∃ n, 0 ≤ n ∧ key = Itoa n
         ∧ bucket_ok (id_ok counter s n) node
         ∧ (n = 0 → clusterIDs node ≠ []).

Section Counted.

Context {Regexp : Type} `{!Matcher Regexp} `{!Unicode}.

Definition state_ok (d : Drain Regexp) : Prop :=
  0 ≤ clustersCounter d
  ∧ cache_ok (clustersCounter d) (idToCluster d)
  ∧ tree_ok (clustersCounter d) (idToCluster d) (rootNode d)
  ∧ (cache (idToCluster d) = None → keyToChildNode (rootNode d) = ∅).

(** The states of a learner after [n] calls of [Train] that returned,
    and any number of calls of [Match]. *)
Inductive reachable_in (cfg : Config Regexp) : nat → Drain Regexp → Prop :=
| reachable_in_New d :
    New cfg = Ok d → reachable_in cfg 0 d
| reachable_in_Train n d content c d' :
    reachable_in cfg n d → Train d content = Ok (c, d') →
    reachable_in cfg (S n) d'
| reachable_in_Match n d content c d' :
    reachable_in cfg n d → Match d content = Ok (c, d') →
    reachable_in cfg n d'.

End Counted.

(** ** The order in which the map of patterns is visited *)

(** [ParamPatterns] is a Go map, and Go chooses the order of a [range]
    over a map anew every time.  [getParamString_range] fixes the
    order of one visit; the properties that compare two calls let the
    second call visit the patterns in any other order ([with_patterns],
    [visit]), and ask that the tokens in question are classified alike
    by every order ([one_label]). *)

(** The value of a computation that returned, under [f]. *)
Definition result_map {A B : Type} (f : A → B) (r : result A) : result B :=
  match r with
  | Ok a => Ok (f a)
  | Panic e => Panic e
  end.

Section Orders.

Context {Regexp : Type} `{!Matcher Regexp}.

(** The entries of [patterns] whose regex accepts [token] all carry one
    label: every visiting order classifies [token] alike. *)
Definition one_label (patterns : list (string * Regexp)) (token : string) : Prop :=
  ∀ l1 p1 l2 p2,
    (l1, p1) ∈ patterns → (l2, p2) ∈ patterns →
    MatchString p1 token = true → MatchString p2 token = true → l1 = l2.

(** The configuration [cfg], its map of patterns visited in the order
    [patterns]. *)
Definition with_patterns (patterns : list (string * Regexp)) (cfg : Config Regexp)
    : Config Regexp :=
  mkConfig (maxNodeDepth cfg) (ClusterDepth cfg) (SimTh cfg) (MaxChildren cfg)
    (ExtraDelimiters cfg) (MaxClusters cfg) patterns (Tokenizer cfg).

(** The learner [d], its map of patterns visited in the order
    [patterns] by the next call. *)
Definition visit (patterns : list (string * Regexp)) (d : Drain Regexp)
    : Drain Regexp :=
  mkDrain (with_patterns patterns (config d)) (rootNode d) (idToCluster d)
    (clustersCounter d).

(** Two configurations that differ in their patterns at most, know the
    same labels, and classify the tokens of [tokens] alike. *)
Definition agree (tokens : list string) (cfg cfg' : Config Regexp) : Prop :=
  maxNodeDepth cfg' = maxNodeDepth cfg
  ∧ SimTh cfg' = SimTh cfg
  ∧ MaxChildren cfg' = MaxChildren cfg
  ∧ Tokenizer cfg' = Tokenizer cfg
  ∧ (∀ t, isParamString cfg' t = isParamString cfg t)
  ∧ Forall (λ t, getParamString cfg' t = getParamString cfg t) tokens.

End Orders.

(** ** Sample learners *)

Module samples.

(** A learner that holds one cluster at most. *)
Definition one_cluster : Config regexp.Regexp :=
  mkConfig 0 4 (4 # 10) 100 [] 1 [("*"%string, regexp.any)] SpaceTokenizer.

(** A learner whose [MaxClusters] is negative. *)
Definition no_cache : Config regexp.Regexp :=
  mkConfig 0 4 (4 # 10) 100 [] (-1) [("*"%string, regexp.any)] SpaceTokenizer.



(** A tokenizer that finds no token in the empty line. *)
Definition fields (content : string) : list string :=
  if String.eqb content "" then [] else SpaceTokenizer content.

Definition default_fields : Config regexp.Regexp :=
  mkConfig 0 4 (4 # 10) 100 [] 0 [("*"%string, regexp.any)] fields.

Definition lines : list string := ["a b"; "a c"; "x y z"]%string.

(** The learner of the default configuration, new. *)
Definition new : Drain regexp.Regexp :=
  mkDrain DefaultConfig_New createNode
    (mkClusterCache (Some (simplelru.mk MaxInt []))) 0.

(** The learner of the default configuration after [lines]. *)
Definition trained : Drain regexp.Regexp :=
  Eval vm_compute in
    match @learner _ _ ascii_unicode DefaultConfig lines with
    | Ok d => d
    | Panic _ => new
    end.

(** The learner of one cluster after [lines]. *)
Definition evicted : Drain regexp.Regexp :=
  Eval vm_compute in
    match @learner _ _ ascii_unicode one_cluster lines with
    | Ok d => d
    | Panic _ => new
    end.






(** The learner whose tokenizer finds no token in the empty line,
    after the empty line and two more. *)
Definition fields_lines : list string := [""; "a b"; "a c"]%string.

Definition fields_trained : Drain regexp.Regexp :=
  Eval vm_compute in
    match @learner _ _ ascii_unicode default_fields fields_lines with
    | Ok d => d
    | Panic _ => new
    end.

(** The learner of the two patterns of the example program after three
    lines. *)
Definition two_patterns_lines : list string :=
  ["user eranr"; "user davidoh"; "code 0xZZ"]%string.

Definition two_patterns_trained : Drain regexp.Regexp :=
  Eval vm_compute in
    match @learner _ _ ascii_unicode examples.hex_then_name two_patterns_lines with
    | Ok d => d
    | Panic _ => new
    end.

End samples.
(** * Properties *)

(** ** The parameter classifier *)

Section Classifier.

Context {Regexp : Type} `{!Matcher Regexp}.

(** C5, as amended: the classifier returns the label of the first
    entry, in the order the range loop visits the entries, whose regex
    [MatchString] accepts, and the empty string when [MatchString]
    accepts under no entry. *)
Theorem getParamString_first_MatchString (cfg : Config Regexp) (token : string) :
  (∃ before label p after,
      ParamPatterns cfg = before ++ (label, p) :: after
      ∧ Forall (λ e, MatchString e.2 token = false) before
      ∧ MatchString p token = true
      ∧ getParamString cfg token = label)
  ∨ (Forall (λ e, MatchString e.2 token = false) (ParamPatterns cfg)
     ∧ getParamString cfg token = ""%string).
Proof.
  unfold getParamString. generalize (ParamPatterns cfg) as patterns.
  induction patterns as [|[label p] patterns IH]; cbn [getParamString_range].
  - right. split; [constructor | reflexivity].
  - destruct (MatchString p token) eqn:Hp.
    + left. exists [], label, p, patterns. repeat split; auto.
    + destruct IH as [(before & l & q & after & -> & Hb & Hq & Hr) | [Hall Hr]].
      * left. exists ((label, p) :: before), l, q, after.
        repeat split; auto.
      * right. split; auto.
Qed.

(** The label the loop returns is the label of an entry that accepts,
    if any entry accepts. *)
Lemma getParamString_range_elem (patterns : list (string * Regexp)) (token : string) :
  (∃ label p, (label, p) ∈ patterns ∧ MatchString p token = true
              ∧ getParamString_range patterns token = label)
  ∨ ((∀ label p, (label, p) ∈ patterns → MatchString p token = false)
     ∧ getParamString_range patterns token = ""%string).
Proof.
  induction patterns as [|[label p] patterns IH]; cbn [getParamString_range].
  - right. split; [|reflexivity]. intros l q Hin. now apply elem_of_nil in Hin.
  - destruct (MatchString p token) eqn:Hp.
    + left. exists label, p. split; [apply list_elem_of_here | auto].
    + destruct IH as [(l & q & Hin & Hq & Hr) | [Hno Hr]].
      * left. exists l, q. split; [now apply list_elem_of_further | auto].
      * right. split; [|exact Hr].
        intros l q [[= -> ->] | Hin]%elem_of_cons; [exact Hp | now apply (Hno l)].
Qed.

(** Two visits of the same map, in any two orders, classify a token
    alike when the entries whose regex accepts the token all carry one
    label. *)
Lemma getParamString_range_perm (patterns patterns' : list (string * Regexp))
    (token : string) :
  patterns' ≡ₚ patterns → one_label patterns token →
  getParamString_range patterns' token = getParamString_range patterns token.
Proof.
  intros Hperm Hone.
  destruct (getParamString_range_elem patterns token)
    as [(l1 & p1 & Hin1 & Hm1 & ->) | [Hno1 ->]];
    destruct (getParamString_range_elem patterns' token)
      as [(l2 & p2 & Hin2 & Hm2 & ->) | [Hno2 ->]]; try reflexivity.
  - apply (Hone l2 p2 l1 p1); auto. now rewrite <- Hperm.
  - rewrite <- Hperm in Hin1. rewrite (Hno2 _ _ Hin1) in Hm1. discriminate.
  - rewrite Hperm in Hin2. rewrite (Hno1 _ _ Hin2) in Hm2. discriminate.
Qed.

End Classifier.

(** ** Similarity and template update *)

Section Similarity.

Context {Regexp : Type} `{!Matcher Regexp} `{!Unicode}.

Lemma len_cons {A : Type} (x : A) (l : list A) : len (x :: l) = len l + 1.
Proof. unfold len. simpl length. lia. Qed.

Lemma len_nonneg {A : Type} (l : list A) : 0 ≤ len l.
Proof. unfold len. lia. Qed.

Lemma len_eq_length {A B : Type} (l : list A) (k : list B) :
  len l = len k ↔ length l = length k.
Proof. unfold len. lia. Qed.

(** The loop adds to its two counters the numbers of positions the
    specification counts. *)
Lemma getSeqDistance_loop_counts (cfg : Config Regexp) (seq1 seq2 : list string)
    (simTokens paramCount : Z) :
  getSeqDistance_loop cfg seq1 seq2 simTokens paramCount
  = (simTokens + spec_sim_tokens cfg seq1 seq2,
     paramCount + spec_param_count cfg seq1 seq2).
Proof.
  unfold spec_sim_tokens, spec_param_count, len.
  revert seq2 simTokens paramCount.
  induction seq1 as [|token1 seq1 IH]; intros [|token2 seq2] simTokens paramCount;
    try (cbn; f_equal; lia).
  cbn [getSeqDistance_loop zip zip_with].
  cbn [List.filter fst snd].
  destruct (isParamString cfg token1) eqn:Hp; cbn [negb andb].
  - rewrite IH. cbn [length]. f_equal; lia.
  - destruct (String.eqb token1 token2) eqn:He; rewrite IH; cbn [length]; f_equal; lia.
Qed.

(** The two results of [getSeqDistance], for the proofs about the
    search. *)
Lemma getSeqDistance_counts (cfg : Config Regexp) (template tokens : list string)
    (includeParams : bool) :
  length template = length tokens →
  getSeqDistance cfg template tokens includeParams
  = Ok (spec_similarity cfg template tokens includeParams,
        spec_param_count cfg template tokens).
Proof.
  intros Hlen. unfold getSeqDistance, spec_similarity.
  apply len_eq_length in Hlen. rewrite Hlen, Z.eqb_refl. cbn [negb].
  rewrite getSeqDistance_loop_counts, <- Hlen.
  destruct includeParams; rewrite ?Z.add_0_l, ?Z.add_0_r; reflexivity.
Qed.

(** C4: on two sequences of one length the similarity is the quotient
    [sim_tokens / length] of rational numbers, where [sim_tokens] counts
    the positions whose template token is no configured label and
    equals the incoming token, with [param_count], the number of
    positions whose template token is a configured label, added to
    [sim_tokens] before the division when the parameters are to be
    included; the second result is [param_count].  (On two empty
    sequences the quotient is 0/0, which is NaN in Go.) *)
Theorem getSeqDistance_spec (cfg : Config Regexp) (template tokens : list string)
    (includeParams : bool) :
  length template = length tokens →
  getSeqDistance cfg template tokens includeParams
  = Ok (match template with
        | [] => NaN
        | _ :: _ =>
            Fin (inject_Z
                   (spec_sim_tokens cfg template tokens
                    + (if includeParams then spec_param_count cfg template tokens
                       else 0))
                 / inject_Z (Z.of_nat (length template)))
        end,
        spec_param_count cfg template tokens).
Proof.
  intros Hlen. unfold getSeqDistance.
  apply len_eq_length in Hlen. rewrite Hlen, Z.eqb_refl. cbn [negb].
  rewrite getSeqDistance_loop_counts, <- Hlen. rewrite !Z.add_0_l.
  unfold f_div, len. destruct template as [|t template].
  - reflexivity.
  - destruct (Z.eqb_spec (Z.of_nat (length (t :: template))) 0) as [E|_];
      [cbn [length] in E; lia|].
    destruct includeParams; rewrite ?Z.add_0_r; reflexivity.
Qed.

(** *** The template update *)

Lemma createTemplate_loop_length (cfg : Config Regexp) (source target : list string) :
  length (createTemplate_loop cfg source target) = length target.
Proof.
  revert target. induction source as [|s source IH]; intros [|t target]; cbn; auto.
Qed.

Lemma createTemplate_loop_lookup (cfg : Config Regexp) (source target : list string)
    (i : nat) (s t : string) :
  source !! i = Some s → target !! i = Some t →
  createTemplate_loop cfg source target !! i
  = Some (if bool_decide (t = s) then t else getParamString cfg s).
Proof.
  revert target i.
  induction source as [|s0 source IH]; intros [|t0 target] [|i]; cbn; try discriminate.
  - intros [= ->] [= ->]. f_equal.
    destruct (String.eqb_spec s t) as [->|Hne]; cbn.
    + now rewrite bool_decide_eq_true_2.
    + rewrite bool_decide_eq_false_2; [reflexivity | congruence].
  - apply IH.
Qed.

Lemma createTemplate_Ok (cfg : Config Regexp) (source target T' : list string) :
  createTemplate cfg source target = Ok T' →
  length source = length target ∧ T' = createTemplate_loop cfg source target.
Proof.
  unfold createTemplate.
  destruct (len source =? len target) eqn:Hlen; cbn; [|discriminate].
  intros [= <-]. apply Z.eqb_eq, len_eq_length in Hlen. auto.
Qed.

(** C3, as amended: a Train call that matches cluster [m] returns it
    with a template of the same length that keeps [T[i]] where
    [T[i] = S[i]] and holds the classifier's label of the incoming
    token [S[i]] where they differ. *)
Theorem Train_template_update (d : Drain Regexp) (content : string)
    (m c : Cluster.t) (cache1 : ClusterCache) (d' : Drain Regexp) :
  treeSearch (config d) (rootNode d) (Tokenizer (config d) content)
    (SimTh (config d)) false (idToCluster d) = Ok (Some m, cache1) →
  Train d content = Ok (c, d') →
  length (Cluster.tokens c) = length (Cluster.tokens m)
  ∧ length (Cluster.tokens m) = length (Tokenizer (config d) content)
  ∧ ∀ (i : nat) (t s : string),
      Cluster.tokens m !! i = Some t →
      Tokenizer (config d) content !! i = Some s →
      Cluster.tokens c !! i
      = Some (if bool_decide (t = s) then t else getParamString (config d) s).
Proof.
  intros Hsearch. unfold Train. rewrite Hsearch. cbn.
  destruct (createTemplate _ _ _) as [T'|] eqn:HT; cbn; [|discriminate].
  apply createTemplate_Ok in HT as [Hlen ->].
  destruct (ClusterCache_Get _ _) as [[? cache3]|]; cbn; [|discriminate].
  intros [= <- <-]. cbn.
  split; [apply createTemplate_loop_length|].
  split; [now symmetry|].
  intros i t s Ht Hs. now apply createTemplate_loop_lookup.
Qed.

(** *** The cache under [Get] *)

Lemma find_without (key k : Z) (l : list (Z * Cluster.t)) :
  k ≠ key →
  List.find (λ e, e.1 =? k) (simplelru.without key l) = List.find (λ e, e.1 =? k) l.
Proof.
  intros Hne. unfold simplelru.without.
  induction l as [|[k0 v0] l IH]; cbn; [reflexivity|].
  destruct (Z.eqb_spec k0 key) as [->|Hk0]; cbn.
  - destruct (Z.eqb_spec key k); [congruence | exact IH].
  - destruct (Z.eqb_spec k0 k); [reflexivity | exact IH].
Qed.

Lemma Peek_Get (key k : Z) (l : simplelru.LRU) :
  simplelru.Peek k (simplelru.Get key l).2 = simplelru.Peek k l.
Proof.
  unfold simplelru.Get.
  destruct (simplelru.Peek key l) as [v|] eqn:Hv; [|reflexivity].
  unfold simplelru.Peek in *. cbn.
  destruct (Z.eqb_spec key k) as [->|Hne]; cbn.
  - now rewrite Hv.
  - rewrite find_without; auto.
Qed.

Lemma ClusterCache_Get_Ok (key : Z) (s s' : ClusterCache) (v : option Cluster.t) :
  ClusterCache_Get key s = Ok (v, s') →
  v = cached key s ∧ ∀ k, cached k s' = cached k s.
Proof.
  unfold ClusterCache_Get, cached.
  destruct (cache s) as [l|]; [|discriminate].
  destruct (simplelru.Get key l) as [v0 l'] eqn:HG. intros [= <- <-]. cbn.
  split.
  - unfold simplelru.Get in HG. destruct (simplelru.Peek key l); now inversion HG.
  - intros k. change l' with (v0, l').2. rewrite <- HG. apply Peek_Get.
Qed.

(** *** A perfect similarity *)

Lemma counts_full (cfg : Config Regexp) (l : list (string * string)) :
  len (List.filter (λ ts, negb (isParamString cfg ts.1) && String.eqb ts.1 ts.2) l)
  + len (List.filter (λ ts, isParamString cfg ts.1) l) ≤ len l
  ∧ (len (List.filter (λ ts, negb (isParamString cfg ts.1) && String.eqb ts.1 ts.2) l)
     + len (List.filter (λ ts, isParamString cfg ts.1) l) = len l →
     Forall (λ ts, ts.1 = ts.2 ∨ isParamString cfg ts.1 = true) l).
Proof.
  unfold len. induction l as [|[t s] l [IHle IHall]]; cbn [List.filter fst snd].
  - split; [cbn; lia | constructor].
  - destruct (isParamString cfg t) eqn:Hp; cbn [negb andb length].
    + split; [lia|]. intros Heq. constructor; [now right | apply IHall; lia].
    + destruct (String.eqb_spec t s) as [->|Hne]; cbn [length].
      * split; [lia|]. intros Heq. constructor; [now left | apply IHall; lia].
      * split; [lia|]. intros Heq. lia.
Qed.

Lemma one_le_quotient (a n : Z) :
  f_ge (f_div a n) (Fin 1) = true → n ≠ 0 ∧ (0 < n → n ≤ a).
Proof.
  unfold f_div, f_ge. destruct (Z.eqb_spec n 0) as [->|Hn]; [discriminate|].
  intros Hle. split; [exact Hn|]. intros Hpos.
  apply Qle_bool_iff in Hle. destruct n as [|p|p]; try lia.
  unfold Qle, Qdiv, Qmult, Qinv, inject_Z in Hle. cbn in Hle. lia.
Qed.

(** A similarity of 1 with the parameters included: the two sequences
    have one length, not 0, and every position holds equal tokens or a
    configured label in the template. *)
Lemma getSeqDistance_perfect (cfg : Config Regexp) (template tokens : list string)
    (sim : float64) (paramCount : Z) :
  getSeqDistance cfg template tokens true = Ok (sim, paramCount) →
  f_ge sim (Fin 1) = true →
  length template = length tokens
  ∧ tokens ≠ []
  ∧ ∀ (i : nat) (t s : string),
      template !! i = Some t → tokens !! i = Some s →
      t = s ∨ isParamString cfg t = true.
Proof.
  intros Hd Hge.
  assert (Hlen : length template = length tokens).
  { unfold getSeqDistance in Hd.
    destruct (Z.eqb_spec (len template) (len tokens)) as [E|E]; [|discriminate].
    now apply len_eq_length in E. }
  rewrite getSeqDistance_counts in Hd by exact Hlen. injection Hd as <- <-.
  unfold spec_similarity, spec_sim_tokens, spec_param_count in Hge.
  apply one_le_quotient in Hge as [Hn Hfull].
  destruct (counts_full cfg (zip template tokens)) as [Hle Hall].
  assert (Hz : len (zip template tokens) = len template).
  { unfold len. rewrite length_zip_with. lia. }
  split; [exact Hlen|]. split.
  { intros ->. destruct template; [apply Hn; reflexivity | discriminate]. }
  assert (Hpos : 0 < len template) by (pose proof (len_nonneg template); lia).
  specialize (Hfull Hpos). rewrite Hz in Hle, Hall.
  assert (HF := Hall ltac:(lia)).
  intros i t s Ht Hs. rewrite Forall_lookup in HF.
  apply (HF i (t, s)). apply lookup_zip_with_Some. eauto.
Qed.

(** *** The search *)

Lemma bind_M_Ok {A B : Type} (m : M A) (f : A → M B) (s : ClusterCache)
    (r : B * ClusterCache) :
  (m ≫= f) s = Ok r → ∃ a s1, m s = Ok (a, s1) ∧ f a s1 = Ok r.
Proof.
  unfold mbind, M_bind. destruct (m s) as [[a s1]|]; [|discriminate]. eauto.
Qed.

Lemma lift_Ok {A : Type} (x : result A) (s s' : ClusterCache) (a : A) :
  lift x s = Ok (a, s') → x = Ok a ∧ s' = s.
Proof. unfold lift. destruct x; [|discriminate]. now intros [= <- <-]. Qed.

Lemma fastMatch_loop_candidate (cfg : Config Regexp) (clusterIDs : list Z)
    (tokens : list string) (includeParams : bool) (s0 : ClusterCache) :
  ∀ (maxSim : float64) (maxParamCount : Z) (maxCluster : option Cluster.t)
    (s s' : ClusterCache) (sim : float64) (best : option Cluster.t),
    (∀ k, cached k s = cached k s0) →
    candidate cfg tokens includeParams s0 maxSim maxCluster →
    fastMatch_loop cfg clusterIDs tokens includeParams maxSim maxParamCount maxCluster s
    = Ok ((sim, best), s') →
    (∀ k, cached k s' = cached k s0)
    ∧ candidate cfg tokens includeParams s0 sim best.
Proof.
  induction clusterIDs as [|clusterID clusterIDs IH];
    intros maxSim maxParamCount maxCluster s s' sim best Hs Hc; cbn [fastMatch_loop].
  - intros [= <- <- <-]. auto.
  - intros Hrun. apply bind_M_Ok in Hrun as (cluster & s1 & HG & Hrun).
    apply ClusterCache_Get_Ok in HG as [-> Hs1].
    assert (Hs1' : ∀ k, cached k s1 = cached k s0) by (intros k; now rewrite Hs1).
    destruct (cached clusterID s) as [cluster|] eqn:Hcl.
    + apply bind_M_Ok in Hrun as ([curSim paramCount] & s2 & HD & Hrun).
      apply lift_Ok in HD as [HD ->]. cbn in HD.
      destruct (f_gt curSim maxSim || f_eq curSim maxSim && (maxParamCount <? paramCount)).
      * apply (IH _ _ _ _ _ _ _ Hs1') in Hrun; [exact Hrun|].
        intros c [= <-]. exists paramCount, clusterID. split; [exact HD|].
        now rewrite <- Hs.
      * now apply (IH _ _ _ _ _ _ _ Hs1') in Hrun.
    + now apply (IH _ _ _ _ _ _ _ Hs1') in Hrun.
Qed.

Lemma fastMatch_perfect (cfg : Config Regexp) (clusterIDs : list Z)
    (tokens : list string) (s s' : ClusterCache) (c : Cluster.t) :
  fastMatch cfg clusterIDs tokens 1 true s = Ok (Some c, s') →
  (∃ key, cached key s = Some c)
  ∧ length (Cluster.tokens c) = length tokens
  ∧ ∀ (i : nat) (t x : string),
      Cluster.tokens c !! i = Some t → tokens !! i = Some x →
      t = x ∨ isParamString cfg t = true.
Proof.
  unfold fastMatch. intros Hrun.
  apply bind_M_Ok in Hrun as ([maxSim maxCluster] & s1 & Hloop & Hret).
  apply (fastMatch_loop_candidate _ _ _ _ s) in Hloop as [_ Hc]; [|auto|intros ? [=]].
  cbn in Hret. destruct (f_ge maxSim (Fin 1)) eqn:Hge; [|discriminate].
  injection Hret as -> <-.
  destruct (Hc c eq_refl) as (paramCount & key & HD & Hkey).
  destruct (getSeqDistance_perfect _ _ _ _ _ HD Hge) as (Hlen & _ & Hpos).
  eauto.
Qed.

Lemma treeSearch_perfect (cfg : Config Regexp) (root : Node)
    (tokens : list string) (s s' : ClusterCache) (c : Cluster.t) :
  treeSearch cfg root tokens 1 true s = Ok (Some c, s') →
  (∃ key, cached key s = Some c)
  ∧ (tokens ≠ [] → length (Cluster.tokens c) = length tokens)
  ∧ ∀ (i : nat) (t x : string),
      Cluster.tokens c !! i = Some t → tokens !! i = Some x →
      t = x ∨ isParamString cfg t = true.
Proof.
  unfold treeSearch.
  destruct (keyToChildNode root !! Itoa (len tokens)) as [curNode|]; [|discriminate].
  destruct (Z.eqb_spec (len tokens) 0) as [H0|H0].
  - assert (tokens = []) as -> by (destruct tokens; [reflexivity | discriminate]).
    destruct (clusterIDs curNode) as [|clusterID ?].
    + intros Hrun. apply lift_Ok in Hrun as [? _]. discriminate.
    + intros HG. apply ClusterCache_Get_Ok in HG as [HG _].
      split; [eauto|]. split; [congruence|]. intros i t x _ Hx. discriminate.
  - destruct (treeSearch_loop cfg curNode tokens 1 (len tokens)) as [leaf|];
      [|discriminate].
    intros Hrun. apply fastMatch_perfect in Hrun as (Hkey & Hlen & Hpos). auto.
Qed.

End Similarity.

(** ** The built-in tokenizer *)

Lemma IsSpace_white_space (r : rune) : IsSpace r = true → r ∈ white_space.
Proof.
  unfold IsSpace. intros H.
  assert (Hr : r = 9 ∨ r = 10 ∨ r = 11 ∨ r = 12 ∨ r = 13 ∨ r = 32 ∨ r = 133
               ∨ r = 160 ∨ r = 5760 ∨ (8192 ≤ r ∧ r ≤ 8202) ∨ r = 8232
               ∨ r = 8233 ∨ r = 8239 ∨ r = 8287 ∨ r = 12288).
  { repeat match goal with
           | H : _ || _ = true |- _ => apply orb_true_iff in H as [H|H]
           | H : _ && _ = true |- _ => apply andb_true_iff in H as [? ?]
           end; lia. }
  assert (Hr' : r = 9 ∨ r = 10 ∨ r = 11 ∨ r = 12 ∨ r = 13 ∨ r = 32 ∨ r = 133
               ∨ r = 160 ∨ r = 5760 ∨ r = 8192 ∨ r = 8193 ∨ r = 8194 ∨ r = 8195
               ∨ r = 8196 ∨ r = 8197 ∨ r = 8198 ∨ r = 8199 ∨ r = 8200 ∨ r = 8201
               ∨ r = 8202 ∨ r = 8232 ∨ r = 8233 ∨ r = 8239 ∨ r = 8287 ∨ r = 12288)
    by lia.
  unfold white_space. rewrite !elem_of_cons.
  repeat (destruct Hr' as [->|Hr']; [tauto|]). subst r. tauto.
Qed.

Lemma TrimLeftSpace_utf8_rune (r : rune) (s : string) :
  r ∈ white_space → TrimLeftSpace (utf8_rune r +:+ s) = TrimLeftSpace s.
Proof.
  unfold white_space. rewrite !elem_of_cons, elem_of_nil.
  intros H. repeat (destruct H as [->|H]; [reflexivity|]). destruct H.
Qed.

Lemma TrimLeftSpace_utf8 (rs : list rune) :
  forallb IsSpace rs = true → TrimLeftSpace (utf8 rs) = ""%string.
Proof.
  induction rs as [|r rs IH]; cbn [forallb utf8]; [reflexivity|].
  intros [Hr Hrs]%andb_true_iff.
  rewrite TrimLeftSpace_utf8_rune by now apply IsSpace_white_space. auto.
Qed.

Lemma Split_not_nil (s : string) (sep : ascii) : Split s sep ≠ [].
Proof.
  destruct s as [|c s]; cbn; [discriminate|].
  destruct (Ascii.eqb c sep); [discriminate|].
  destruct (Split s sep); discriminate.
Qed.


(** ** The shape of the tree *)

Section Tree.

Context {Regexp : Type} `{!Matcher Regexp} `{!Unicode}.









(** *** One step of the descent *)




(** *** The insertion loop *)




End Tree.

(** ** The states a learner reaches *)

Section Reachable.

Context {Regexp : Type} `{!Matcher Regexp} `{!Unicode}.

Lemma New_Ok (cfg : Config Regexp) (d : Drain Regexp) :
  New cfg = Ok d →
  3 ≤ ClusterDepth cfg
  ∧ maxNodeDepth (config d) = ClusterDepth cfg - 2
  ∧ MaxChildren (config d) = MaxChildren cfg
  ∧ ParamPatterns (config d) = ParamPatterns cfg
  ∧ rootNode d = createNode.
Proof.
  unfold New. destruct (Z.ltb_spec (ClusterDepth cfg) 3); [discriminate|].
  intros [= <-]. cbn. auto.
Qed.

Lemma Train_Ok (d : Drain Regexp) (content : string) (c : Cluster.t) (d' : Drain Regexp) :
  Train d content = Ok (c, d') →
  config d' = config d
  ∧ (rootNode d' = rootNode d
     ∨ ∃ cluster s s',
         Cluster.tokens cluster = Tokenizer (config d) content
         ∧ addSeqToPrefixTree (config d) (rootNode d) cluster s = Ok (rootNode d', s')).
Proof.
  unfold Train.
  destruct (treeSearch _ _ _ _ _ _) as [[[m|] cache1]|]; cbn; [| |discriminate].
  - destruct (createTemplate _ _ _); cbn; [|discriminate].
    destruct (ClusterCache_Get _ _) as [[? ?]|]; cbn; [|discriminate].
    intros [= <- <-]. cbn. auto.
  - destruct (ClusterCache_Set _ _ _) as [[? cache2]|]; cbn; [|discriminate].
    destruct (addSeqToPrefixTree _ _ _ _) as [[root' cache3]|] eqn:Hadd; cbn;
      [|discriminate].
    intros [= <- <-]. cbn. split; [reflexivity|]. right.
    eexists _, _, _. split; [|exact Hadd]. reflexivity.
Qed.

Lemma Match_Ok (d : Drain Regexp) (content : string) (c : option Cluster.t)
    (d' : Drain Regexp) :
  Match d content = Ok (c, d') →
  config d' = config d ∧ rootNode d' = rootNode d
  ∧ clustersCounter d' = clustersCounter d.
Proof.
  unfold Match.
  destruct (treeSearch _ _ _ _ _ _) as [[? ?]|]; cbn; [|discriminate].
  intros [= <- <-]. cbn. auto.
Qed.

Lemma reachable_config (cfg : Config Regexp) (d : Drain Regexp) :
  reachable cfg d →
  3 ≤ ClusterDepth cfg
  ∧ maxNodeDepth (config d) = ClusterDepth cfg - 2
  ∧ MaxChildren (config d) = MaxChildren cfg
  ∧ ParamPatterns (config d) = ParamPatterns cfg.
Proof.
  induction 1 as [d HNew | d content c d' _ IH HT | d content c d' _ IH HM].
  - apply New_Ok in HNew. tauto.
  - apply Train_Ok in HT as [-> _]. exact IH.
  - apply Match_Ok in HM as [-> _]. exact IH.
Qed.


Lemma train_lines_reachable (cfg : Config Regexp) (lines : list string) :
  ∀ d d' : Drain Regexp,
    reachable cfg d → train_lines d lines = Ok d' → reachable cfg d'.
Proof.
  induction lines as [|line lines IH]; intros d d' Hd; cbn [train_lines].
  - now intros [= <-].
  - destruct (Train d line) as [[c d1]|] eqn:HT; cbn; [|discriminate].
    apply IH. eapply reachable_Train; eauto.
Qed.

Lemma learner_reachable (cfg : Config Regexp) (lines : list string) (d : Drain Regexp) :
  learner cfg lines = Ok d → reachable cfg d.
Proof.
  unfold learner. destruct (New cfg) as [d0|] eqn:HNew; cbn; [|discriminate].
  apply train_lines_reachable. now apply reachable_New.
Qed.



(** *** The zero-token bucket *)

Lemma reachable_Tokenizer (cfg : Config Regexp) (d : Drain Regexp) :
  reachable cfg d → Tokenizer (config d) = Tokenizer cfg.
Proof.
  induction 1 as [d HNew | d content c d' _ IH HT | d content c d' _ IH HM].
  - unfold New in HNew. destruct (ClusterDepth cfg <? 3); [discriminate|].
    now injection HNew as <-.
  - apply Train_Ok in HT as [-> _]. exact IH.
  - apply Match_Ok in HM as [-> _]. exact IH.
Qed.

(** An insertion writes the root under the key of its token count and
    under no other key. *)
Lemma addSeqToPrefixTree_other_keys (cfg : Config Regexp) (root root' : Node)
    (cluster : Cluster.t) (s s' : ClusterCache) (key : string) :
  addSeqToPrefixTree cfg root cluster s = Ok (root', s') →
  key ≠ Itoa (len (Cluster.tokens cluster)) →
  keyToChildNode root' !! key = keyToChildNode root !! key.
Proof.
  unfold addSeqToPrefixTree. intros Hrun Hkey.
  destruct (len (Cluster.tokens cluster) =? 0).
  - injection Hrun as <- <-. cbn. now rewrite lookup_insert_ne.
  - apply bind_M_Ok in Hrun as (first' & s1 & _ & [= <- <-]).
    cbn. now rewrite lookup_insert_ne.
Qed.

Lemma len_SpaceTokenizer (line : string) : len (SpaceTokenizer line) ≠ 0.
Proof.
  pose proof (Split_not_nil (TrimSpace line) " "%char) as Hne.
  unfold SpaceTokenizer, len. destruct (Split _ _); [congruence | cbn; lia].
Qed.

(** C10: on a line of white space only, the empty line included,
    [SpaceTokenizer] returns the one token [""], so the first-level key
    of search and insertion is ["1"]; and on no line at all does it
    return zero tokens, so with it as the tokenizer the test
    [tokenCount == 0] of search and insertion fails on every line, and
    in no state that the learner reaches does the root have the child
    ["0"] of the zero-token bucket. *)
Theorem SpaceTokenizer_whitespace_only (cfg : Config Regexp) (d : Drain Regexp)
    (content line : string) :
  whitespace_only content →
  Tokenizer cfg = SpaceTokenizer →
  reachable cfg d →
  SpaceTokenizer content = [""%string]
  ∧ Itoa (len (Tokenizer (config d) content)) = "1"%string
  ∧ SpaceTokenizer line ≠ []
  ∧ (len (Tokenizer (config d) line) =? 0) = false
  ∧ keyToChildNode (rootNode d) !! Itoa 0 = None.
Proof.
  intros (rs & Hrs & ->) Htok Hd.
  assert (H1 : SpaceTokenizer (utf8 rs) = [""%string]).
  { unfold SpaceTokenizer, TrimSpace. now rewrite TrimLeftSpace_utf8. }
  rewrite (reachable_Tokenizer cfg d Hd), Htok, H1.
  split; [reflexivity|]. split; [reflexivity|].
  split; [apply Split_not_nil|].
  split; [apply Z.eqb_neq, len_SpaceTokenizer|].
  clear H1 Hrs rs line.
  induction Hd as [d HNew | d content c d' Hd IH HT | d content c d' _ IH HM].
  - apply New_Ok in HNew as (_ & _ & _ & _ & ->). apply lookup_empty.
  - pose proof (reachable_Tokenizer cfg d Hd) as Hcfg.
    apply Train_Ok in HT as [_ [-> | (cluster & s & s' & Hcl & Hadd)]]; [exact IH|].
    rewrite (addSeqToPrefixTree_other_keys _ _ _ _ _ _ _ Hadd); [exact IH|].
    rewrite Hcl, Hcfg, Htok. unfold Itoa. intros E%(inj pretty).
    symmetry in E. now apply len_SpaceTokenizer in E.
  - apply Match_Ok in HM as (_ & -> & _). exact IH.
Qed.

End Reachable.

(** ** The default configuration *)

Section Default.

Context `{!Unicode}.

Lemma MatchString_any (token : string) : MatchString regexp.any token = true.
Proof.
  unfold MatchString, regexp_matcher, regexp.MatchString. cbn.
  destruct token; reflexivity.
Qed.

Lemma getParamString_default (token : string) :
  getParamString DefaultConfig_New token = "*"%string.
Proof.
  unfold getParamString, DefaultConfig_New. cbn [ParamPatterns getParamString_range].
  now rewrite MatchString_any.
Qed.

Lemma isParamString_default (token : string) :
  isParamString DefaultConfig_New token = String.eqb "*" token.
Proof.
  unfold isParamString, DefaultConfig_New. cbn [ParamPatterns existsb fst].
  now rewrite orb_false_r.
Qed.

Lemma New_DefaultConfig :
  New DefaultConfig
  = Ok (mkDrain DefaultConfig_New createNode
          (mkClusterCache (Some (simplelru.mk MaxInt []))) 0).
Proof. reflexivity. Qed.

Lemma incr_small (k : Z) : 0 ≤ k → k + 1 < 2 ^ 63 → incr k = k + 1.
Proof.
  intros H0 H1. unfold incr, wrap64.
  change (2 ^ 64) with (2 * 2 ^ 63). set (p := 2 ^ 63) in *.
  rewrite Z.mod_small; lia.
Qed.

(** *** Similarity of a line with itself *)

Lemma spec_counts_self (tokens : list string) :
  spec_param_count DefaultConfig_New tokens tokens = stars tokens
  ∧ spec_sim_tokens DefaultConfig_New tokens tokens = len tokens - stars tokens.
Proof.
  unfold spec_param_count, spec_sim_tokens, stars, len.
  induction tokens as [|t tokens [IHp IHs]]; [split; reflexivity|].
  cbn [zip_with List.filter fst snd]. rewrite isParamString_default, String.eqb_refl.
  destruct (String.eqb "*" t); cbn [negb andb length]; lia.
Qed.

Lemma stars_bounds (tokens : list string) : 0 ≤ stars tokens ≤ len tokens.
Proof.
  unfold stars, len. induction tokens as [|t tokens IH]; cbn [List.filter length]; [lia|].
  destruct (String.eqb "*" t); cbn [length]; lia.
Qed.

Lemma f_gt_minus_one (a n : Z) : 0 ≤ a → 0 < n → f_gt (f_div a n) (Fin (-1)) = true.
Proof.
  intros Ha Hn. unfold f_div, f_gt.
  destruct (Z.eqb_spec n 0); [lia|].
  destruct (Qle_bool _ _) eqn:Hle; [|reflexivity].
  apply Qle_bool_iff in Hle. destruct n as [|p|p]; try lia.
  unfold Qle, Qdiv, Qmult, Qinv, inject_Z in Hle. cbn in Hle. lia.
Qed.

Lemma f_ge_threshold (a n : Z) :
  0 < n → 4 * n ≤ 10 * a → f_ge (f_div a n) (Fin (4 # 10)) = true.
Proof.
  intros Hn Ha. unfold f_div, f_ge.
  destruct (Z.eqb_spec n 0); [lia|].
  apply Qle_bool_iff. destruct n as [|p|p]; try lia.
  unfold Qle, Qdiv, Qmult, Qinv, inject_Z. cbn. lia.
Qed.

Lemma createTemplate_loop_self (cfg : Config regexp.Regexp) (tokens : list string) :
  createTemplate_loop cfg tokens tokens = tokens.
Proof.
  induction tokens as [|t tokens IH]; cbn; [reflexivity|].
  now rewrite String.eqb_refl, IH.
Qed.

(** *** The path of a first line *)

Lemma chooseChild_createNode (token : string) :
  ∃ key, chooseChild DefaultConfig_New createNode token = CreateChild key
         ∧ (key = token ∨ key = "*"%string).
Proof.
  unfold chooseChild. cbn [keyToChildNode createNode].
  rewrite !lookup_empty, getParamString_default, map_size_empty.
  destruct (hasNumbers token); cbn; eauto.
Qed.

(** Inserted below a fresh node, the tokens of a cluster leave a path
    that the search of the same tokens follows to the bucket of the
    cluster alone; the cache is not looked at. *)
Lemma addSeqToPrefixTree_loop_fresh (cluster : Cluster.t) (tokens : list string)
    (tokenCount : Z) (s : ClusterCache) :
  ∀ currentDepth : Z,
    tokens ≠ [] →
    tokenCount = currentDepth + len tokens - 1 →
    ∃ node leaf,
      addSeqToPrefixTree_loop DefaultConfig_New cluster createNode tokens
        currentDepth tokenCount s = Ok (node, s)
      ∧ treeSearch_loop DefaultConfig_New node tokens currentDepth tokenCount = Some leaf
      ∧ clusterIDs leaf = [Cluster.id cluster].
Proof.
  induction tokens as [|token tokens IH]; intros currentDepth Hne Hcount; [congruence|].
  rewrite len_cons in Hcount. pose proof (len_nonneg tokens) as Hlen.
  cbn [addSeqToPrefixTree_loop treeSearch_loop].
  change (maxNodeDepth DefaultConfig_New) with 2.
  destruct (Z.leb_spec 2 currentDepth) as [Hdeep|Hshallow]; cbn [orb].
  { eexists _, _. repeat split. }
  destruct (Z.leb_spec tokenCount currentDepth) as [Hlast|Hmore].
  { assert (currentDepth = tokenCount) as -> by lia. rewrite Z.eqb_refl.
    eexists _, _. repeat split. }
  destruct (Z.eqb_spec currentDepth tokenCount) as [?|_]; [lia|].
  assert (Hrest : tokens ≠ []).
  { intros ->. unfold len in Hcount. cbn in Hcount. lia. }
  destruct (chooseChild_createNode token) as (key & -> & Hkey).
  destruct (IH (currentDepth + 1) Hrest ltac:(lia)) as (node & leaf & Hins & Hfind & Hleaf).
  unfold mbind at 1, M_bind at 1. rewrite Hins.
  eexists _, leaf. split; [reflexivity|]. split; [|exact Hleaf].
  cbn [keyToChildNode createNode]. destruct Hkey as [->| ->].
  - now rewrite lookup_insert_eq.
  - rewrite lookup_insert. case_decide.
    + exact Hfind.
    + rewrite lookup_empty, getParamString_default, lookup_insert_eq. exact Hfind.
Qed.

(** The first line: a new cluster 1 of size 1. *)
Lemma Train_first (tokens : list string) (content : string) :
  SpaceTokenizer content = tokens →
  ∃ root,
    Train (mkDrain DefaultConfig_New createNode
             (mkClusterCache (Some (simplelru.mk MaxInt []))) 0) content
    = Ok (Cluster.mk tokens 1 1,
          mkDrain DefaultConfig_New root (cache_of_one (Cluster.mk tokens 1 1)) 1)
    ∧ knows root tokens.
Proof.
  intros Htok.
  assert (Hne : tokens ≠ []) by (rewrite <- Htok; apply Split_not_nil).
  assert (Hlen : len tokens ≠ 0).
  { unfold len. destruct tokens; [congruence | cbn; lia]. }
  destruct (addSeqToPrefixTree_loop_fresh (Cluster.mk tokens 1 1) tokens (len tokens)
              (cache_of_one (Cluster.mk tokens 1 1)) 1 Hne ltac:(lia))
    as (node & leaf & Hins & Hfind & Hleaf).
  exists (mkNode (<[Itoa (len tokens) := node]> ∅) []). split.
  - unfold Train. cbn [config rootNode idToCluster clustersCounter].
    change (Tokenizer DefaultConfig_New content) with (SpaceTokenizer content).
    rewrite Htok. unfold treeSearch at 1. cbn [keyToChildNode createNode].
    rewrite lookup_empty. cbn [mret M_ret mbind result_bind].
    change (incr 0) with 1.
    change (ClusterCache_Set 1 (Cluster.mk tokens 1 1)
              (mkClusterCache (Some (simplelru.mk MaxInt []))))
      with (Ok ((), cache_of_one (Cluster.mk tokens 1 1))).
    cbn [mbind result_bind]. unfold addSeqToPrefixTree.
    cbn [Cluster.tokens keyToChildNode createNode clusterIDs].
    rewrite lookup_empty. apply Z.eqb_neq in Hlen. rewrite Hlen.
    unfold mbind at 2, M_bind. rewrite Hins. reflexivity.
  - exists node, leaf. cbn [keyToChildNode]. rewrite lookup_insert_eq. auto.
Qed.

(** *** The same line again *)

Lemma ClusterCache_Get_one (tokens : list string) (k : Z) :
  ClusterCache_Get 1 (cache_of_one (Cluster.mk tokens 1 k))
  = Ok (Some (Cluster.mk tokens 1 k), cache_of_one (Cluster.mk tokens 1 k)).
Proof. reflexivity. Qed.

Lemma fastMatch_one (tokens : list string) (k : Z) :
  tokens ≠ [] →
  4 * len tokens ≤ 10 * (len tokens - stars tokens) →
  fastMatch DefaultConfig_New [1] tokens (4 # 10) false
    (cache_of_one (Cluster.mk tokens 1 k))
  = Ok (Some (Cluster.mk tokens 1 k), cache_of_one (Cluster.mk tokens 1 k)).
Proof.
  intros Hne Hth.
  assert (Hlen : 0 < len tokens).
  { unfold len. destruct tokens; [congruence | cbn; lia]. }
  destruct (spec_counts_self tokens) as [Hp Hs]. pose proof (stars_bounds tokens).
  unfold fastMatch. cbn [fastMatch_loop]. unfold mbind, M_bind.
  rewrite ClusterCache_Get_one. cbn [Cluster.tokens].
  rewrite getSeqDistance_counts by reflexivity. cbn [lift].
  unfold spec_similarity. rewrite Hs, Hp, Z.add_0_r.
  rewrite f_gt_minus_one by lia. cbn [orb mret M_ret].
  rewrite f_ge_threshold by lia. reflexivity.
Qed.

Lemma Train_again (tokens : list string) (content : string) (root : Node) (k : Z) :
  SpaceTokenizer content = tokens →
  knows root tokens →
  4 * len tokens ≤ 10 * (len tokens - stars tokens) →
  Train (mkDrain DefaultConfig_New root (cache_of_one (Cluster.mk tokens 1 k)) 1) content
  = Ok (Cluster.mk tokens 1 (incr k),
        mkDrain DefaultConfig_New root (cache_of_one (Cluster.mk tokens 1 (incr k))) 1).
Proof.
  intros Htok (node & leaf & Hnode & Hfind & Hleaf) Hth.
  assert (Hne : tokens ≠ []) by (rewrite <- Htok; apply Split_not_nil).
  assert (Hlen : len tokens ≠ 0).
  { unfold len. destruct tokens; [congruence | cbn; lia]. }
  unfold Train. cbn [config rootNode idToCluster clustersCounter].
  change (Tokenizer DefaultConfig_New content) with (SpaceTokenizer content).
  rewrite Htok. unfold treeSearch. rewrite Hnode.
  apply Z.eqb_neq in Hlen. rewrite Hlen, Hfind, Hleaf.
  change (SimTh DefaultConfig_New) with (4 # 10)%Q.
  rewrite fastMatch_one by assumption. cbn [mbind result_bind].
  unfold createTemplate. rewrite Z.eqb_refl. cbn [negb mbind result_bind Cluster.tokens].
  rewrite createTemplate_loop_self. reflexivity.
Qed.

Lemma train_lines_again (tokens : list string) (content : string) (root : Node) :
  SpaceTokenizer content = tokens →
  knows root tokens →
  4 * len tokens ≤ 10 * (len tokens - stars tokens) →
  ∀ (j : nat) (k : Z),
    0 ≤ k → k + Z.of_nat j < 2 ^ 63 →
    train_lines (mkDrain DefaultConfig_New root (cache_of_one (Cluster.mk tokens 1 k)) 1)
      (replicate j content)
    = Ok (mkDrain DefaultConfig_New root
            (cache_of_one (Cluster.mk tokens 1 (k + Z.of_nat j))) 1).
Proof.
  intros Htok Hroot Hth. induction j as [|j IH]; intros k Hk Hj.
  - cbn. now rewrite Z.add_0_r.
  - cbn [replicate train_lines]. rewrite (Train_again tokens) by assumption.
    cbn [mbind result_bind]. rewrite incr_small by lia.
    rewrite IH by lia.
    now replace (k + 1 + Z.of_nat j) with (k + Z.of_nat (S j)) by lia.
Qed.

(** C8, as amended: under the default configuration, a line trained
    [K] times, for [K] from 1 up to the range of an [int], leaves
    exactly one cluster, of size [K], whose template is the
    tokenization of the line, provided that at least four tenths of
    the tokens of the line are not the label [*] (which the similarity
    of the Train path does not count). *)
Theorem Train_same_line (L : string) (K : nat) :
  (1 ≤ K)%nat →
  Z.of_nat K < 2 ^ 63 →
  4 * len (SpaceTokenizer L)
  ≤ 10 * (len (SpaceTokenizer L) - stars (SpaceTokenizer L)) →
  returns (learner DefaultConfig (replicate K L)) (λ d,
    Clusters d = Ok [Cluster.mk (SpaceTokenizer L) 1 (Z.of_nat K)]).
Proof.
  intros HK Hint Hth. destruct K as [|K]; [lia|].
  unfold learner. rewrite New_DefaultConfig. cbn [mbind result_bind replicate train_lines].
  destruct (Train_first (SpaceTokenizer L) L eq_refl) as (root & -> & Hroot).
  cbn [mbind result_bind].
  rewrite (train_lines_again (SpaceTokenizer L)) by (auto; lia).
  cbn [returns]. replace (1 + Z.of_nat K) with (Z.of_nat (S K)) by lia.
  reflexivity.
Qed.

End Default.

(** * More properties of the code *)

(** ** Tokens and printing *)

Lemma Split_cons (c : ascii) (s : string) (sep : ascii) :
  Split (String c s) sep
  = if Ascii.eqb c sep then EmptyString :: Split s sep
    else match Split s sep with
         | h :: t => String c h :: t
         | [] => [String c EmptyString]
         end.
Proof. reflexivity. Qed.

Lemma Join_cons_cons (e e' : string) (elems : list string) (sep : string) :
  Join (e :: e' :: elems) sep = e +:+ sep +:+ Join (e' :: elems) sep.
Proof. reflexivity. Qed.

(** [strings.Join] undoes [strings.Split]: joining the pieces of a
    string with the separator gives the string back. *)
Lemma Join_Split (s : string) (sep : ascii) :
  Join (Split s sep) (String sep EmptyString) = s.
Proof.
  induction s as [|c s IH]; [reflexivity|].
  rewrite Split_cons. destruct (Ascii.eqb_spec c sep) as [->|Hne].
  - destruct (Split s sep) as [|h t] eqn:E; [now apply Split_not_nil in E|].
    rewrite Join_cons_cons, IH. reflexivity.
  - destruct (Split s sep) as [|h [|h' t]] eqn:E; [now apply Split_not_nil in E| |].
    + cbn in *. now rewrite IH.
    + rewrite Join_cons_cons in *. rewrite <- IH. reflexivity.
Qed.

Lemma Split_tokens_no_sep (s : string) (sep : ascii) :
  Forall (λ t, ¬ In sep (list_ascii_of_string t)) (Split s sep).
Proof.
  induction s as [|c s IH]; [repeat constructor; intros []|].
  rewrite Split_cons. destruct (Ascii.eqb_spec c sep) as [->|Hne].
  - constructor; [intros [] | exact IH].
  - destruct (Split s sep) as [|h t]; [repeat constructor; cbn; intuition|].
    inversion IH as [|? ? Hh Ht]; subst. constructor; [|exact Ht].
    cbn. intros [E|E]; [now apply Hne | now apply Hh].
Qed.

(** X1: The tokens of [SpaceTokenizer] contain no space, there is at least
    one of them, and joined with single spaces, as [String] prints a
    template, they are the line without the white space at its two
    ends: a cluster made of a line prints as that line, trimmed. *)
Theorem Cluster_String_of_line (content : string) (id size : Z) :
  SpaceTokenizer content ≠ []
  ∧ Forall (λ t, ¬ In " "%char (list_ascii_of_string t)) (SpaceTokenizer content)
  ∧ Cluster_String (Cluster.mk (SpaceTokenizer content) id size)
    = ("id={" +:+ Itoa id +:+ "} : size={" +:+ Itoa size +:+ "} : "
       +:+ TrimSpace content)%string.
Proof.
  split; [apply Split_not_nil|]. split; [apply Split_tokens_no_sep|].
  unfold Cluster_String, SpaceTokenizer. cbn [Cluster.tokens Cluster.id Cluster.size].
  now rewrite (Join_Split (TrimSpace content) " "%char).
Qed.

(** ** Similarity, template update and the scan of a bucket *)

Section MoreSimilarity.

Context {Regexp : Type} `{!Matcher Regexp} `{!Unicode}.

Lemma createTemplate_loop_again (cfg : Config Regexp) (source target : list string) :
  createTemplate_loop cfg source (createTemplate_loop cfg source target)
  = createTemplate_loop cfg source target.
Proof.
  revert target. induction source as [|s source IH]; intros [|t target]; cbn; auto.
  rewrite IH. f_equal.
  destruct (String.eqb_spec s t) as [->|Hne]; cbn.
  - now rewrite String.eqb_refl.
  - now destruct (String.eqb s (getParamString cfg s)) eqn:E;
      [apply String.eqb_eq in E; rewrite <- E|].
Qed.

(** The template update keeps the length of the template, and under
    one visiting order of the patterns it is idempotent.  (It panics
    exactly when the lengths differ.) *)
Lemma createTemplate_twice (cfg : Config Regexp) (source target : list string) :
  (length source ≠ length target →
   createTemplate cfg source target = Panic "source, target be of same length")
  ∧ (length source = length target →
     ∃ T', createTemplate cfg source target = Ok T'
           ∧ length T' = length target
           ∧ createTemplate cfg source T' = Ok T').
Proof.
  unfold createTemplate. split.
  - intros Hne. destruct (Z.eqb_spec (len source) (len target)) as [E|E]; [|reflexivity].
    now apply len_eq_length in E.
  - intros Hlen. exists (createTemplate_loop cfg source target).
    pose proof (createTemplate_loop_length cfg source target) as HT.
    assert (E1 : len source = len target) by now apply len_eq_length.
    assert (E2 : len source = len (createTemplate_loop cfg source target)).
    { apply len_eq_length. congruence. }
    rewrite <- E2, E1, Z.eqb_refl. cbn [negb].
    now rewrite createTemplate_loop_again.
Qed.

Lemma spec_counts_range (cfg : Config Regexp) (template tokens : list string) :
  0 ≤ spec_sim_tokens cfg template tokens
  ∧ 0 ≤ spec_param_count cfg template tokens
  ∧ spec_sim_tokens cfg template tokens + spec_param_count cfg template tokens
    ≤ len (zip template tokens).
Proof.
  unfold spec_sim_tokens, spec_param_count.
  pose proof (counts_full cfg (zip template tokens)) as [Hle _].
  pose proof (len_nonneg (List.filter (λ ts : string * string,
    negb (isParamString cfg ts.1) && String.eqb ts.1 ts.2) (zip template tokens))).
  pose proof (len_nonneg (List.filter (λ ts : string * string,
    isParamString cfg ts.1) (zip template tokens))).
  lia.
Qed.

Lemma f_div_range (a n : Z) :
  0 ≤ a ≤ n → 0 < n → ∃ q, f_div a n = Fin q ∧ (0 <= q)%Q ∧ (q <= 1)%Q.
Proof.
  intros Ha Hn. unfold f_div. destruct (Z.eqb_spec n 0); [lia|].
  eexists. split; [reflexivity|].
  destruct n as [|p|p]; try lia.
  unfold Qle, Qdiv, Qmult, Qinv, inject_Z. cbn. lia.
Qed.

(** X3: On two sequences of one length, not empty, the similarity is a
    number between 0 and 1 and the count of parameters lies between 0
    and the length, whether the parameters are included or not; on two
    sequences of different lengths the function panics. *)
Theorem getSeqDistance_range (cfg : Config Regexp) (seq1 seq2 : list string)
    (includeParams : bool) :
  (length seq1 ≠ length seq2 →
   getSeqDistance cfg seq1 seq2 includeParams = Panic "seq1 seq2 be of same length")
  ∧ (length seq1 = length seq2 → seq1 ≠ [] →
     ∃ q paramCount,
       getSeqDistance cfg seq1 seq2 includeParams = Ok (Fin q, paramCount)
       ∧ (0 <= q)%Q ∧ (q <= 1)%Q
       ∧ 0 ≤ paramCount ≤ len seq1).
Proof.
  split.
  - intros Hne. unfold getSeqDistance.
    destruct (Z.eqb_spec (len seq1) (len seq2)) as [E|E]; [|reflexivity].
    now apply len_eq_length in E.
  - intros Hlen Hne. rewrite getSeqDistance_counts by exact Hlen.
    destruct (spec_counts_range cfg seq1 seq2) as (Hs & Hp & Hsum).
    assert (Hz : len (zip seq1 seq2) = len seq1).
    { unfold len. rewrite length_zip_with. lia. }
    assert (Hpos : 0 < len seq1).
    { unfold len. destruct seq1; [congruence | cbn; lia]. }
    unfold spec_similarity.
    destruct (f_div_range
                (spec_sim_tokens cfg seq1 seq2
                 + (if includeParams then spec_param_count cfg seq1 seq2 else 0))
                (len seq1)) as (q & Hq & Hq0 & Hq1); [destruct includeParams; lia | lia |].
    exists q, (spec_param_count cfg seq1 seq2). rewrite Hq. repeat split; auto; lia.
Qed.

End MoreSimilarity.

Section Scan.

Context {Regexp : Type} `{!Matcher Regexp} `{!Unicode}.

Lemma no_better_refl (sim : float64) (pc : Z) : no_better sim pc sim pc.
Proof.
  split; [|lia]. destruct sim as [|q]; [reflexivity|]. cbn.
  apply negb_false_iff, Qle_bool_iff, Qle_refl.
Qed.

Lemma no_better_update (a : float64) (pa : Z) (m : float64) (pm : Z)
    (c : float64) (pc : Z) :
  f_gt c m || f_eq c m && (pm <? pc) = true →
  no_better a pa m pm → no_better a pa c pc.
Proof.
  intros Hup [Hgt Heq]. unfold no_better.
  destruct a as [|x]; [split; [reflexivity | discriminate]|].
  destruct c as [|z]; [discriminate|]. destruct m as [|y]; [discriminate|].
  cbn in *. apply negb_false_iff, Qle_bool_iff in Hgt.
  apply orb_true_iff in Hup as [Hup | [Hup Hpc]%andb_true_iff].
  - apply negb_true_iff in Hup.
    assert (Hlt : (y < z)%Q).
    { apply Qnot_le_lt. intros Hle. apply Qle_bool_iff in Hle. congruence. }
    split.
    + apply negb_false_iff, Qle_bool_iff. apply Qlt_le_weak.
      eapply Qle_lt_trans; eauto.
    + intros E%Qeq_bool_iff. exfalso. rewrite E in Hgt.
      eapply Qlt_not_le; eauto.
  - apply Qeq_bool_iff in Hup. apply Z.ltb_lt in Hpc. split.
    + apply negb_false_iff, Qle_bool_iff. now rewrite Hup.
    + intros E%Qeq_bool_iff. rewrite Hup in E.
      apply Qeq_bool_iff in E. specialize (Heq E). lia.
Qed.

Lemma no_better_keep (c : float64) (pc : Z) (m : float64) (pm : Z) :
  f_gt c m || f_eq c m && (pm <? pc) = false → no_better c pc m pm.
Proof.
  intros [Hgt Hrest]%orb_false_iff. split; [exact Hgt|].
  intros E. rewrite E in Hrest. cbn in Hrest. apply Z.ltb_ge in Hrest. lia.
Qed.

Lemma update_is_Fin (c m : float64) (pm pc : Z) :
  f_gt c m || f_eq c m && (pm <? pc) = true → ∃ q, c = Fin q.
Proof. destruct c as [|q]; [discriminate | eauto]. Qed.

(** The scan of a bucket: what it keeps, in terms of the cache [s0] it
    started from. *)
Lemma fastMatch_loop_best (cfg : Config Regexp) (clusterIDs : list Z)
    (tokens : list string) (includeParams : bool) (s0 : ClusterCache) :
  ∀ (maxSim : float64) (maxParamCount : Z) (maxCluster : option Cluster.t)
    (s s' : ClusterCache) (sim : float64) (best : option Cluster.t),
    (∀ k, cached k s = cached k s0) →
    (∃ m, maxSim = Fin m) →
    fastMatch_loop cfg clusterIDs tokens includeParams maxSim maxParamCount maxCluster s
    = Ok ((sim, best), s') →
    ∃ pc,
      (∃ m, sim = Fin m)
      ∧ (∀ a pa, no_better a pa maxSim maxParamCount → no_better a pa sim pc)
      ∧ (∀ id c0 sim0 pc0,
            id ∈ clusterIDs → cached id s0 = Some c0 →
            getSeqDistance cfg (Cluster.tokens c0) tokens includeParams = Ok (sim0, pc0) →
            no_better sim0 pc0 sim pc)
      ∧ ((best = maxCluster ∧ sim = maxSim ∧ pc = maxParamCount)
         ∨ ∃ id c, id ∈ clusterIDs ∧ best = Some c ∧ cached id s0 = Some c
                   ∧ getSeqDistance cfg (Cluster.tokens c) tokens includeParams
                     = Ok (sim, pc)).
Proof.
  induction clusterIDs as [|clusterID clusterIDs IH];
    intros maxSim maxParamCount maxCluster s s' sim best Hs Hfin; cbn [fastMatch_loop].
  - intros [= <- <- <-]. exists maxParamCount.
    split; [exact Hfin|]. split; [auto|]. split; [|now left].
    intros id c0 sim0 pc0 Hin. now apply elem_of_nil in Hin.
  - intros Hrun. apply bind_M_Ok in Hrun as (cluster & s1 & HG & Hrun).
    apply ClusterCache_Get_Ok in HG as [-> Hs1].
    assert (Hs1' : ∀ k, cached k s1 = cached k s0) by (intros k; now rewrite Hs1).
    rewrite Hs in Hrun.
    destruct (cached clusterID s0) as [cluster|] eqn:Hcl.
    + apply bind_M_Ok in Hrun as ([curSim paramCount] & s2 & HD & Hrun).
      apply lift_Ok in HD as [HD ->].
      destruct (f_gt curSim maxSim || f_eq curSim maxSim && (maxParamCount <? paramCount))
        eqn:Hup.
      * apply (IH _ _ _ _ _ _ _ Hs1' (update_is_Fin _ _ _ _ Hup)) in Hrun
          as (pc & Hfin' & Hmono & Hall & Hbest).
        exists pc. split; [exact Hfin'|]. split; [|split].
        -- intros a pa Ha. apply Hmono. eapply no_better_update; eauto.
        -- intros id c0 sim0 pc0 [->|Hin]%elem_of_cons Hc0 HD0.
           ++ rewrite Hcl in Hc0. injection Hc0 as <-. rewrite HD in HD0.
              injection HD0 as <- <-. apply Hmono, no_better_refl.
           ++ eapply Hall; eauto.
        -- right. destruct Hbest as [(-> & -> & ->) | (id & c & Hin & -> & Hc & HDc)].
           ++ exists clusterID, cluster. repeat split; auto. apply list_elem_of_here.
           ++ exists id, c. repeat split; auto. now apply list_elem_of_further.
      * apply (IH _ _ _ _ _ _ _ Hs1' Hfin) in Hrun as (pc & Hfin' & Hmono & Hall & Hbest).
        exists pc. split; [exact Hfin'|]. split; [exact Hmono|]. split.
        -- intros id c0 sim0 pc0 [->|Hin]%elem_of_cons Hc0 HD0.
           ++ rewrite Hcl in Hc0. injection Hc0 as <-. rewrite HD in HD0.
              injection HD0 as <- <-. apply Hmono. now apply no_better_keep.
           ++ eapply Hall; eauto.
        -- destruct Hbest as [Hsame | (id & c & Hin & -> & Hc & HDc)]; [now left|].
           right. exists id, c. repeat split; auto. now apply list_elem_of_further.
    + apply (IH _ _ _ _ _ _ _ Hs1' Hfin) in Hrun as (pc & Hfin' & Hmono & Hall & Hbest).
      exists pc. split; [exact Hfin'|]. split; [exact Hmono|]. split.
      * intros id c0 sim0 pc0 [->|Hin]%elem_of_cons Hc0 HD0; [congruence|].
        eapply Hall; eauto.
      * destruct Hbest as [Hsame | (id & c & Hin & -> & Hc & HDc)]; [now left|].
        right. exists id, c. repeat split; auto. now apply list_elem_of_further.
Qed.

Lemma getSeqDistance_Ok_nonneg (cfg : Config Regexp) (seq1 seq2 : list string)
    (includeParams : bool) (q : Q) (paramCount : Z) :
  getSeqDistance cfg seq1 seq2 includeParams = Ok (Fin q, paramCount) → (0 <= q)%Q.
Proof.
  intros HD.
  assert (Hlen : length seq1 = length seq2).
  { unfold getSeqDistance in HD.
    destruct (Z.eqb_spec (len seq1) (len seq2)) as [E|E]; [|discriminate].
    now apply len_eq_length in E. }
  rewrite getSeqDistance_counts in HD by exact Hlen. injection HD as HD _.
  destruct (spec_counts_range cfg seq1 seq2) as (Hs & Hp & _).
  unfold spec_similarity, f_div in HD.
  destruct (len seq1 =? 0); [discriminate|]. injection HD as <-.
  pose proof (len_nonneg seq1) as Hn.
  destruct (len seq1) as [|p|p]; try lia.
  - unfold Qle, Qdiv, Qmult, Qinv, inject_Z. cbn. lia.
  - unfold Qle, Qdiv, Qmult, Qinv, inject_Z. cbn. destruct includeParams; lia.
Qed.

Lemma fastMatch_cached (cfg : Config Regexp) (clusterIDs : list Z)
    (tokens : list string) (simTh : Q) (includeParams : bool)
    (s s' : ClusterCache) (r : option Cluster.t) :
  fastMatch cfg clusterIDs tokens simTh includeParams s = Ok (r, s') →
  ∀ k, cached k s' = cached k s.
Proof.
  unfold fastMatch. intros Hrun.
  apply bind_M_Ok in Hrun as ([maxSim maxCluster] & s1 & Hloop & [= _ <-]).
  now apply (fastMatch_loop_candidate _ _ _ _ s) in Hloop as [Hc _]; [|auto|intros ? [=]].
Qed.

(** X4: [fastMatch] returns a best candidate or none: a cluster it returns
    is a record the cache holds under an id of the bucket, its
    similarity reaches the threshold, and no record the cache holds
    under an id of the bucket beats it (none has a greater similarity,
    none with the same similarity has more parameters); when it returns
    none, no such record reaches the threshold. *)
Theorem fastMatch_best (cfg : Config Regexp) (clusterIDs : list Z)
    (tokens : list string) (simTh : Q) (includeParams : bool)
    (s s' : ClusterCache) (r : option Cluster.t) :
  fastMatch cfg clusterIDs tokens simTh includeParams s = Ok (r, s') →
  match r with
  | Some c =>
      ∃ id sim pc,
        id ∈ clusterIDs ∧ cached id s = Some c
        ∧ getSeqDistance cfg (Cluster.tokens c) tokens includeParams = Ok (sim, pc)
        ∧ f_ge sim (Fin simTh) = true
        ∧ ∀ id0 c0 sim0 pc0,
            id0 ∈ clusterIDs → cached id0 s = Some c0 →
            getSeqDistance cfg (Cluster.tokens c0) tokens includeParams = Ok (sim0, pc0) →
            no_better sim0 pc0 sim pc
  | None =>
      ∀ id0 c0 sim0 pc0,
        id0 ∈ clusterIDs → cached id0 s = Some c0 →
        getSeqDistance cfg (Cluster.tokens c0) tokens includeParams = Ok (sim0, pc0) →
        f_ge sim0 (Fin simTh) = false
  end.
Proof.
  unfold fastMatch. intros Hrun.
  apply bind_M_Ok in Hrun as ([maxSim maxCluster] & s1 & Hloop & Hret).
  apply (fastMatch_loop_best _ _ _ _ s) in Hloop
    as (pc & [m ->] & _ & Hall & Hbest); [|auto|eauto].
  unfold mret, M_ret in Hret. destruct (f_ge (Fin m) (Fin simTh)) eqn:Hge.
  - injection Hret as <- <-.
    destruct Hbest as [(-> & [= ->] & ->) | (id & c & Hin & -> & Hc & HDc)].
    + intros id0 c0 sim0 pc0 Hin Hc0 HD0.
      destruct (Hall _ _ _ _ Hin Hc0 HD0) as [Hgt _].
      destruct sim0 as [|x]; [reflexivity|].
      apply getSeqDistance_Ok_nonneg in HD0.
      cbn in Hgt. apply negb_false_iff, Qle_bool_iff in Hgt.
      exfalso. apply (Qlt_not_le (-1) 0); [reflexivity|].
      eapply Qle_trans; eauto.
    + exists id, (Fin m), pc. repeat split; auto; eapply Hall; eauto.
  - injection Hret as <- <-.
    intros id0 c0 sim0 pc0 Hin Hc0 HD0.
    destruct (Hall _ _ _ _ Hin Hc0 HD0) as [Hgt _].
    destruct sim0 as [|x]; [reflexivity|].
    cbn in Hgt, Hge |- *. apply negb_false_iff, Qle_bool_iff in Hgt.
    destruct (Qle_bool simTh x) eqn:Hx; [|reflexivity].
    apply Qle_bool_iff in Hx.
    assert (Hm : Qle_bool simTh m = true) by (apply Qle_bool_iff; eapply Qle_trans; eauto).
    congruence.
Qed.

End Scan.

(** ** Insertion and search *)

Section InsertSearch.

Context {Regexp : Type} `{!Matcher Regexp} `{!Unicode}.

(** The child an insertion goes to is the child of the token, or, when
    the token has no child, the child of its label. *)
Lemma chooseChild_key (cfg : Config Regexp) (curNode : Node) (token : string) :
  branch_key (chooseChild cfg curNode token) = token
  ∨ (branch_key (chooseChild cfg curNode token) = getParamString cfg token
     ∧ keyToChildNode curNode !! token = None).
Proof.
  unfold chooseChild.
  destruct (keyToChildNode curNode !! token); [now left|].
  destruct (hasNumbers token); cbn [negb];
    destruct (keyToChildNode curNode !! getParamString cfg token);
    repeat match goal with |- context [if ?b then _ else _] => destruct b end;
    cbn; auto.
Qed.

Lemma treeSearch_loop_step (cfg : Config Regexp) (curNode child : Node)
    (key token : string) (tokens : list string) (ids : list Z)
    (curNodeDepth tokenCount : Z) :
  (maxNodeDepth cfg <=? curNodeDepth) = false →
  (curNodeDepth =? tokenCount) = false →
  key = token ∨ (key = getParamString cfg token ∧ keyToChildNode curNode !! token = None) →
  treeSearch_loop cfg (mkNode (<[key := child]> (keyToChildNode curNode)) ids)
    (token :: tokens) curNodeDepth tokenCount
  = treeSearch_loop cfg child tokens (curNodeDepth + 1) tokenCount.
Proof.
  intros Hd Hn Hkey. cbn [treeSearch_loop keyToChildNode]. rewrite Hd, Hn.
  destruct Hkey as [->|[-> Hnone]].
  - now rewrite lookup_insert_eq.
  - rewrite lookup_insert. case_decide; [reflexivity|].
    now rewrite Hnone, lookup_insert_eq.
Qed.

Lemma addSeqToPrefixTree_loop_found (cfg : Config Regexp) (cluster : Cluster.t)
    (tokens : list string) (tokenCount : Z) :
  ∀ (curNode : Node) (currentDepth : Z) (s s' : ClusterCache) (node' : Node),
    tokens ≠ [] →
    tokenCount = currentDepth + len tokens - 1 →
    addSeqToPrefixTree_loop cfg cluster curNode tokens currentDepth tokenCount s
    = Ok (node', s') →
    ∃ leaf ids,
      treeSearch_loop cfg node' tokens currentDepth tokenCount = Some leaf
      ∧ clusterIDs leaf = ids ++ [Cluster.id cluster].
Proof.
  induction tokens as [|token tokens IH];
    intros curNode currentDepth s s' node' Hne Hcount; [congruence|].
  rewrite len_cons in Hcount. pose proof (len_nonneg tokens) as Hlen.
  cbn [addSeqToPrefixTree_loop].
  destruct (Z.leb_spec (maxNodeDepth cfg) currentDepth) as [Hdeep|Hshallow]; cbn [orb].
  { intros Hrun. apply bind_M_Ok in Hrun as (ids & s1 & _ & [= <- <-]).
    eexists _, ids. cbn [treeSearch_loop].
    destruct (Z.leb_spec (maxNodeDepth cfg) currentDepth); [|lia]. auto. }
  destruct (Z.leb_spec tokenCount currentDepth) as [Hlast|Hmore].
  { intros Hrun. apply bind_M_Ok in Hrun as (ids & s1 & _ & [= <- <-]).
    eexists _, ids. cbn [treeSearch_loop].
    destruct (Z.leb_spec (maxNodeDepth cfg) currentDepth); [lia|].
    destruct (Z.eqb_spec currentDepth tokenCount); [|lia]. auto. }
  assert (Hrest : tokens ≠ []).
  { intros ->. unfold len in Hcount. cbn in Hcount. lia. }
  assert (Hd : (maxNodeDepth cfg <=? currentDepth) = false) by now apply Z.leb_gt.
  assert (Hn : (currentDepth =? tokenCount) = false) by (apply Z.eqb_neq; lia).
  pose proof (chooseChild_key cfg curNode token) as Hkey.
  destruct (chooseChild cfg curNode token) as [key|key]; cbn [branch_key] in Hkey.
  - intros Hrun. apply bind_M_Ok in Hrun as (newNode & s1 & Hloop & [= <- <-]).
    apply IH in Hloop as (leaf & ids & Hfind & Hleaf); [|exact Hrest|lia].
    exists leaf, ids. split; [|exact Hleaf].
    rewrite treeSearch_loop_step; auto.
  - destruct (keyToChildNode curNode !! key) as [child|] eqn:Hchild.
    + intros Hrun. apply bind_M_Ok in Hrun as (child' & s1 & Hloop & [= <- <-]).
      apply IH in Hloop as (leaf & ids & Hfind & Hleaf); [|exact Hrest|lia].
      exists leaf, ids. split; [|exact Hleaf].
      rewrite treeSearch_loop_step; auto.
    + destruct tokens; [congruence | discriminate].
Qed.

(** After a cluster is inserted, the search of the tokens of its
    template, when it visits the patterns in the order of the
    insertion, stops at a node whose bucket ends with the id of the
    cluster. *)
Lemma addSeqToPrefixTree_leaf_of (cfg : Config Regexp) (root root' : Node)
    (cluster : Cluster.t) (s s' : ClusterCache) :
  addSeqToPrefixTree cfg root cluster s = Ok (root', s') →
  ∃ leaf ids,
    leaf_of cfg root' (Cluster.tokens cluster) = Some leaf
    ∧ clusterIDs leaf = ids ++ [Cluster.id cluster].
Proof.
  unfold addSeqToPrefixTree, leaf_of.
  destruct (Z.eqb_spec (len (Cluster.tokens cluster)) 0) as [H0|H0].
  - intros [= <- <-]. cbn [keyToChildNode]. rewrite lookup_insert_eq. eauto.
  - intros Hrun. apply bind_M_Ok in Hrun as (first' & s1 & Hloop & [= <- <-]).
    cbn [keyToChildNode]. rewrite lookup_insert_eq.
    apply addSeqToPrefixTree_loop_found in Hloop; [exact Hloop| |lia].
    intros E. rewrite E in H0. now apply H0.
Qed.

End InsertSearch.

(** ** What [Match] leaves alone *)

Section Frame.

Context {Regexp : Type} `{!Matcher Regexp} `{!Unicode}.

Lemma treeSearch_leaf_of (cfg : Config Regexp) (root : Node) (tokens : list string)
    (simTh : Q) (includeParams : bool) :
  treeSearch cfg root tokens simTh includeParams
  = match leaf_of cfg root tokens with
    | None => mret None
    | Some leaf =>
        if len tokens =? 0 then
          match clusterIDs leaf with
          | [] => lift index_out_of_range
          | clusterID :: _ => ClusterCache_Get clusterID
          end
        else fastMatch cfg (clusterIDs leaf) tokens simTh includeParams
    end.
Proof.
  unfold treeSearch, leaf_of.
  destruct (keyToChildNode root !! Itoa (len tokens)); [|reflexivity].
  destruct (len tokens =? 0) eqn:E; [reflexivity|].
  destruct (treeSearch_loop cfg n tokens 1 (len tokens)); reflexivity.
Qed.

Lemma fastMatch_result_cached (cfg : Config Regexp) (clusterIDs : list Z)
    (tokens : list string) (simTh : Q) (includeParams : bool)
    (s s' : ClusterCache) (c : Cluster.t) :
  fastMatch cfg clusterIDs tokens simTh includeParams s = Ok (Some c, s') →
  ∃ key, cached key s = Some c.
Proof.
  unfold fastMatch. intros Hrun.
  apply bind_M_Ok in Hrun as ([maxSim maxCluster] & s1 & Hloop & Hret).
  apply (fastMatch_loop_candidate _ _ _ _ s) in Hloop as [_ Hc]; [|auto|intros ? [=]].
  unfold mret, M_ret in Hret. destruct (f_ge maxSim (Fin simTh)); [|discriminate].
  injection Hret as -> _. destruct (Hc c eq_refl) as (pc & key & _ & Hkey). eauto.
Qed.

Lemma treeSearch_cached (cfg : Config Regexp) (root : Node) (tokens : list string)
    (simTh : Q) (includeParams : bool) (s s' : ClusterCache) (r : option Cluster.t) :
  treeSearch cfg root tokens simTh includeParams s = Ok (r, s') →
  (∀ k, cached k s' = cached k s)
  ∧ (∀ c, r = Some c → ∃ key, cached key s = Some c).
Proof.
  rewrite treeSearch_leaf_of.
  destruct (leaf_of cfg root tokens) as [leaf|].
  - destruct (len tokens =? 0).
    + destruct (clusterIDs leaf) as [|clusterID ?].
      * intros Hrun. apply lift_Ok in Hrun as [? _]. discriminate.
      * intros HG. apply ClusterCache_Get_Ok in HG as [-> Hk].
        split; [exact Hk | eauto].
    + intros Hrun. split; [eapply fastMatch_cached; eauto|].
      intros c ->. eapply fastMatch_result_cached; eauto.
  - intros [= <- <-]. split; [auto | discriminate].
Qed.

(** X6: [Match] changes neither the configuration, nor the tree, nor the
    counter of clusters, nor what the cache holds under any key: it
    creates, rewrites and evicts no cluster.  The cluster it returns is
    one of the records of the cache. *)
Theorem Match_frame (d : Drain Regexp) (content : string)
    (r : option Cluster.t) (d' : Drain Regexp) :
  Match d content = Ok (r, d') →
  config d' = config d
  ∧ rootNode d' = rootNode d
  ∧ clustersCounter d' = clustersCounter d
  ∧ (∀ key, cached key (idToCluster d') = cached key (idToCluster d))
  ∧ (∀ c, r = Some c → ∃ key, cached key (idToCluster d') = Some c).
Proof.
  unfold Match.
  destruct (treeSearch _ _ _ _ _ _) as [[r0 cache1]|] eqn:Hsearch; cbn; [|discriminate].
  intros [= <- <-]. cbn.
  apply treeSearch_cached in Hsearch as [Hk Hr].
  repeat split; auto.
  intros c Hc. destruct (Hr c Hc) as [key Hkey]. exists key. now rewrite Hk.
Qed.

End Frame.

(** ** Lookups in the cache *)

Section Gets.

Context {Regexp : Type} `{!Matcher Regexp} `{!Unicode}.

Lemma fastMatch_loop_keeps (K : ClusterCache → Prop) (cfg : Config Regexp)
    (clusterIDs : list Z) (tokens : list string) (includeParams : bool) :
  kept_by_Get K →
  ∀ maxSim maxParamCount maxCluster s r s',
    fastMatch_loop cfg clusterIDs tokens includeParams maxSim maxParamCount maxCluster s
    = Ok (r, s') →
    K s → K s'.
Proof.
  intros HQ. induction clusterIDs as [|clusterID clusterIDs IH];
    intros maxSim maxParamCount maxCluster s r s'; cbn [fastMatch_loop].
  - now intros [= <- <-].
  - intros Hrun Hs. apply bind_M_Ok in Hrun as (cluster & s1 & HG & Hrun).
    assert (Hs1 : K s1) by (eapply HQ; eauto).
    destruct cluster as [cluster|]; [|eapply IH; eauto].
    apply bind_M_Ok in Hrun as ([curSim paramCount] & s2 & HD & Hrun).
    apply lift_Ok in HD as [_ ->].
    destruct (f_gt curSim maxSim || f_eq curSim maxSim && (maxParamCount <? paramCount));
      eapply IH; eauto.
Qed.

Lemma treeSearch_keeps (K : ClusterCache → Prop) (cfg : Config Regexp) (root : Node)
    (tokens : list string) (simTh : Q) (includeParams : bool)
    (s s' : ClusterCache) (r : option Cluster.t) :
  kept_by_Get K →
  treeSearch cfg root tokens simTh includeParams s = Ok (r, s') → K s → K s'.
Proof.
  intros HQ. rewrite treeSearch_leaf_of.
  destruct (leaf_of cfg root tokens) as [leaf|]; [|now intros [= <- <-]].
  destruct (len tokens =? 0).
  - destruct (clusterIDs leaf) as [|clusterID ?]; [|apply HQ].
    intros Hrun. apply lift_Ok in Hrun as [? _]. discriminate.
  - unfold fastMatch. intros Hrun.
    apply bind_M_Ok in Hrun as ([maxSim maxCluster] & s1 & Hloop & [= _ <-]).
    eapply fastMatch_loop_keeps; eauto.
Qed.

Lemma liveClusterIDs_keeps (K : ClusterCache → Prop) (clusterIDs : list Z) :
  kept_by_Get K →
  ∀ s ids s', liveClusterIDs clusterIDs s = Ok (ids, s') →
    (K s → K s') ∧ ids ⊆ clusterIDs.
Proof.
  intros HQ. induction clusterIDs as [|clusterID clusterIDs IH]; intros s ids s';
    cbn [liveClusterIDs].
  - intros [= <- <-]. split; [auto | reflexivity].
  - intros Hrun. apply bind_M_Ok in Hrun as (cluster & s1 & HG & Hrun).
    apply bind_M_Ok in Hrun as (newClusterIDs & s2 & Hrec & [= <- <-]).
    apply IH in Hrec as [Hrec Hsub]. split.
    + intros Hs. apply Hrec. eapply HQ; eauto.
    + destruct cluster; intros x Hx.
      * apply elem_of_cons in Hx as [->|Hx]; [apply list_elem_of_here|].
        apply list_elem_of_further, Hsub, Hx.
      * apply list_elem_of_further, Hsub, Hx.
Qed.

Lemma addSeqToPrefixTree_loop_keeps (K : ClusterCache → Prop) (cfg : Config Regexp)
    (cluster : Cluster.t) (tokens : list string) (tokenCount : Z) :
  kept_by_Get K →
  ∀ curNode currentDepth s node' s',
    addSeqToPrefixTree_loop cfg cluster curNode tokens currentDepth tokenCount s
    = Ok (node', s') →
    K s → K s'.
Proof.
  intros HQ. induction tokens as [|token tokens IH]; intros curNode currentDepth s node' s';
    cbn [addSeqToPrefixTree_loop].
  - now intros [= <- <-].
  - destruct ((maxNodeDepth cfg <=? currentDepth) || (tokenCount <=? currentDepth)).
    + intros Hrun. apply bind_M_Ok in Hrun as (ids & s1 & Hlive & [= <- <-]).
      now apply (liveClusterIDs_keeps K) in Hlive as [Hlive _].
    + destruct (chooseChild cfg curNode token) as [key|key].
      * intros Hrun. apply bind_M_Ok in Hrun as (newNode & s1 & Hloop & [= <- <-]).
        eapply IH; eauto.
      * destruct (keyToChildNode curNode !! key) as [child|].
        -- intros Hrun. apply bind_M_Ok in Hrun as (child' & s1 & Hloop & [= <- <-]).
           eapply IH; eauto.
        -- destruct tokens; [now intros [= <- <-] | discriminate].
Qed.

Lemma addSeqToPrefixTree_keeps (K : ClusterCache → Prop) (cfg : Config Regexp)
    (root root' : Node) (cluster : Cluster.t) (s s' : ClusterCache) :
  kept_by_Get K →
  addSeqToPrefixTree cfg root cluster s = Ok (root', s') → K s → K s'.
Proof.
  intros HQ. unfold addSeqToPrefixTree.
  destruct (len (Cluster.tokens cluster) =? 0); [now intros [= <- <-]|].
  intros Hrun. apply bind_M_Ok in Hrun as (first' & s1 & Hloop & [= <- <-]).
  eapply addSeqToPrefixTree_loop_keeps; eauto.
Qed.

(** *** What [Get] keeps *)

Lemma kept_cached (s0 : ClusterCache) :
  kept_by_Get (λ s, ∀ k, cached k s = cached k s0).
Proof.
  intros key s v s' HG Hs k. apply ClusterCache_Get_Ok in HG as [_ Hk].
  now rewrite Hk.
Qed.

Lemma kept_some : kept_by_Get (λ s, cache s ≠ None).
Proof.
  intros key s v s'. unfold ClusterCache_Get.
  destruct (cache s); [|discriminate].
  destruct (simplelru.Get key l). intros [= _ <-]. discriminate.
Qed.

Lemma Get_evictList (key : Z) (l : simplelru.LRU) :
  simplelru.size (simplelru.Get key l).2 = simplelru.size l
  ∧ (simplelru.evictList (simplelru.Get key l).2 = simplelru.evictList l
     ∨ ∃ v, (key, v) ∈ simplelru.evictList l
            ∧ simplelru.evictList (simplelru.Get key l).2
              = (key, v) :: simplelru.without key (simplelru.evictList l)).
Proof.
  unfold simplelru.Get, simplelru.Peek.
  destruct (List.find _ _) as [[k v]|] eqn:Hfind; cbn; [|auto].
  split; [reflexivity|]. right. exists v. split; [|reflexivity].
  apply find_some in Hfind as [Hin Hk]. cbn in Hk. apply Z.eqb_eq in Hk as ->.
  now apply list_elem_of_In.
Qed.

Lemma sublist_map {A B : Type} (f : A → B) (l1 l2 : list A) :
  l1 `sublist_of` l2 → map f l1 `sublist_of` map f l2.
Proof. induction 1; cbn; now constructor. Qed.

Lemma sublist_Forall {A : Type} (P : A → Prop) (l1 l2 : list A) :
  l1 `sublist_of` l2 → Forall P l2 → Forall P l1.
Proof.
  intros Hsub%sublist_subseteq. rewrite !Forall_forall. intros Hall x Hx.
  apply Hall, Hsub, Hx.
Qed.

Lemma without_sublist (key : Z) (l : list (Z * Cluster.t)) :
  simplelru.without key l `sublist_of` l.
Proof.
  unfold simplelru.without. induction l as [|[k v] l IH]; cbn; [constructor|].
  destruct (negb (k =? key)); now constructor.
Qed.

Lemma without_not_key (key : Z) (l : list (Z * Cluster.t)) :
  key ∉ map fst (simplelru.without key l).
Proof.
  unfold simplelru.without. induction l as [|[k v] l IH]; cbn; [apply not_elem_of_nil|].
  destruct (Z.eqb_spec k key); cbn; [exact IH|].
  rewrite not_elem_of_cons. auto.
Qed.

Lemma kept_cache_ok (counter : Z) : kept_by_Get (cache_ok counter).
Proof.
  intros key s v s'. unfold ClusterCache_Get, cache_ok.
  destruct (cache s) as [l|]; [|discriminate].
  destruct (simplelru.Get key l) as [v0 l'] eqn:HG. intros [= _ <-] Hok l0 [= <-].
  destruct (Hok l eq_refl) as (Hsize & Hnodup & Hall).
  destruct (Get_evictList key l) as [Hsz Hl]. rewrite HG in Hsz, Hl. cbn in Hsz, Hl.
  rewrite Hsz. split; [exact Hsize|].
  destruct Hl as [-> | (w & Hin & ->)]; [auto|].
  pose proof (without_sublist key (simplelru.evictList l)) as Hsub. split.
  - cbn. constructor; [apply without_not_key|].
    eapply sublist_NoDup; [exact Hnodup|]. now apply sublist_map.
  - constructor.
    + rewrite Forall_forall in Hall. exact (Hall _ Hin).
    + eapply sublist_Forall; eauto.
Qed.

Lemma without_len (key : Z) (l : list (Z * Cluster.t)) :
  len (simplelru.without key l) + (if simplelru.has key l then 1 else 0) ≤ len l.
Proof.
  unfold simplelru.without, simplelru.has, len.
  induction l as [|[k x] l IH]; cbn; [lia|].
  destruct (k =? key); cbn.
  - pose proof (List.filter_length_le (λ e : Z * Cluster.t, negb (e.1 =? key)) l). lia.
  - destruct (existsb _ l); lia.
Qed.

Lemma elem_has (key : Z) (v : Cluster.t) (l : list (Z * Cluster.t)) :
  (key, v) ∈ l → simplelru.has key l = true.
Proof.
  intros Hin. unfold simplelru.has. apply existsb_exists.
  exists (key, v). split; [now apply list_elem_of_In | apply Z.eqb_refl].
Qed.

Lemma kept_cache_capped (cap : Z) : kept_by_Get (cache_capped cap).
Proof.
  intros key s v s'. unfold ClusterCache_Get, cache_capped.
  destruct (cache s) as [l|]; [|discriminate].
  destruct (simplelru.Get key l) as [v0 l'] eqn:HG. intros [= _ <-] Hok l0 [= <-].
  destruct (Hok l eq_refl) as [Hcap Hlen].
  destruct (Get_evictList key l) as [Hsz Hl]. rewrite HG in Hsz, Hl. cbn in Hsz, Hl.
  rewrite Hsz. split; [exact Hcap|].
  destruct Hl as [-> | (w & Hin & ->)]; [auto|].
  rewrite len_cons.
  pose proof (without_len key (simplelru.evictList l)) as Hw.
  rewrite (elem_has _ _ _ Hin) in Hw. lia.
Qed.

End Gets.

(** ** Writes to the cache *)

Section Writes.

Context {Regexp : Type} `{!Matcher Regexp} `{!Unicode}.

Lemma removelast_sublist {A : Type} (l : list A) : removelast l `sublist_of` l.
Proof.
  induction l as [|a [|b l] IH]; cbn; [constructor | repeat constructor|].
  now constructor.
Qed.

(** Under keys that occur once, what [find] finds is any entry of the
    key. *)
Lemma find_key (l : list (Z * Cluster.t)) (k : Z) (c : Cluster.t) :
  NoDup (map fst l) → (k, c) ∈ l →
  List.find (λ e, e.1 =? k) l = Some (k, c).
Proof.
  induction l as [|[k0 c0] l IH]; cbn; intros Hnd Hin; [now apply elem_of_nil in Hin|].
  apply NoDup_cons in Hnd as [Hk0 Hnd].
  apply elem_of_cons in Hin as [[= <- <-]|Hin]; [now rewrite Z.eqb_refl|].
  destruct (Z.eqb_spec k0 k) as [->|_]; [|auto].
  exfalso. apply Hk0. apply list_elem_of_In, in_map_iff. exists (k, c).
  split; [reflexivity | now apply list_elem_of_In].
Qed.

Lemma cached_elem (s : ClusterCache) (k : Z) (c : Cluster.t) :
  cached k s = Some c →
  ∃ l, cache s = Some l ∧ (k, c) ∈ simplelru.evictList l.
Proof.
  unfold cached, simplelru.Peek. destruct (cache s) as [l|]; [|discriminate]. cbn.
  destruct (List.find _ _) as [[k0 c0]|] eqn:Hfind; [|discriminate]. cbn.
  intros [= ->]. exists l. split; [reflexivity|].
  apply find_some in Hfind as [Hin Hk]. cbn in Hk. apply Z.eqb_eq in Hk as ->.
  now apply list_elem_of_In.
Qed.

Lemma elem_cached (counter : Z) (s : ClusterCache) (l : simplelru.LRU)
    (k : Z) (c : Cluster.t) :
  cache_ok counter s → cache s = Some l → (k, c) ∈ simplelru.evictList l →
  cached k s = Some c.
Proof.
  intros Hok Hl Hin. destruct (Hok l Hl) as (_ & Hnd & _).
  unfold cached, simplelru.Peek. rewrite Hl. cbn. now rewrite (find_key _ k c).
Qed.

(** A record of a good cache sits under its own id, which was given
    out. *)
Lemma cache_ok_cached (counter : Z) (s : ClusterCache) (k : Z) (c : Cluster.t) :
  cache_ok counter s → cached k s = Some c →
  Cluster.id c = k ∧ 1 ≤ k ≤ counter.
Proof.
  intros Hok (l & Hl & Hin)%cached_elem. destruct (Hok l Hl) as (_ & _ & Hall).
  rewrite Forall_forall in Hall. exact (Hall _ Hin).
Qed.

Lemma has_false (counter key : Z) (l : list (Z * Cluster.t)) :
  Forall (λ e : Z * Cluster.t, Cluster.id e.2 = e.1 ∧ 1 ≤ e.1 ≤ counter) l →
  counter < key → simplelru.has key l = false ∧ key ∉ map fst l.
Proof.
  unfold simplelru.has. induction 1 as [|[k c] l [_ Hk] _ IH]; intros Hkey; cbn.
  - split; [reflexivity | apply not_elem_of_nil].
  - cbn in Hk. destruct (IH Hkey) as [-> Hnot].
    destruct (Z.eqb_spec k key); [lia|]. split; [reflexivity|].
    rewrite not_elem_of_cons. auto.
Qed.

(** [Set] under the next id. *)
Lemma ClusterCache_Set_next (counter : Z) (c : Cluster.t) (s s' : ClusterCache) :
  cache_ok counter s → 0 ≤ counter → Cluster.id c = counter + 1 →
  ClusterCache_Set (counter + 1) c s = Ok ((), s') →
  cache_ok (counter + 1) s'
  ∧ cache s' ≠ None
  ∧ cached (counter + 1) s' = Some c
  ∧ ∀ k c0, cached k s' = Some c0 →
      (k = counter + 1 ∧ c0 = c) ∨ (k ≠ counter + 1 ∧ cached k s = Some c0).
Proof.
  intros Hok Hcounter Hid. unfold ClusterCache_Set.
  destruct (cache s) as [l|] eqn:Hl; [|discriminate]. intros [= <-].
  destruct (Hok l Hl) as (Hsize & Hnd & Hall).
  destruct (has_false counter (counter + 1) _ Hall ltac:(lia)) as [Hhas Hfresh].
  unfold simplelru.Add. rewrite Hhas.
  set (l1 := (counter + 1, c) :: simplelru.evictList l).
  assert (Hall1 : Forall (λ e : Z * Cluster.t,
                    Cluster.id e.2 = e.1 ∧ 1 ≤ e.1 ≤ counter + 1) l1).
  { constructor; [cbn; lia|]. eapply Forall_impl; [exact Hall|]. cbn. intros ? [? ?].
    split; [auto | lia]. }
  assert (Hnd1 : NoDup (map fst l1)) by (cbn; now constructor).
  assert (Hsub : ∃ l2, (if simplelru.size l <? len l1
                        then simplelru.mk (simplelru.size l) (removelast l1)
                        else simplelru.mk (simplelru.size l) l1)
                       = simplelru.mk (simplelru.size l) l2
                       ∧ l2 `sublist_of` l1 ∧ (counter + 1, c) ∈ l2).
  { destruct (Z.ltb_spec (simplelru.size l) (len l1)) as [Hlt|_].
    - exists (removelast l1). split; [reflexivity|]. split; [apply removelast_sublist|].
      subst l1. rewrite len_cons in Hlt.
      destruct (simplelru.evictList l) as [|e l0]; [unfold len in Hlt; cbn in Hlt; lia|].
      cbn. apply list_elem_of_here.
    - exists l1. split; [reflexivity|]. split; [reflexivity | apply list_elem_of_here]. }
  destruct Hsub as (l2 & -> & Hsub & Hin).
  assert (Hok' : cache_ok (counter + 1)
                   (mkClusterCache (Some (simplelru.mk (simplelru.size l) l2)))).
  { intros l0 [= <-]. cbn. split; [exact Hsize|]. split.
    - eapply sublist_NoDup; [exact Hnd1 | now apply sublist_map].
    - eapply sublist_Forall; eauto. }
  split; [exact Hok'|]. split; [discriminate|]. split.
  - eapply elem_cached; eauto.
  - intros k c0 (l0 & [= <-] & Hin0)%cached_elem. cbn in Hin0.
    apply sublist_subseteq in Hsub. apply Hsub in Hin0.
    apply elem_of_cons in Hin0 as [[= -> ->]|Hin0]; [now left|].
    right. split.
    + intros ->. apply Hfresh. apply list_elem_of_In, in_map_iff.
      exists (counter + 1, c0). split; [reflexivity | now apply list_elem_of_In].
    + eapply elem_cached; eauto.
Qed.

(** Writing a record back under its id. *)
Lemma cached_store (m' : Cluster.t) (s : ClusterCache) (k : Z) :
  cached k (ClusterCache_store m' s)
  = if k =? Cluster.id m' then
      match cached k s with
      | Some _ => Some m'
      | None => None
      end
    else cached k s.
Proof.
  unfold cached, ClusterCache_store, simplelru.Peek.
  destruct (cache s) as [l|]; cbn; [|now destruct (k =? Cluster.id m')].
  induction (simplelru.evictList l) as [|[k0 c0] l0 IH]; cbn;
    [now destruct (k =? Cluster.id m')|].
  destruct (Z.eqb_spec k0 (Cluster.id m')) as [->|Hk0]; cbn.
  - destruct (Z.eqb_spec (Cluster.id m') k) as [<-|Hne]; cbn.
    + now rewrite Z.eqb_refl.
    + exact IH.
  - destruct (Z.eqb_spec k0 k) as [->|Hne]; cbn; [|exact IH].
    destruct (Z.eqb_spec k (Cluster.id m')); [congruence | reflexivity].
Qed.

Lemma cache_ok_store (counter : Z) (m' : Cluster.t) (s : ClusterCache) :
  cache_ok counter s → cache_ok counter (ClusterCache_store m' s).
Proof.
  intros Hok l'. unfold ClusterCache_store.
  destruct (cache s) as [l|] eqn:Hl; cbn; [|discriminate]. intros [= <-]. cbn.
  destruct (Hok l Hl) as (Hsize & Hnd & Hall). split; [exact Hsize|].
  clear Hl Hok Hsize. induction (simplelru.evictList l) as [|[k0 c0] l0 IH]; cbn.
  - split; constructor.
  - cbn in Hnd. apply NoDup_cons in Hnd as [Hk0 Hnd].
    inversion Hall as [|? ? [Hid Hrange] Hall']; subst. cbn in Hid, Hrange.
    destruct (IH Hnd Hall') as [IHnd IHall].
    assert (Hfst : map fst (map (λ e : Z * Cluster.t,
                     if e.1 =? Cluster.id m' then (e.1, m') else e) l0) = map fst l0).
    { rewrite map_map. apply map_ext. intros [k x]. cbn.
      now destruct (k =? Cluster.id m'). }
    split.
    + assert (Hhd : (if k0 =? Cluster.id m' then (k0, m') else (k0, c0)).1 = k0)
        by now destruct (k0 =? Cluster.id m').
      rewrite Hhd. constructor; [now rewrite Hfst | exact IHnd].
    + constructor; [|exact IHall].
      destruct (Z.eqb_spec k0 (Cluster.id m')) as [->|_]; cbn; auto.
Qed.

End Writes.

(** ** The invariant of the states *)

Section StateOk.

Context {Regexp : Type} `{!Matcher Regexp} `{!Unicode}.

Lemma bucket_ok_impl (P P' : Z → Prop) (node : Node) :
  (∀ id, P id → P' id) → bucket_ok P node → bucket_ok P' node.
Proof.
  intros HP. induction 1 as [node Hids _ IH]. constructor; [|exact IH].
  eapply Forall_impl; eauto.
Qed.

Lemma bucket_ok_createNode (P : Z → Prop) : bucket_ok P createNode.
Proof.
  constructor; [constructor|]. intros key child. cbn. rewrite lookup_empty. discriminate.
Qed.

Lemma bucket_ok_insert (P : Z → Prop) (node child : Node) (key : string) :
  bucket_ok P node → bucket_ok P child →
  bucket_ok P (mkNode (<[key := child]> (keyToChildNode node)) (clusterIDs node)).
Proof.
  intros Hnode Hchild. inversion Hnode as [? Hids Hsub]; subst.
  constructor; [exact Hids|]. cbn. intros k c. rewrite lookup_insert. case_decide.
  - now intros [= <-].
  - apply Hsub.
Qed.

Lemma addSeqToPrefixTree_loop_bucket_ok (P : Z → Prop) (cfg : Config Regexp)
    (cluster : Cluster.t) (tokens : list string) (tokenCount : Z) :
  P (Cluster.id cluster) →
  ∀ curNode currentDepth s node' s',
    bucket_ok P curNode →
    addSeqToPrefixTree_loop cfg cluster curNode tokens currentDepth tokenCount s
    = Ok (node', s') →
    bucket_ok P node'.
Proof.
  intros Hid. induction tokens as [|token tokens IH];
    intros curNode currentDepth s node' s' Hok; cbn [addSeqToPrefixTree_loop].
  - now intros [= <- <-].
  - destruct ((maxNodeDepth cfg <=? currentDepth) || (tokenCount <=? currentDepth)).
    + intros Hrun. apply bind_M_Ok in Hrun as (ids & s1 & Hlive & [= <- <-]).
      apply (liveClusterIDs_keeps (λ _, True)) in Hlive as [_ Hsub]; [|easy].
      inversion Hok as [? Hids Hch]; subst. constructor; [|exact Hch].
      cbn. apply Forall_app. split; [|now repeat constructor].
      rewrite Forall_forall in Hids |- *. intros x Hx. apply Hids, Hsub, Hx.
    + destruct (chooseChild cfg curNode token) as [key|key].
      * intros Hrun. apply bind_M_Ok in Hrun as (newNode & s1 & Hloop & [= <- <-]).
        apply IH in Hloop; [|apply bucket_ok_createNode].
        now apply bucket_ok_insert.
      * destruct (keyToChildNode curNode !! key) as [child|] eqn:Hchild.
        -- intros Hrun. apply bind_M_Ok in Hrun as (child' & s1 & Hloop & [= <- <-]).
           inversion Hok as [? _ Hch]; subst.
           apply IH in Hloop; [|now apply (Hch key)].
           now apply bucket_ok_insert.
        -- destruct tokens; [now intros [= <- <-] | discriminate].
Qed.

(** The first-level node that an insertion writes. *)
Lemma addSeqToPrefixTree_first (P : Z → Prop) (cfg : Config Regexp)
    (root root' : Node) (cluster : Cluster.t) (s s' : ClusterCache) :
  P (Cluster.id cluster) →
  (∀ node, keyToChildNode root !! Itoa (len (Cluster.tokens cluster)) = Some node →
           bucket_ok P node) →
  addSeqToPrefixTree cfg root cluster s = Ok (root', s') →
  ∃ first',
    keyToChildNode root' !! Itoa (len (Cluster.tokens cluster)) = Some first'
    ∧ bucket_ok P first'
    ∧ (len (Cluster.tokens cluster) = 0 → clusterIDs first' ≠ []).
Proof.
  intros Hid Hold. unfold addSeqToPrefixTree.
  set (key := Itoa (len (Cluster.tokens cluster))) in *.
  assert (Hfirst : bucket_ok P match keyToChildNode root !! key with
                               | Some n => n
                               | None => createNode
                               end).
  { destruct (keyToChildNode root !! key) eqn:E; [now apply Hold|].
    apply bucket_ok_createNode. }
  destruct (Z.eqb_spec (len (Cluster.tokens cluster)) 0) as [H0|H0].
  - intros [= <- <-]. eexists. cbn [keyToChildNode]. rewrite lookup_insert_eq.
    split; [reflexivity|]. split.
    + inversion Hfirst as [? Hids Hch]; subst. constructor; [|exact Hch].
      cbn. apply Forall_app. split; [exact Hids | now repeat constructor].
    + intros _. cbn. now destruct (clusterIDs _).
  - intros Hrun. apply bind_M_Ok in Hrun as (first' & s1 & Hloop & [= <- <-]).
    exists first'. cbn [keyToChildNode]. rewrite lookup_insert_eq.
    split; [reflexivity|]. split; [|congruence].
    eapply addSeqToPrefixTree_loop_bucket_ok; eauto.
Qed.

Lemma tree_ok_impl (counter counter' : Z) (s s' : ClusterCache) (root : Node) :
  (∀ n id, id_ok counter s n id → id_ok counter' s' n id) →
  tree_ok counter s root → tree_ok counter' s' root.
Proof.
  intros Hid Hroot key node Hnode.
  destruct (Hroot key node Hnode) as (n & Hn & Hkey & Hok & H0).
  exists n. split; [exact Hn|]. split; [exact Hkey|]. split; [|exact H0].
  eapply bucket_ok_impl; [|exact Hok]. apply Hid.
Qed.

Lemma ClusterCache_Get_some (key : Z) (s s' : ClusterCache) (v : option Cluster.t) :
  ClusterCache_Get key s = Ok (v, s') → cache s' ≠ None.
Proof.
  unfold ClusterCache_Get. destruct (cache s); [|discriminate].
  destruct (simplelru.Get key l). intros [= _ <-]. discriminate.
Qed.

Lemma kept_none (R : Prop) : kept_by_Get (λ s, cache s = None → R).
Proof.
  intros key s v s' HG _ Hnone. exfalso. now apply (ClusterCache_Get_some _ _ _ _ HG).
Qed.

Lemma state_ok_New (cfg : Config Regexp) (d : Drain Regexp) :
  New cfg = Ok d → state_ok d ∧ clustersCounter d = 0.
Proof.
  unfold New. destruct (ClusterDepth cfg <? 3); [discriminate|]. intros [= <-].
  split; [|reflexivity]. unfold state_ok. cbn. split; [lia|]. split; [|split].
  - unfold createClusterCache, simplelru.NewLRU, cache_ok. cbn.
    destruct (Z.leb_spec (if MaxClusters cfg =? 0 then MaxInt else MaxClusters cfg) 0);
      [discriminate|].
    intros l [= <-]. cbn. split; [lia|]. split; constructor.
  - intros key node. cbn. rewrite lookup_empty. discriminate.
  - reflexivity.
Qed.

Lemma id_ok_same (counter : Z) (s s' : ClusterCache) (n id : Z) :
  (∀ k, cached k s' = cached k s) → id_ok counter s n id → id_ok counter s' n id.
Proof. intros Hk [Hr Hlen]. split; [exact Hr|]. intros c. rewrite Hk. apply Hlen. Qed.

Lemma Match_state_ok (d : Drain Regexp) (content : string)
    (r : option Cluster.t) (d' : Drain Regexp) :
  state_ok d → Match d content = Ok (r, d') → state_ok d'.
Proof.
  intros (Hcounter & Hcache & Htree & Hnone). unfold Match.
  destruct (treeSearch _ _ _ _ _ _) as [[r0 cache1]|] eqn:Hsearch; cbn; [|discriminate].
  intros [= <- <-]. unfold state_ok. cbn.
  pose proof (treeSearch_cached _ _ _ _ _ _ _ _ Hsearch) as [Hk _].
  split; [exact Hcounter|]. split; [|split].
  - eapply treeSearch_keeps; [apply kept_cache_ok | exact Hsearch | exact Hcache].
  - eapply tree_ok_impl; [|exact Htree]. intros n id. now apply id_ok_same.
  - eapply (treeSearch_keeps (λ s, cache s = None → _));
      [apply kept_none | exact Hsearch | exact Hnone].
Qed.

Lemma incr_next (k : Z) : 0 ≤ k → k < MaxInt → incr k = k + 1.
Proof.
  intros H0 H1. unfold incr, wrap64. unfold MaxInt in H1.
  change (2 ^ 64) with (2 * 2 ^ 63). set (p := 2 ^ 63) in *.
  rewrite Z.mod_small; lia.
Qed.

(** A call of [Train], before the counter of clusters reaches the
    greatest [int]: the invariant stays, the counter grows by one at
    most, and the cluster returned is then the record the cache holds
    under its id, with as many template tokens as the line has
    tokens. *)
Lemma Train_state_ok (d : Drain Regexp) (content : string)
    (c : Cluster.t) (d' : Drain Regexp) :
  state_ok d → clustersCounter d < MaxInt →
  Train d content = Ok (c, d') →
  state_ok d'
  ∧ clustersCounter d ≤ clustersCounter d' ≤ clustersCounter d + 1
  ∧ cached (Cluster.id c) (idToCluster d') = Some c
  ∧ len (Cluster.tokens c) = len (Tokenizer (config d) content).
Proof.
  intros (Hcounter & Hcache & Htree & Hnone) Hmax. unfold Train.
  destruct (treeSearch _ _ _ _ _ _) as [[[m|] cache1]|] eqn:Hsearch;
    cbn [mbind result_bind]; [| |discriminate].
  - (* a cluster matches *)
    pose proof (treeSearch_cached _ _ _ _ _ _ _ _ Hsearch) as [Hk Hm].
    destruct (Hm m eq_refl) as [key Hkey].
    assert (Hcache1 : cache_ok (clustersCounter d) cache1).
    { eapply treeSearch_keeps; [apply kept_cache_ok | exact Hsearch | exact Hcache]. }
    destruct (cache_ok_cached _ _ _ _ Hcache Hkey) as [Hidm _]. subst key.
    destruct (createTemplate _ _ _) as [T'|] eqn:HT; cbn [mbind result_bind];
      [|discriminate].
    apply createTemplate_Ok in HT as [Hlen ->].
    set (m' := Cluster.mk _ (Cluster.id m) (incr (Cluster.size m))).
    destruct (ClusterCache_Get _ _) as [[v cache3]|] eqn:HG; cbn [mbind result_bind];
      [|discriminate].
    intros [= <- <-]. unfold state_ok. cbn [clustersCounter idToCluster rootNode].
    pose proof (ClusterCache_Get_Ok _ _ _ _ HG) as [_ Hk3].
    assert (Hc3 : ∀ k, cached k cache3
                       = if k =? Cluster.id m then
                           match cached k (idToCluster d) with
                           | Some _ => Some m'
                           | None => None
                           end
                         else cached k (idToCluster d)).
    { intros k. rewrite Hk3, cached_store. cbn [Cluster.id m']. now rewrite Hk. }
    assert (HlenT : len (Cluster.tokens m') = len (Cluster.tokens m)).
    { unfold len. cbn. now rewrite createTemplate_loop_length. }
    split; [|split; [lia|split]].
    + split; [exact Hcounter|]. split; [|split].
      * eapply kept_cache_ok; [exact HG|]. now apply cache_ok_store.
      * eapply tree_ok_impl; [|exact Htree]. intros n id [Hr Hn]. split; [exact Hr|].
        intros c0. rewrite Hc3. destruct (Z.eqb_spec id (Cluster.id m)) as [->|_];
          [|apply Hn].
        rewrite Hkey. intros [= <-]. rewrite HlenT. now apply Hn.
      * intros Hnone3. exfalso. now apply (ClusterCache_Get_some _ _ _ _ HG).
    + cbn [Cluster.id m']. rewrite Hc3, Z.eqb_refl, Hkey. reflexivity.
    + rewrite HlenT. symmetry. now apply len_eq_length.
  - (* no cluster matches *)
    pose proof (treeSearch_cached _ _ _ _ _ _ _ _ Hsearch) as [Hk _].
    assert (Hcache1 : cache_ok (clustersCounter d) cache1).
    { eapply treeSearch_keeps; [apply kept_cache_ok | exact Hsearch | exact Hcache]. }
    rewrite (incr_next _ Hcounter Hmax).
    set (c1 := Cluster.mk (Tokenizer (config d) content) (clustersCounter d + 1) 1).
    destruct (ClusterCache_Set _ _ _) as [[[] cache2]|] eqn:HS; cbn [mbind result_bind];
      [|discriminate].
    destruct (ClusterCache_Set_next _ c1 _ _ Hcache1 Hcounter eq_refl HS)
      as (Hcache2 & Hsome2 & Hc1 & Hold).
    destruct (addSeqToPrefixTree _ _ _ _) as [[root' cache3]|] eqn:Hadd;
      cbn [mbind result_bind]; [|discriminate].
    intros [= <- <-]. unfold state_ok. cbn [clustersCounter idToCluster rootNode].
    assert (Hk3 : ∀ k, cached k cache3 = cached k cache2).
    { eapply (addSeqToPrefixTree_keeps (λ s, ∀ k, cached k s = cached k cache2));
        [apply kept_cached | exact Hadd | auto]. }
    assert (Hids : ∀ n id, id_ok (clustersCounter d) (idToCluster d) n id →
                           id_ok (clustersCounter d + 1) cache3 n id).
    { intros n id [Hr Hn]. split; [lia|]. intros c0. rewrite Hk3. intros Hc0.
      destruct (Hold _ _ Hc0) as [[-> _] | [_ Hc0']]; [lia|].
      rewrite Hk in Hc0'. now apply Hn. }
    assert (Hnew : id_ok (clustersCounter d + 1) cache3
                     (len (Cluster.tokens c1)) (Cluster.id c1)).
    { split; [cbn; lia|]. intros c0. rewrite Hk3. cbn [Cluster.id c1]. rewrite Hc1.
      now intros [= <-]. }
    split; [|split; [lia|split]].
    + split; [lia|]. split; [|split].
      * eapply addSeqToPrefixTree_keeps; [apply kept_cache_ok | exact Hadd | exact Hcache2].
      * intros key node Hnode.
        destruct (decide (key = Itoa (len (Cluster.tokens c1)))) as [->|Hkey].
        -- assert (Hfirst0 : ∀ node0,
                     keyToChildNode (rootNode d) !! Itoa (len (Cluster.tokens c1))
                     = Some node0 →
                     bucket_ok (id_ok (clustersCounter d + 1) cache3
                                  (len (Cluster.tokens c1))) node0).
           { intros node0 Hnode0.
             destruct (Htree _ _ Hnode0) as (n0 & _ & Hn0 & Hok0 & _).
             apply (inj pretty) in Hn0 as <-.
             eapply bucket_ok_impl; [|exact Hok0]. apply Hids. }
           destruct (addSeqToPrefixTree_first _ _ _ _ _ _ _ Hnew Hfirst0 Hadd)
             as (first' & Hfirst & Hok & H0).
           rewrite Hfirst in Hnode. injection Hnode as <-.
           exists (len (Cluster.tokens c1)).
           split; [apply len_nonneg|]. split; [reflexivity|]. split; [exact Hok | exact H0].
        -- rewrite (addSeqToPrefixTree_other_keys _ _ _ _ _ _ _ Hadd Hkey) in Hnode.
           destruct (Htree _ _ Hnode) as (n0 & Hn0 & Hk0 & Hok0 & H0).
           exists n0. split; [exact Hn0|]. split; [exact Hk0|]. split; [|exact H0].
           eapply bucket_ok_impl; [|exact Hok0]. apply Hids.
      * intros Hnone3. exfalso. revert Hnone3.
        eapply (addSeqToPrefixTree_keeps (λ s, cache s ≠ None));
          [apply kept_some | exact Hadd | exact Hsome2].
    + rewrite Hk3. exact Hc1.
    + reflexivity.
Qed.

(** *** The states a learner reaches *)

Lemma reachable_in_state_ok (cfg : Config Regexp) (n : nat) (d : Drain Regexp) :
  reachable_in cfg n d → Z.of_nat n < 2 ^ 63 →
  state_ok d ∧ clustersCounter d ≤ Z.of_nat n.
Proof.
  induction 1 as [d HNew | n d content c d' _ IH HT | n d content c d' _ IH HM];
    intros Hn.
  - apply state_ok_New in HNew as [Hok ->]. split; [exact Hok | lia].
  - destruct IH as [Hok Hle]; [lia|].
    assert (Hmax : clustersCounter d < MaxInt) by (unfold MaxInt; lia).
    destruct (Train_state_ok _ _ _ _ Hok Hmax HT) as (Hok' & Hc & _).
    split; [exact Hok' | lia].
  - destruct IH as [Hok Hle]; [lia|].
    apply Match_Ok in HM as HM'. destruct HM' as (_ & _ & ->).
    split; [|exact Hle]. eapply Match_state_ok; eauto.
Qed.

End StateOk.

(** ** What [Clusters] lists *)

Section Listing.

Context {Regexp : Type} `{!Matcher Regexp} `{!Unicode}.

Lemma reachable_in_reachable (cfg : Config Regexp) (n : nat) (d : Drain Regexp) :
  reachable_in cfg n d → reachable cfg d.
Proof.
  induction 1; [now apply reachable_New | eapply reachable_Train; eauto
               | eapply reachable_Match; eauto].
Qed.

Lemma omap_ids (f : Z → option Cluster.t) (ks : list Z) :
  (∀ k c, f k = Some c → Cluster.id c = k) →
  (∀ x, x ∈ map Cluster.id (omap f ks) → x ∈ ks)
  ∧ (NoDup ks → NoDup (map Cluster.id (omap f ks))).
Proof.
  intros Hf. induction ks as [|k ks [IHin IHnd]]; cbn.
  - split; [auto | constructor].
  - destruct (f k) as [c|] eqn:Hk; cbn.
    + apply Hf in Hk. split.
      * intros x [->|Hx]%elem_of_cons; [rewrite Hk; apply list_elem_of_here|].
        apply list_elem_of_further, IHin, Hx.
      * intros [Hnot Hnd]%NoDup_cons. constructor; [|auto].
        rewrite Hk. intros Hin. apply Hnot, IHin, Hin.
    + split.
      * intros x Hx. apply list_elem_of_further, IHin, Hx.
      * intros [_ Hnd]%NoDup_cons. auto.
Qed.

Lemma Clusters_of_cache_ok (counter : Z) (d : Drain Regexp) (cs : list Cluster.t) :
  cache_ok counter (idToCluster d) →
  Clusters d = Ok cs →
  NoDup (map Cluster.id cs)
  ∧ (∀ c, c ∈ cs ↔ cached (Cluster.id c) (idToCluster d) = Some c)
  ∧ Forall (λ c, 1 ≤ Cluster.id c ≤ counter) cs.
Proof.
  intros Hok. unfold Clusters, ClusterCache_Values.
  destruct (cache (idToCluster d)) as [l|] eqn:Hl; [|discriminate]. intros [= <-].
  destruct (Hok l Hl) as (_ & Hnd & Hall).
  assert (Hf : ∀ k c, simplelru.Peek k l = Some c → Cluster.id c = k).
  { intros k c Hk. apply (cache_ok_cached counter (idToCluster d)); [exact Hok|].
    unfold cached. now rewrite Hl. }
  assert (Hmem : ∀ c, c ∈ omap (λ key, simplelru.Peek key l) (simplelru.Keys l)
                      ↔ cached (Cluster.id c) (idToCluster d) = Some c).
  { intros c. rewrite list_elem_of_omap. unfold cached. rewrite Hl. cbn. split.
    - intros (k & _ & Hk). now rewrite (Hf _ _ Hk).
    - intros Hc. exists (Cluster.id c). split; [|exact Hc].
      assert (Hin : (Cluster.id c, c) ∈ simplelru.evictList l).
      { destruct (cached_elem (idToCluster d) (Cluster.id c) c) as (l0 & Hl0 & Hin).
        - unfold cached. now rewrite Hl.
        - congruence. }
      unfold simplelru.Keys. apply list_elem_of_In. rewrite <- in_rev.
      apply in_map_iff. exists (Cluster.id c, c). split; [reflexivity | now apply list_elem_of_In]. }
  split; [|split].
  - apply omap_ids; [exact Hf|]. unfold simplelru.Keys.
    apply NoDup_ListNoDup, NoDup_rev, NoDup_ListNoDup, Hnd.
  - exact Hmem.
  - apply Forall_forall. intros c Hc. apply Hmem in Hc.
    now destruct (cache_ok_cached _ _ _ _ Hok Hc).
Qed.

(** X13: In a state reached by fewer than 2^63 calls of [Train], the
    clusters that [Clusters] lists have ids that differ from one
    another and lie between 1 and the counter of clusters, which is at
    most the number of calls of [Train]; they are the records the cache
    holds, each under its own id. *)
Theorem Clusters_distinct_ids (cfg : Config Regexp) (n : nat) (d : Drain Regexp)
    (cs : list Cluster.t) :
  reachable_in cfg n d → Z.of_nat n < 2 ^ 63 →
  Clusters d = Ok cs →
  NoDup (map Cluster.id cs)
  ∧ Forall (λ c, 1 ≤ Cluster.id c ≤ clustersCounter d) cs
  ∧ clustersCounter d ≤ Z.of_nat n
  ∧ ∀ c, c ∈ cs ↔ cached (Cluster.id c) (idToCluster d) = Some c.
Proof.
  intros Hd Hn Hcs.
  destruct (reachable_in_state_ok cfg n d Hd Hn) as [(_ & Hcache & _) Hle].
  destruct (Clusters_of_cache_ok _ _ _ Hcache Hcs) as (Hnd & Hmem & Hall).
  auto.
Qed.

(** X11: In a state reached by fewer than 2^63 calls of [Train], the cluster
    that one more [Train] returns is then a record of the cache, under
    its own id, and one of the clusters that [Clusters] lists; its
    template has as many tokens as the line has. *)
Theorem Train_returns_cached (cfg : Config Regexp) (n : nat) (d : Drain Regexp)
    (content : string) (c : Cluster.t) (d' : Drain Regexp) :
  reachable_in cfg n d → Z.of_nat (S n) < 2 ^ 63 →
  Train d content = Ok (c, d') →
  cached (Cluster.id c) (idToCluster d') = Some c
  ∧ length (Cluster.tokens c) = length (Tokenizer (config d) content)
  ∧ 1 ≤ Cluster.id c ≤ clustersCounter d'
  ∧ ∃ cs, Clusters d' = Ok cs ∧ c ∈ cs.
Proof.
  intros Hd Hn HT.
  destruct (reachable_in_state_ok cfg n d Hd ltac:(lia)) as [Hok Hle].
  assert (Hmax : clustersCounter d < MaxInt) by (unfold MaxInt; lia).
  destruct (Train_state_ok _ _ _ _ Hok Hmax HT) as ((_ & Hcache & _) & _ & Hc & Hlen).
  split; [exact Hc|]. split; [now apply len_eq_length|].
  split; [now destruct (cache_ok_cached _ _ _ _ Hcache Hc)|].
  destruct (cached_elem _ _ _ Hc) as (l & Hl & _).
  assert (Hcs : ∃ cs, Clusters d' = Ok cs).
  { unfold Clusters, ClusterCache_Values. rewrite Hl. eauto. }
  destruct Hcs as [cs Hcs]. exists cs. split; [exact Hcs|].
  now apply (Clusters_of_cache_ok _ _ _ Hcache Hcs).
Qed.

End Listing.

(** ** Calls that return *)

Section Returns.

Context {Regexp : Type} `{!Matcher Regexp} `{!Unicode}.

Lemma bind_M_run {A B : Type} (m : M A) (f : A → M B) (s s1 : ClusterCache) (a : A) :
  m s = Ok (a, s1) → (m ≫= f) s = f a s1.
Proof. intros Hrun. unfold mbind, M_bind. now rewrite Hrun. Qed.

Lemma ClusterCache_Get_returns (key : Z) (s : ClusterCache) :
  cache s ≠ None → ∃ s', ClusterCache_Get key s = Ok (cached key s, s').
Proof.
  unfold ClusterCache_Get, cached. destruct (cache s) as [l|]; [|congruence].
  intros _. destruct (simplelru.Get key l) as [v l'] eqn:HG. cbn.
  exists (mkClusterCache (Some l')). unfold simplelru.Get in HG.
  destruct (simplelru.Peek key l); now inversion HG.
Qed.

Lemma getSeqDistance_returns (cfg : Config Regexp) (seq1 seq2 : list string)
    (includeParams : bool) :
  len seq1 = len seq2 → ∃ r, getSeqDistance cfg seq1 seq2 includeParams = Ok r.
Proof.
  intros Hlen. unfold getSeqDistance. rewrite Hlen, Z.eqb_refl. cbn [negb].
  destruct (getSeqDistance_loop _ _ _ _ _). eauto.
Qed.

(** The scan of a bucket returns when there is a cache and the records
    of the bucket's ids have templates as long as the line. *)
Lemma fastMatch_loop_returns (cfg : Config Regexp) (clusterIDs : list Z)
    (tokens : list string) (includeParams : bool) (s0 : ClusterCache) :
  (∀ id c, id ∈ clusterIDs → cached id s0 = Some c →
           len (Cluster.tokens c) = len tokens) →
  ∀ maxSim maxParamCount maxCluster s,
    cache s ≠ None → (∀ k, cached k s = cached k s0) →
    ∃ r s', fastMatch_loop cfg clusterIDs tokens includeParams
              maxSim maxParamCount maxCluster s = Ok (r, s').
Proof.
  induction clusterIDs as [|clusterID clusterIDs IH];
    intros Hids maxSim maxParamCount maxCluster s Hsome Hs; cbn [fastMatch_loop].
  - unfold mret, M_ret. eauto.
  - destruct (ClusterCache_Get_returns clusterID s Hsome) as [s1 HG].
    rewrite (bind_M_run _ _ _ _ _ HG).
    pose proof (ClusterCache_Get_some _ _ _ _ HG) as Hsome1.
    destruct (ClusterCache_Get_Ok _ _ _ _ HG) as [_ Hs1].
    assert (Hs1' : ∀ k, cached k s1 = cached k s0).
    { intros k. now rewrite Hs1. }
    assert (Hids' : ∀ id c, id ∈ clusterIDs → cached id s0 = Some c →
                            len (Cluster.tokens c) = len tokens).
    { intros id c Hin. apply Hids. now apply list_elem_of_further. }
    destruct (cached clusterID s) as [c|] eqn:Hc.
    + assert (Hlen : len (Cluster.tokens c) = len tokens).
      { apply (Hids clusterID); [apply list_elem_of_here|]. now rewrite <- Hs. }
      destruct (getSeqDistance_returns cfg _ _ includeParams Hlen) as [[sim pc] Hd].
      assert (Hl : lift (getSeqDistance cfg (Cluster.tokens c) tokens includeParams) s1
                   = Ok ((sim, pc), s1)).
      { unfold lift. now rewrite Hd. }
      rewrite (bind_M_run _ _ _ _ _ Hl).
      destruct (f_gt sim maxSim || f_eq sim maxSim && (maxParamCount <? pc));
        now apply IH.
    + now apply IH.
Qed.

Lemma fastMatch_returns (cfg : Config Regexp) (clusterIDs : list Z)
    (tokens : list string) (simTh : Q) (includeParams : bool) (s : ClusterCache) :
  cache s ≠ None →
  (∀ id c, id ∈ clusterIDs → cached id s = Some c →
           len (Cluster.tokens c) = len tokens) →
  ∃ r s', fastMatch cfg clusterIDs tokens simTh includeParams s = Ok (r, s').
Proof.
  intros Hsome Hids. unfold fastMatch.
  destruct (fastMatch_loop_returns cfg clusterIDs tokens includeParams s Hids
              (Fin (-1)) (-1) None s Hsome (λ _, eq_refl)) as ([sim best] & s' & Hrun).
  rewrite (bind_M_run _ _ _ _ _ Hrun). unfold mret, M_ret. eauto.
Qed.

Lemma treeSearch_loop_bucket_ok (P : Z → Prop) (cfg : Config Regexp)
    (tokens : list string) (tokenCount : Z) :
  ∀ curNode curNodeDepth leaf,
    bucket_ok P curNode →
    treeSearch_loop cfg curNode tokens curNodeDepth tokenCount = Some leaf →
    bucket_ok P leaf.
Proof.
  induction tokens as [|token tokens IH]; intros curNode curNodeDepth leaf Hok;
    cbn [treeSearch_loop].
  - now intros [= <-].
  - destruct (maxNodeDepth cfg <=? curNodeDepth); [now intros [= <-]|].
    destruct (curNodeDepth =? tokenCount); [now intros [= <-]|].
    destruct Hok as [node _ Hchildren].
    destruct (keyToChildNode node !! token) as [child|] eqn:Hc.
    + apply IH. eapply Hchildren, Hc.
    + destruct (keyToChildNode node !! getParamString cfg token) as [child|] eqn:Hp;
        [|discriminate].
      apply IH. eapply Hchildren, Hp.
Qed.

(** The bucket that a search reads, in a state of the invariant: there
    is a cache, the ids of the bucket are [id_ok] for the number of
    tokens, and the bucket of no token is not empty. *)
Lemma leaf_of_ok (cfg : Config Regexp) (counter : Z) (s : ClusterCache)
    (root : Node) (tokens : list string) (leaf : Node) :
  tree_ok counter s root →
  (cache s = None → keyToChildNode root = ∅) →
  leaf_of cfg root tokens = Some leaf →
  cache s ≠ None
  ∧ Forall (id_ok counter s (len tokens)) (clusterIDs leaf)
  ∧ (len tokens = 0 → clusterIDs leaf ≠ []).
Proof.
  intros Htree Hnone. unfold leaf_of.
  destruct (keyToChildNode root !! Itoa (len tokens)) as [first|] eqn:Hfirst;
    [|discriminate].
  intros Hleaf. split.
  - intros Hn. rewrite (Hnone Hn), lookup_empty in Hfirst. discriminate.
  - destruct (Htree _ _ Hfirst) as (n & _ & Hkey & Hok & Hzero).
    apply (inj pretty) in Hkey as <-.
    destruct (Z.eqb_spec (len tokens) 0) as [E|E].
    + injection Hleaf as <-. split; [now destruct Hok|exact Hzero].
    + split; [|intros E'; now destruct E].
      pose proof (treeSearch_loop_bucket_ok _ _ _ _ _ _ _ Hok Hleaf) as Hl.
      now destruct Hl.
Qed.

Lemma treeSearch_returns (cfg : Config Regexp) (counter : Z) (s : ClusterCache)
    (root : Node) (tokens : list string) (simTh : Q) (includeParams : bool) :
  tree_ok counter s root →
  (cache s = None → keyToChildNode root = ∅) →
  ∃ r s', treeSearch cfg root tokens simTh includeParams s = Ok (r, s').
Proof.
  intros Htree Hnone. rewrite treeSearch_leaf_of.
  destruct (leaf_of cfg root tokens) as [leaf|] eqn:Hleaf.
  - destruct (leaf_of_ok _ _ _ _ _ _ Htree Hnone Hleaf) as (Hsome & Hids & Hzero).
    destruct (len tokens =? 0) eqn:E.
    + apply Z.eqb_eq in E. specialize (Hzero E).
      destruct (clusterIDs leaf) as [|clusterID ids]; [congruence|].
      destruct (ClusterCache_Get_returns clusterID s Hsome) as [s' HG]. eauto.
    + apply fastMatch_returns; [exact Hsome|].
      intros id c Hin Hc. rewrite Forall_forall in Hids.
      now apply (Hids id Hin).
  - unfold mret, M_ret. eauto.
Qed.

(** X8: In a state reached by fewer than 2^63 calls of [Train], [Match]
    returns for every line: no bucket it reads is empty where it takes
    the first id, every template it compares has as many tokens as the
    line, and there is a cache whenever the tree has a bucket. *)
Theorem Match_returns (cfg : Config Regexp) (n : nat) (d : Drain Regexp)
    (content : string) :
  reachable_in cfg n d → Z.of_nat n < 2 ^ 63 →
  ∃ r d', Match d content = Ok (r, d').
Proof.
  intros Hd Hn.
  destruct (reachable_in_state_ok cfg n d Hd Hn) as [(_ & _ & Htree & Hnone) _].
  destruct (treeSearch_returns (config d) _ _ _ (Tokenizer (config d) content)
              1 true Htree Hnone) as (r & s' & Hrun).
  unfold Match. rewrite Hrun. cbn. eauto.
Qed.

End Returns.

(** ** Where a search finds its cluster, and when [Train] returns *)

Section TrainReturns.

Context {Regexp : Type} `{!Matcher Regexp} `{!Unicode}.

(** The cluster that a search returns is the record of an id of the
    bucket the search reads. *)
Lemma treeSearch_found (cfg : Config Regexp) (root : Node) (tokens : list string)
    (simTh : Q) (includeParams : bool) (s s' : ClusterCache) (m : Cluster.t) :
  treeSearch cfg root tokens simTh includeParams s = Ok (Some m, s') →
  ∃ leaf id, leaf_of cfg root tokens = Some leaf
             ∧ id ∈ clusterIDs leaf ∧ cached id s = Some m.
Proof.
  rewrite treeSearch_leaf_of.
  destruct (leaf_of cfg root tokens) as [leaf|]; [|intros [=]].
  destruct (len tokens =? 0).
  - destruct (clusterIDs leaf) as [|clusterID ids] eqn:Hids.
    + intros Hrun. apply lift_Ok in Hrun as [? _]. discriminate.
    + intros HG. apply ClusterCache_Get_Ok in HG as [Hm _].
      exists leaf, clusterID. rewrite Hids.
      split; [reflexivity|]. split; [apply list_elem_of_here | now symmetry].
  - unfold fastMatch. intros Hrun.
    apply bind_M_Ok in Hrun as ([maxSim maxCluster] & s1 & Hloop & Hret).
    apply (fastMatch_loop_best _ _ _ _ s) in Hloop
      as (pc & _ & _ & _ & Hbest); [|auto|now exists (-1)%Q].
    unfold mret, M_ret in Hret. destruct (f_ge maxSim (Fin simTh)); [|discriminate].
    injection Hret as -> _.
    destruct Hbest as [([=] & _)|(id & c & Hin & [= <-] & Hc & _)].
    exists leaf, id. auto.
Qed.







End TrainReturns.

(** ** A line that was trained is matched *)

Section RoundTrip.

Context {Regexp : Type} `{!Matcher Regexp} `{!Unicode}.

Lemma counts_all (cfg : Config Regexp) (l : list (string * string)) :
  Forall (λ ts, ts.1 = ts.2 ∨ isParamString cfg ts.1 = true) l →
  len (List.filter (λ ts, negb (isParamString cfg ts.1) && String.eqb ts.1 ts.2) l)
  + len (List.filter (λ ts, isParamString cfg ts.1) l) = len l.
Proof.
  unfold len. induction 1 as [|[t s] l Hts _ IH]; cbn [List.filter fst snd];
    [reflexivity|].
  cbn [fst snd] in Hts.
  destruct (isParamString cfg t) eqn:Hp; cbn [negb andb length]; [lia|].
  destruct Hts as [->|?]; [|discriminate].
  rewrite String.eqb_refl. cbn [length]. lia.
Qed.

Lemma f_ge_one_of_full (n : Z) (sim : float64) :
  0 < n → (∃ m, sim = Fin m) → f_gt (f_div n n) sim = false →
  f_ge sim (Fin 1) = true.
Proof.
  intros Hn [m ->]. unfold f_div, f_gt, f_ge.
  destruct (Z.eqb_spec n 0) as [E|_]; [lia|].
  intros Hle. apply negb_false_iff, Qle_bool_iff in Hle. apply Qle_bool_iff.
  assert (E : (inject_Z n / inject_Z n == 1)%Q).
  { apply Qmult_inv_r. unfold Qeq, inject_Z. cbn. lia. }
  now rewrite E in Hle.
Qed.

(** Where [Train] leaves the cluster it returns: in the bucket that a
    search of the line reads; and every token of its template is the
    line's token at the position, or the label of that token. *)
Lemma Train_leaf (d : Drain Regexp) (content : string) (c : Cluster.t)
    (d' : Drain Regexp) :
  state_ok d → Train d content = Ok (c, d') →
  ∃ leaf,
    leaf_of (config d) (rootNode d') (Tokenizer (config d) content) = Some leaf
    ∧ Cluster.id c ∈ clusterIDs leaf
    ∧ ∀ i t x, Cluster.tokens c !! i = Some t →
               Tokenizer (config d) content !! i = Some x →
               t = x ∨ t = getParamString (config d) x.
Proof.
  intros (_ & Hcache & _ & _). unfold Train.
  set (tokens := Tokenizer (config d) content).
  destruct (treeSearch _ _ _ _ _ _) as [[[m|] cache1]|] eqn:Hsearch;
    cbn [mbind result_bind]; [| |discriminate].
  - destruct (createTemplate _ _ _) as [T'|] eqn:HT; cbn [mbind result_bind];
      [|discriminate].
    destruct (ClusterCache_Get _ _) as [[v cache3]|]; cbn [mbind result_bind];
      [|discriminate].
    intros [= <- <-]. cbn.
    destruct (treeSearch_found _ _ _ _ _ _ _ _ Hsearch) as (leaf & id & Hleaf & Hin & Hm).
    destruct (cache_ok_cached _ _ _ _ Hcache Hm) as [-> _].
    exists leaf. split; [exact Hleaf|]. split; [exact Hin|].
    apply createTemplate_Ok in HT as [Hlen ->].
    intros i t x Ht Hx.
    destruct (lookup_lt_is_Some_2 (Cluster.tokens m) i) as [t0 Ht0].
    { rewrite <- Hlen. eapply lookup_lt_Some, Hx. }
    rewrite (createTemplate_loop_lookup _ _ _ _ _ _ Hx Ht0) in Ht.
    injection Ht as <-. destruct (bool_decide_reflect (t0 = x)); auto.
  - destruct (ClusterCache_Set _ _ _) as [[[] cache2]|]; cbn [mbind result_bind];
      [|discriminate].
    destruct (addSeqToPrefixTree _ _ _ _) as [[root' cache3]|] eqn:Hadd;
      cbn [mbind result_bind]; [|discriminate].
    intros [= <- <-]. cbn.
    assert (Hleaf : ∃ leaf ids,
               leaf_of (config d) root' tokens = Some leaf
               ∧ clusterIDs leaf = ids ++ [incr (clustersCounter d)]).
    { revert Hadd. unfold addSeqToPrefixTree, leaf_of. cbn [Cluster.tokens Cluster.id].
      destruct (Z.eqb_spec (len tokens) 0) as [H0|H0].
      - intros [= <- <-]. cbn [keyToChildNode]. rewrite lookup_insert_eq. eauto.
      - intros Hrun. apply bind_M_Ok in Hrun as (first' & s1 & Hloop & [= <- <-]).
        cbn [keyToChildNode]. rewrite lookup_insert_eq.
        apply addSeqToPrefixTree_loop_found in Hloop; [exact Hloop| |lia].
        cbn. intros E. rewrite E in H0. now apply H0. }
    destruct Hleaf as (leaf & ids & Hleaf & Hids).
    exists leaf. split; [exact Hleaf|]. split.
    + rewrite Hids. apply elem_of_app. right. apply list_elem_of_here.
    + intros i t x Ht Hx. left. congruence.
Qed.

(** Under one visiting order of the patterns, a line that [Train] took
    is then matched, when the tokens of the line have labels that are
    keys of [ParamPatterns] and the line has a token. *)
Lemma Train_then_Match_one_order (cfg : Config Regexp) (n : nat) (d : Drain Regexp)
    (content : string) (c : Cluster.t) (d' : Drain Regexp) :
  reachable_in cfg n d → Z.of_nat (S n) < 2 ^ 63 →
  (∀ token, token ∈ Tokenizer cfg content →
            isParamString cfg (getParamString cfg token) = true) →
  Tokenizer cfg content ≠ [] →
  Train d content = Ok (c, d') →
  ∃ c' d'', Match d' content = Ok (Some c', d'').
Proof.
  intros Hd Hn Hlabel Hne HT.
  destruct (reachable_in_state_ok cfg n d Hd ltac:(lia)) as [Hok Hle].
  assert (Hmax : clustersCounter d < MaxInt) by (unfold MaxInt; lia).
  destruct (Train_state_ok _ _ _ _ Hok Hmax HT) as (Hok' & _ & Hc & Hlen).
  destruct (Train_leaf _ _ _ _ Hok HT) as (leaf & Hleaf & Hin & Hpos).
  destruct (Train_Ok _ _ _ _ HT) as [Hcfg _].
  pose proof (reachable_in_reachable cfg n d Hd) as Hr.
  destruct (reachable_config cfg d Hr) as (_ & _ & _ & Hpp).
  rewrite <- (reachable_Tokenizer cfg d Hr) in Hne.
  set (tokens := Tokenizer (config d) content) in *.
  destruct Hok' as (_ & Hcache' & Htree' & Hnone').
  destruct (leaf_of_ok _ _ _ _ _ _ Htree' Hnone' Hleaf) as (Hsome & Hids & _).
  assert (H0 : 0 < len tokens).
  { unfold len. destruct tokens; [congruence | cbn; lia]. }
  assert (Hfull : getSeqDistance (config d) (Cluster.tokens c) tokens true
                  = Ok (f_div (len tokens) (len tokens),
                        spec_param_count (config d) (Cluster.tokens c) tokens)).
  { rewrite getSeqDistance_counts by now apply len_eq_length.
    unfold spec_similarity, spec_sim_tokens, spec_param_count.
    rewrite counts_all.
    - rewrite Hlen. f_equal. f_equal. f_equal. unfold len. f_equal.
      rewrite length_zip_with. apply len_eq_length in Hlen. lia.
    - apply Forall_forall. intros [t x] Htx.
      apply list_elem_of_lookup in Htx as [i Hi].
      apply lookup_zip_with_Some in Hi as (t' & x' & [= <- <-] & Ht & Hx).
      cbn [fst snd]. destruct (Hpos i _ _ Ht Hx) as [->| ->]; [now left|right].
      assert (Hx' : x ∈ Tokenizer cfg content).
      { rewrite <- (reachable_Tokenizer cfg d Hr). eapply list_elem_of_lookup_2, Hx. }
      specialize (Hlabel x Hx'). unfold isParamString, getParamString in *.
      now rewrite Hpp. }
  unfold Match. rewrite Hcfg. fold tokens. rewrite treeSearch_leaf_of, Hleaf.
  destruct (Z.eqb_spec (len tokens) 0) as [E|_]; [lia|].
  destruct (fastMatch_returns (config d) (clusterIDs leaf) tokens 1 true
              (idToCluster d') Hsome) as (r & s' & Hrun).
  { intros id c0 Hid Hc0. rewrite Forall_forall in Hids.
    now apply (Hids id Hid). }
  rewrite Hrun. cbn [mbind result_bind].
  destruct r as [c'|]; [eauto|].
  exfalso. revert Hrun. unfold fastMatch. intros Hrun.
  apply bind_M_Ok in Hrun as ([maxSim maxCluster] & s1 & Hloop & Hret).
  apply (fastMatch_loop_best _ _ _ _ (idToCluster d')) in Hloop
    as (pc & Hfin & _ & Hbest & Hwhich); [|auto|now exists (-1)%Q].
  destruct (Hbest _ _ _ _ Hin Hc Hfull) as [Hgt _].
  pose proof (f_ge_one_of_full _ _ H0 Hfin Hgt) as Hge.
  unfold mret, M_ret in Hret. rewrite Hge in Hret. injection Hret as -> _.
  destruct Hwhich as [(_ & -> & _)|(id & c0 & _ & [=] & _)].
  discriminate.
Qed.

End RoundTrip.

(** ** The capacity of the cache *)

Section Capacity.

Context {Regexp : Type} `{!Matcher Regexp} `{!Unicode}.

Lemma len_removelast {A : Type} (a : A) (l : list A) :
  len (removelast (a :: l)) = len l.
Proof.
  unfold len. revert a. induction l as [|b l IH]; intros a; [reflexivity|].
  change (removelast (a :: b :: l)) with (a :: removelast (b :: l)).
  cbn [length]. specialize (IH b). lia.
Qed.

Lemma ClusterCache_Set_capped (cap key : Z) (c : Cluster.t) (s s' : ClusterCache) :
  cache_capped cap s → ClusterCache_Set key c s = Ok ((), s') → cache_capped cap s'.
Proof.
  intros Hcap. unfold ClusterCache_Set.
  destruct (cache s) as [l|] eqn:Hl; [|discriminate]. intros [= <-] l0 [= <-].
  destruct (Hcap l Hl) as [Hsize Hlen]. unfold simplelru.Add.
  pose proof (without_len key (simplelru.evictList l)) as Hw.
  destruct (simplelru.has key (simplelru.evictList l));
    cbn [simplelru.size simplelru.evictList].
  - rewrite len_cons. lia.
  - destruct (Z.ltb_spec (simplelru.size l) (len ((key, c) :: simplelru.evictList l)))
      as [Hlt|Hge]; cbn [simplelru.size simplelru.evictList].
    + rewrite len_removelast. auto.
    + lia.
Qed.

Lemma ClusterCache_store_capped (cap : Z) (m : Cluster.t) (s : ClusterCache) :
  cache_capped cap s → cache_capped cap (ClusterCache_store m s).
Proof.
  intros Hcap l. unfold ClusterCache_store. cbn.
  destruct (cache s) as [l0|] eqn:Hl; [|discriminate]. intros [= <-]. cbn.
  destruct (Hcap l0 Hl) as [Hsize Hlen]. split; [exact Hsize|].
  unfold len in *. now rewrite length_map.
Qed.

Lemma reachable_capped (cfg : Config Regexp) (d : Drain Regexp) :
  reachable cfg d →
  cache_capped (if MaxClusters cfg =? 0 then MaxInt else MaxClusters cfg)
    (idToCluster d).
Proof.
  set (cap := if MaxClusters cfg =? 0 then MaxInt else MaxClusters cfg).
  induction 1 as [d HN|d content c d' _ IH HT|d content c d' _ IH HM].
  - unfold New in HN. destruct (ClusterDepth cfg <? 3); [discriminate|].
    injection HN as <-. cbn. unfold createClusterCache, simplelru.NewLRU. fold cap.
    intros l. cbn. destruct (Z.leb_spec cap 0); [discriminate|].
    intros [= <-]. cbn. unfold len. cbn. lia.
  - unfold Train in HT.
    destruct (treeSearch _ _ _ _ _ _) as [[[m|] cache1]|] eqn:Hsearch;
      cbn [mbind result_bind] in HT; [| |discriminate].
    + destruct (createTemplate _ _ _) as [T'|]; cbn [mbind result_bind] in HT;
        [|discriminate].
      destruct (ClusterCache_Get _ _) as [[v cache3]|] eqn:HG;
        cbn [mbind result_bind] in HT; [|discriminate].
      injection HT as _ <-. cbn.
      eapply kept_cache_capped; [exact HG|].
      apply ClusterCache_store_capped.
      eapply treeSearch_keeps; [apply kept_cache_capped | exact Hsearch | exact IH].
    + destruct (ClusterCache_Set _ _ _) as [[[] cache2]|] eqn:HS;
        cbn [mbind result_bind] in HT; [|discriminate].
      destruct (addSeqToPrefixTree _ _ _ _) as [[root' cache3]|] eqn:Hadd;
        cbn [mbind result_bind] in HT; [|discriminate].
      injection HT as _ <-. cbn.
      eapply addSeqToPrefixTree_keeps; [apply kept_cache_capped | exact Hadd|].
      eapply ClusterCache_Set_capped; [|exact HS].
      eapply treeSearch_keeps; [apply kept_cache_capped | exact Hsearch | exact IH].
  - unfold Match in HM.
    destruct (treeSearch _ _ _ _ _ _) as [[r cache1]|] eqn:Hsearch;
      cbn [mbind result_bind] in HM; [|discriminate].
    injection HM as _ <-. cbn.
    eapply treeSearch_keeps; [apply kept_cache_capped | exact Hsearch | exact IH].
Qed.

Lemma len_omap_le {A B : Type} (f : A → option B) (l : list A) :
  len (omap f l) ≤ len l.
Proof.
  unfold len. induction l as [|a l IH]; cbn; [lia|].
  destruct (f a); cbn; lia.
Qed.

(** X14: A learner never holds more clusters than its capacity: in every
    state it reaches, [Clusters] lists at most [MaxClusters] clusters,
    or the greatest [int] when [MaxClusters] is 0. *)
Theorem Clusters_at_most_MaxClusters (cfg : Config Regexp) (d : Drain Regexp)
    (cs : list Cluster.t) :
  reachable cfg d → Clusters d = Ok cs →
  len cs ≤ (if MaxClusters cfg =? 0 then MaxInt else MaxClusters cfg).
Proof.
  intros Hd. pose proof (reachable_capped cfg d Hd) as Hcap.
  unfold Clusters, ClusterCache_Values.
  destruct (cache (idToCluster d)) as [l|] eqn:Hl; [|discriminate]. intros [= <-].
  destruct (Hcap l Hl) as [_ Hlen].
  pose proof (len_omap_le (λ key, simplelru.Peek key l) (simplelru.Keys l)) as Hle.
  assert (E : len (simplelru.Keys l) = len (simplelru.evictList l)).
  { unfold simplelru.Keys, len. now rewrite length_rev, length_map. }
  lia.
Qed.

End Capacity.

(** ** A learner without a cache *)

Section NoCache.

Context {Regexp : Type} `{!Matcher Regexp} `{!Unicode}.

Lemma no_cache_state (cfg : Config Regexp) (d : Drain Regexp) :
  MaxClusters cfg < 0 → New cfg = Ok d →
  cache (idToCluster d) = None ∧ keyToChildNode (rootNode d) = ∅.
Proof.
  intros Hneg. unfold New. destruct (ClusterDepth cfg <? 3); [discriminate|].
  intros [= <-]. cbn. split; [|reflexivity].
  unfold createClusterCache, simplelru.NewLRU.
  destruct (Z.eqb_spec (MaxClusters cfg) 0) as [E|_]; [lia|].
  destruct (Z.leb_spec (MaxClusters cfg) 0); [reflexivity | lia].
Qed.

(** X16: A negative [MaxClusters] gives a learner that cannot learn: [New]
    returns it, without a cache, since the constructor of the cache
    refuses the size and its error is dropped; then every [Train]
    panics on the nil cache, and so does [Clusters]; [Match] returns no
    cluster and changes nothing.  The state that [New] returned is the
    only one the learner reaches. *)
Theorem negative_MaxClusters (cfg : Config Regexp) (d : Drain Regexp) :
  MaxClusters cfg < 0 → reachable cfg d →
  New cfg = Ok d
  ∧ Clusters d = nil_dereference
  ∧ ∀ content, Train d content = nil_dereference
               ∧ Match d content = Ok (None, d).
Proof.
  intros Hneg Hd.
  assert (Hnew : ∀ d0, New cfg = Ok d0 →
            Clusters d0 = nil_dereference
            ∧ ∀ content, Train d0 content = nil_dereference
                         ∧ Match d0 content = Ok (None, d0)).
  { intros d0 HN. destruct (no_cache_state cfg d0 Hneg HN) as [Hcache Hroot].
    split.
    - unfold Clusters, ClusterCache_Values. now rewrite Hcache.
    - intros content. unfold Train, Match, treeSearch. rewrite Hroot, !lookup_empty.
      unfold mret, M_ret. cbn [mbind result_bind].
      unfold ClusterCache_Set. rewrite Hcache. cbn [mbind result_bind].
      split; [reflexivity|]. now destruct d0. }
  induction Hd as [d HN|d content c d' _ IH HT|d content c d' _ IH HM].
  - split; [exact HN | now apply Hnew].
  - destruct IH as (_ & _ & IH). destruct (IH content) as [HT' _].
    rewrite HT' in HT. discriminate.
  - destruct IH as (HN & _ & IH). destruct (IH content) as [_ HM'].
    rewrite HM' in HM. injection HM as _ <-.
    split; [exact HN | now apply Hnew].
Qed.

End NoCache.

(** ** The panics of [Train] *)

Section Panics.

Context {Regexp : Type} `{!Matcher Regexp} `{!Unicode}.

Lemma bind_M_Panic {A B : Type} (m : M A) (f : A → M B) (s : ClusterCache)
    (e : string) :
  (m ≫= f) s = Panic e →
  m s = Panic e ∨ ∃ a s1, m s = Ok (a, s1) ∧ f a s1 = Panic e.
Proof.
  unfold mbind, M_bind. destruct (m s) as [[a s1]|e0]; [eauto|].
  intros [= <-]. now left.
Qed.

Lemma ClusterCache_Get_Panic (key : Z) (s : ClusterCache) (e : string) :
  ClusterCache_Get key s = Panic e → @Panic unit e = nil_dereference.
Proof.
  unfold ClusterCache_Get. destruct (cache s) as [l|].
  - destruct (simplelru.Get key l). discriminate.
  - now intros [= <-].
Qed.

Lemma liveClusterIDs_Panic (clusterIDs : list Z) :
  ∀ s e, liveClusterIDs clusterIDs s = Panic e → @Panic unit e = nil_dereference.
Proof.
  induction clusterIDs as [|clusterID clusterIDs IH]; intros s e;
    cbn [liveClusterIDs].
  - discriminate.
  - intros [HG|(v & s1 & _ & Hrun)]%bind_M_Panic;
      [eapply ClusterCache_Get_Panic, HG|].
    apply bind_M_Panic in Hrun as [Hrun|(ids & s2 & _ & Hret)];
      [eapply IH, Hrun | discriminate].
Qed.

Lemma addSeqToPrefixTree_loop_Panic (cfg : Config Regexp) (cluster : Cluster.t)
    (tokens : list string) (tokenCount : Z) :
  ∀ curNode currentDepth s e,
    addSeqToPrefixTree_loop cfg cluster curNode tokens currentDepth tokenCount s
    = Panic e →
    @Panic unit e = nil_dereference.
Proof.
  induction tokens as [|token tokens IH]; intros curNode currentDepth s e;
    cbn [addSeqToPrefixTree_loop].
  - discriminate.
  - destruct ((maxNodeDepth cfg <=? currentDepth) || (tokenCount <=? currentDepth)).
    + intros [Hrun|(ids & s1 & _ & Hret)]%bind_M_Panic;
        [eapply liveClusterIDs_Panic, Hrun | discriminate].
    + destruct (chooseChild cfg curNode token) as [key|key].
      * intros [Hrun|(n' & s1 & _ & Hret)]%bind_M_Panic;
          [eapply IH, Hrun | discriminate].
      * destruct (keyToChildNode curNode !! key) as [child|].
        -- intros [Hrun|(n' & s1 & _ & Hret)]%bind_M_Panic;
             [eapply IH, Hrun | discriminate].
        -- destruct tokens; [discriminate|]. now intros [= <-].
Qed.

Lemma addSeqToPrefixTree_Panic (cfg : Config Regexp) (root : Node)
    (cluster : Cluster.t) (s : ClusterCache) (e : string) :
  addSeqToPrefixTree cfg root cluster s = Panic e →
  @Panic unit e = nil_dereference.
Proof.
  unfold addSeqToPrefixTree. destruct (len (Cluster.tokens cluster) =? 0).
  - discriminate.
  - intros [Hrun|(n' & s1 & _ & Hret)]%bind_M_Panic;
      [eapply addSeqToPrefixTree_loop_Panic, Hrun | discriminate].
Qed.

(** X10: In a state reached by fewer than 2^63 calls of [Train], the one
    panic that [Train] can raise is the dereference of a nil pointer
    (a cache that was refused, or a child that is missing): the checks
    of lengths in [getSeqDistance] and [createTemplate] never fail, and
    no index is out of range. *)
Theorem Train_panics_on_nil_only (cfg : Config Regexp) (n : nat)
    (d : Drain Regexp) (content : string) (e : string) :
  reachable_in cfg n d → Z.of_nat n < 2 ^ 63 →
  Train d content = Panic e →
  e = "invalid memory address or nil pointer dereference"%string.
Proof.
  intros Hd Hn.
  assert (Hnil : @Panic unit e = nil_dereference →
                 e = "invalid memory address or nil pointer dereference"%string).
  { now intros [= ->]. }
  destruct (reachable_in_state_ok cfg n d Hd Hn) as [(_ & _ & Htree & Hnone) _].
  set (tokens := Tokenizer (config d) content).
  destruct (treeSearch_returns (config d) _ _ _ tokens (SimTh (config d)) false
              Htree Hnone) as (r & cache1 & Hsearch).
  unfold Train. fold tokens. rewrite Hsearch. cbn [mbind result_bind].
  destruct r as [m|].
  - destruct (treeSearch_found _ _ _ _ _ _ _ _ Hsearch) as (leaf & id & Hleaf & Hin & Hm).
    destruct (leaf_of_ok _ _ _ _ _ _ Htree Hnone Hleaf) as (_ & Hids & _).
    rewrite Forall_forall in Hids. destruct (Hids id Hin) as [_ Hlen].
    specialize (Hlen m Hm).
    unfold createTemplate. rewrite Hlen, Z.eqb_refl. cbn [negb mbind result_bind].
    destruct (ClusterCache_Get _ _) as [[v cache3]|e0] eqn:HG;
      cbn [mbind result_bind]; [discriminate|].
    intros [= <-]. eapply Hnil, ClusterCache_Get_Panic, HG.
  - destruct (ClusterCache_Set _ _ _) as [[[] cache2]|e0] eqn:HS;
      cbn [mbind result_bind].
    + destruct (addSeqToPrefixTree _ _ _ _) as [[root' cache3]|e0] eqn:Hadd;
        cbn [mbind result_bind]; [discriminate|].
      intros [= <-]. eapply Hnil, addSeqToPrefixTree_Panic, Hadd.
    + intros [= <-]. apply Hnil. revert HS. unfold ClusterCache_Set.
      destruct (cache cache1); [discriminate|]. now intros [= <-].
Qed.

End Panics.

(** ** The sizes of the clusters count the lines *)

Section Sizes.

Context {Regexp : Type} `{!Matcher Regexp} `{!Unicode}.

Lemma without_fresh (key : Z) (l : list (Z * Cluster.t)) :
  key ∉ map fst l → simplelru.without key l = l.
Proof.
  unfold simplelru.without. induction l as [|[k x] l IH]; cbn; [reflexivity|].
  intros Hnot. destruct (Z.eqb_spec k key) as [->|Hne]; cbn.
  - destruct Hnot. apply list_elem_of_here.
  - rewrite IH; [reflexivity|]. intros Hin. apply Hnot. now apply list_elem_of_further.
Qed.

Lemma total_size_cons (c : Cluster.t) (cs : list Cluster.t) :
  total_size (c :: cs) = Cluster.size c + total_size cs.
Proof. reflexivity. Qed.

Lemma without_one (key : Z) (v : Cluster.t) (l : list (Z * Cluster.t)) :
  NoDup (map fst l) → (key, v) ∈ l →
  len (simplelru.without key l) + 1 = len l
  ∧ Cluster.size v + total_size (map snd (simplelru.without key l))
    = total_size (map snd l).
Proof.
  induction l as [|[k x] l IH]; [intros _ Hin; now apply elem_of_nil in Hin|].
  cbn [map fst]. intros [Hnot Hnd]%NoDup_cons Hin.
  apply elem_of_cons in Hin as [[= <- <-]|Hin].
  - change (simplelru.without key ((key, v) :: l))
      with (if negb (key =? key) then (key, v) :: simplelru.without key l
            else simplelru.without key l).
    rewrite Z.eqb_refl. cbn [negb]. rewrite without_fresh by exact Hnot.
    rewrite len_cons. cbn [map snd]. rewrite total_size_cons. lia.
  - assert (Hne : k ≠ key).
    { intros ->. apply Hnot. apply list_elem_of_In, in_map_iff.
      exists (key, v). split; [reflexivity | now apply list_elem_of_In]. }
    change (simplelru.without key ((k, x) :: l))
      with (if negb (k =? key) then (k, x) :: simplelru.without key l
            else simplelru.without key l).
    destruct (Z.eqb_spec k key) as [E|_]; [contradiction|]. cbn [negb].
    destruct (IH Hnd Hin) as [IHlen IHsum]. rewrite !len_cons. cbn [map snd].
    rewrite !total_size_cons. lia.
Qed.

Lemma total_size_store (k : Z) (m m' : Cluster.t) (l : list (Z * Cluster.t)) :
  NoDup (map fst l) → (k, m) ∈ l →
  total_size (map snd (map (λ e : Z * Cluster.t, if e.1 =? k then (e.1, m') else e) l))
  = total_size (map snd l) - Cluster.size m + Cluster.size m'.
Proof.
  induction l as [|[k0 x] l IH]; [intros _ Hin; now apply elem_of_nil in Hin|].
  cbn [map fst snd]. intros [Hnot Hnd]%NoDup_cons Hin.
  apply elem_of_cons in Hin as [[= <- <-]|Hin].
  - cbn [map fst snd]. rewrite Z.eqb_refl. cbn [snd]. rewrite !total_size_cons.
    assert (E : map (λ e : Z * Cluster.t, if e.1 =? k then (e.1, m') else e) l = l).
    { clear -Hnot. induction l as [|[k1 y] l IH]; cbn; [reflexivity|].
      destruct (Z.eqb_spec k1 k) as [->|Hne].
      - destruct Hnot. cbn. apply list_elem_of_here.
      - rewrite IH; [reflexivity|]. intros Hin. apply Hnot. cbn.
        now apply list_elem_of_further. }
    rewrite E. lia.
  - assert (Hne : k0 ≠ k).
    { intros ->. apply Hnot. apply list_elem_of_In, in_map_iff.
      exists (k, m). split; [reflexivity | now apply list_elem_of_In]. }
    cbn [map fst snd]. destruct (Z.eqb_spec k0 k) as [E|_]; [contradiction|].
    cbn [snd]. rewrite !total_size_cons, (IH Hnd Hin). lia.
Qed.

Lemma len_le_total_size (l : list (Z * Cluster.t)) :
  Forall (λ e : Z * Cluster.t, 1 ≤ Cluster.size e.2) l →
  len l ≤ total_size (map snd l)
  ∧ ∀ e, e ∈ l → Cluster.size e.2 ≤ total_size (map snd l).
Proof.
  induction 1 as [|e l He _ [IHlen IHin]].
  - split; [unfold len; cbn; lia|]. intros e He. now apply elem_of_nil in He.
  - rewrite len_cons. cbn [map]. rewrite total_size_cons.
    pose proof (len_nonneg l) as H0.
    split; [lia|]. intros e0 [->|Hin]%elem_of_cons; [lia|].
    specialize (IHin e0 Hin). lia.
Qed.

Lemma kept_sizes_ok (counter n : Z) :
  kept_by_Get (λ s, cache_ok counter s ∧ sizes_ok counter n s).
Proof.
  intros key s v s' HG [Hok Hsz]. split; [eapply kept_cache_ok; eauto|].
  revert HG. unfold ClusterCache_Get.
  destruct (cache s) as [l|] eqn:Hl; [|discriminate].
  destruct (simplelru.Get key l) as [v0 l'] eqn:HG. intros [= _ <-] l0 [= <-].
  destruct (Hok l Hl) as (_ & Hnd & _). destruct (Hsz l Hl) as (Hlen & Hsum & Hpos).
  destruct (Get_evictList key l) as [_ Hcase]. rewrite HG in Hcase. cbn in Hcase.
  destruct Hcase as [-> | (w & Hin & ->)]; [auto|].
  destruct (without_one key w _ Hnd Hin) as [Hlen' Hsum'].
  rewrite len_cons. cbn [map snd]. rewrite total_size_cons.
  split; [lia|]. split; [lia|].
  rewrite Forall_forall in Hpos. constructor; [apply (Hpos _ Hin)|].
  apply Forall_forall. intros e He. apply Hpos.
  eapply sublist_subseteq; [apply without_sublist | exact He].
Qed.

Lemma sizes_ok_store (counter n : Z) (m m' : Cluster.t) (s : ClusterCache) :
  cache_ok counter s → sizes_ok counter n s →
  cached (Cluster.id m') s = Some m → 1 ≤ Cluster.size m' →
  sizes_ok counter (n - Cluster.size m + Cluster.size m') (ClusterCache_store m' s).
Proof.
  intros Hok Hsz Hm Hpos l. unfold ClusterCache_store. cbn.
  destruct (cache s) as [l0|] eqn:Hl; [|discriminate]. intros [= <-]. cbn.
  destruct (Hok l0 Hl) as (_ & Hnd & _). destruct (Hsz l0 Hl) as (Hlen & Hsum & Hall).
  destruct (cached_elem _ _ _ Hm) as (l1 & Hl1 & Hin).
  rewrite Hl in Hl1. injection Hl1 as <-.
  split; [|split].
  - unfold len in *. now rewrite length_map.
  - rewrite (total_size_store _ m m' _ Hnd Hin). lia.
  - apply Forall_forall. intros e (e0 & -> & He0)%list_elem_of_fmap.
    rewrite Forall_forall in Hall.
    destruct (e0.1 =? Cluster.id m'); [exact Hpos | now apply Hall].
Qed.

Lemma sizes_ok_Set (counter n : Z) (c : Cluster.t) (s s' : ClusterCache) :
  cache_ok counter s → sizes_ok counter n s →
  (∀ l, cache s = Some l → n + 1 ≤ simplelru.size l) →
  Cluster.size c = 1 →
  ClusterCache_Set (counter + 1) c s = Ok ((), s') →
  sizes_ok (counter + 1) (n + 1) s'.
Proof.
  intros Hok Hsz Hcap Hc. unfold ClusterCache_Set.
  destruct (cache s) as [l|] eqn:Hl; [|discriminate]. intros [= <-] l0 [= <-].
  destruct (Hok l Hl) as (_ & _ & Hall). destruct (Hsz l Hl) as (Hlen & Hsum & Hpos).
  destruct (has_false counter (counter + 1) _ Hall ltac:(lia)) as [Hhas _].
  destruct (len_le_total_size _ Hpos) as [Hle _].
  specialize (Hcap l eq_refl).
  unfold simplelru.Add. rewrite Hhas.
  destruct (Z.ltb_spec (simplelru.size l) (len ((counter + 1, c) :: simplelru.evictList l)))
    as [Hlt|_]; [rewrite len_cons in Hlt; lia|].
  cbn [simplelru.evictList]. rewrite len_cons. cbn [map snd].
  rewrite total_size_cons.
  split; [lia|]. split; [lia|]. constructor; [cbn; lia | exact Hpos].
Qed.

(** A call of [Train] that evicts nothing: one line more is counted. *)
Lemma Train_sizes_ok (cap n : Z) (d : Drain Regexp) (content : string)
    (c : Cluster.t) (d' : Drain Regexp) :
  state_ok d → cache_capped cap (idToCluster d) →
  sizes_ok (clustersCounter d) n (idToCluster d) →
  n + 1 ≤ cap → n + 1 < 2 ^ 63 → clustersCounter d < MaxInt →
  Train d content = Ok (c, d') →
  sizes_ok (clustersCounter d') (n + 1) (idToCluster d').
Proof.
  intros (Hcounter & Hok & _ & _) Hcap Hsz Hn Hint Hmax. unfold Train.
  set (K := λ s, cache_ok (clustersCounter d) s ∧ sizes_ok (clustersCounter d) n s).
  destruct (treeSearch _ _ _ _ _ _) as [[[m|] cache1]|] eqn:Hsearch;
    cbn [mbind result_bind]; [| |discriminate].
  - assert (H1 : K cache1).
    { eapply (treeSearch_keeps K); [apply kept_sizes_ok | exact Hsearch | now split]. }
    destruct H1 as [Hok1 Hsz1].
    destruct (treeSearch_cached _ _ _ _ _ _ _ _ Hsearch) as [Hk Hm].
    destruct (Hm m eq_refl) as [key Hkey]. rewrite <- Hk in Hkey.
    destruct (cache_ok_cached _ _ _ _ Hok1 Hkey) as [<- _].
    destruct (createTemplate _ _ _) as [T'|]; cbn [mbind result_bind]; [|discriminate].
    destruct (ClusterCache_Get _ _) as [[v cache3]|] eqn:HG; cbn [mbind result_bind];
      [|discriminate].
    intros [= <- <-]. cbn [idToCluster clustersCounter].
    destruct (cached_elem _ _ _ Hkey) as (l & Hl & Hin).
    destruct (Hsz1 l Hl) as (_ & Hsum & Hpos).
    destruct (len_le_total_size _ Hpos) as [_ Hle]. specialize (Hle _ Hin).
    rewrite Forall_forall in Hpos. specialize (Hpos _ Hin). cbn [snd] in Hle, Hpos.
    assert (Hincr : incr (Cluster.size m) = Cluster.size m + 1).
    { apply incr_next; [lia | unfold MaxInt; lia]. }
    set (m' := Cluster.mk T' (Cluster.id m) (incr (Cluster.size m))) in *.
    assert (H2 : cache_ok (clustersCounter d) (ClusterCache_store m' cache1)
                 ∧ sizes_ok (clustersCounter d) (n + 1) (ClusterCache_store m' cache1) →
                 sizes_ok (clustersCounter d) (n + 1) cache3).
    { intros HK. eapply (kept_sizes_ok _ (n + 1)); [exact HG | exact HK]. }
    apply H2. split; [now apply cache_ok_store|].
    replace (n + 1) with (n - Cluster.size m + Cluster.size m')
      by (subst m'; cbn; lia).
    apply sizes_ok_store; [exact Hok1 | exact Hsz1 | exact Hkey | subst m'; cbn; lia].
  - assert (H1 : K cache1 ∧ cache_capped cap cache1).
    { split.
      - eapply (treeSearch_keeps K); [apply kept_sizes_ok | exact Hsearch | now split].
      - eapply treeSearch_keeps; [apply kept_cache_capped | exact Hsearch | exact Hcap]. }
    destruct H1 as [[Hok1 Hsz1] Hcap1].
    rewrite (incr_next _ Hcounter Hmax).
    destruct (ClusterCache_Set _ _ _) as [[[] cache2]|] eqn:HS; cbn [mbind result_bind];
      [|discriminate].
    destruct (addSeqToPrefixTree _ _ _ _) as [[root' cache3]|] eqn:Hadd;
      cbn [mbind result_bind]; [|discriminate].
    intros [= <- <-]. cbn [idToCluster clustersCounter].
    assert (H2 : cache_ok (clustersCounter d + 1) cache2
                 ∧ sizes_ok (clustersCounter d + 1) (n + 1) cache2).
    { split.
      - eapply ClusterCache_Set_next; [exact Hok1 | exact Hcounter | | exact HS].
        reflexivity.
      - eapply sizes_ok_Set; [exact Hok1 | exact Hsz1 | | | exact HS]; [|reflexivity].
        intros l Hl. destruct (Hcap1 l Hl) as [-> _]. exact Hn. }
    eapply (addSeqToPrefixTree_keeps
              (λ s, cache_ok (clustersCounter d + 1) s
                    ∧ sizes_ok (clustersCounter d + 1) (n + 1) s));
      [apply kept_sizes_ok | exact Hadd | exact H2].
Qed.

Lemma reachable_in_sizes_ok (cfg : Config Regexp) (n : nat) (d : Drain Regexp) :
  reachable_in cfg n d → Z.of_nat n < 2 ^ 63 →
  Z.of_nat n ≤ (if MaxClusters cfg =? 0 then MaxInt else MaxClusters cfg) →
  sizes_ok (clustersCounter d) (Z.of_nat n) (idToCluster d).
Proof.
  induction 1 as [d HN|n d content c d' Hd IH HT|n d content c d' Hd IH HM];
    intros Hint Hcap.
  - unfold New in HN. destruct (ClusterDepth cfg <? 3); [discriminate|].
    injection HN as <-. cbn. unfold createClusterCache, simplelru.NewLRU.
    intros l. cbn. destruct (_ <=? 0); [discriminate|].
    intros [= <-]. cbn. split; [reflexivity|]. split; [reflexivity | constructor].
  - destruct (reachable_in_state_ok cfg n d Hd ltac:(lia)) as [Hok Hle].
    replace (Z.of_nat (S n)) with (Z.of_nat n + 1) in * by lia.
    eapply Train_sizes_ok; [exact Hok | | apply IH; lia | exact Hcap | exact Hint
                            | unfold MaxInt; lia | exact HT].
    apply reachable_capped. eapply reachable_in_reachable, Hd.
  - specialize (IH Hint Hcap).
    destruct (reachable_in_state_ok cfg n d Hd Hint) as [(_ & Hok & _ & _) _].
    unfold Match in HM.
    destruct (treeSearch _ _ _ _ _ _) as [[r cache1]|] eqn:Hsearch;
      cbn [mbind result_bind] in HM; [|discriminate].
    injection HM as _ <-. cbn.
    eapply (treeSearch_keeps
              (λ s, cache_ok (clustersCounter d) s
                    ∧ sizes_ok (clustersCounter d) (Z.of_nat n) s));
      [apply kept_sizes_ok | exact Hsearch | now split].
Qed.

Lemma total_size_app (a b : list Cluster.t) :
  total_size (a ++ b) = total_size a + total_size b.
Proof.
  induction a as [|x a IH]; [reflexivity|].
  cbn [app]. rewrite !total_size_cons. lia.
Qed.

Lemma total_size_rev (a : list Cluster.t) : total_size (rev a) = total_size a.
Proof.
  induction a as [|x a IH]; cbn [rev]; [reflexivity|].
  rewrite total_size_app, IH, !total_size_cons. cbn. lia.
Qed.

Lemma omap_Peek_keys (l : simplelru.LRU) (l' : list (Z * Cluster.t)) :
  NoDup (map fst (simplelru.evictList l)) →
  (∀ e, e ∈ l' → e ∈ simplelru.evictList l) →
  omap (λ key, simplelru.Peek key l) (map fst l') = map snd l'.
Proof.
  intros Hnd. induction l' as [|[k x] l' IH]; intros Hsub; cbn; [reflexivity|].
  unfold simplelru.Peek at 1.
  rewrite (find_key _ k x Hnd) by apply Hsub, list_elem_of_here. cbn.
  f_equal. apply IH. intros e He. apply Hsub. now apply list_elem_of_further.
Qed.

(** X15: While the number of the calls of [Train] is within the capacity of
    the cache (and below 2^63), no cluster is evicted and every line is
    counted once: [Clusters] lists as many clusters as the counter of
    clusters says, and their sizes add up to the number of the calls of
    [Train]. *)
Theorem Clusters_sizes_count_lines (cfg : Config Regexp) (n : nat)
    (d : Drain Regexp) (cs : list Cluster.t) :
  reachable_in cfg n d → Z.of_nat n < 2 ^ 63 →
  Z.of_nat n ≤ (if MaxClusters cfg =? 0 then MaxInt else MaxClusters cfg) →
  Clusters d = Ok cs →
  total_size cs = Z.of_nat n ∧ len cs = clustersCounter d.
Proof.
  intros Hd Hint Hcap.
  pose proof (reachable_in_sizes_ok cfg n d Hd Hint Hcap) as Hsz.
  destruct (reachable_in_state_ok cfg n d Hd Hint) as [(_ & Hok & _ & _) _].
  unfold Clusters, ClusterCache_Values.
  destruct (cache (idToCluster d)) as [l|] eqn:Hl; [|discriminate]. intros [= <-].
  destruct (Hok l Hl) as (_ & Hnd & _). destruct (Hsz l Hl) as (Hlen & Hsum & _).
  unfold simplelru.Keys. rewrite <- map_rev.
  rewrite (omap_Peek_keys l (rev (simplelru.evictList l)) Hnd).
  - rewrite map_rev, total_size_rev. split; [exact Hsum|].
    unfold len in *. now rewrite length_rev, length_map.
  - intros e He. apply list_elem_of_In. apply list_elem_of_In in He.
    now apply in_rev.
Qed.

End Sizes.

(** ** What a later [Match] sees of a [Match] *)

Section Repeat.

Context {Regexp : Type} `{!Matcher Regexp} `{!Unicode}.

(** The scan of a bucket reads the cache through the records it holds
    only: on two caches that hold the same records it finds the same. *)
Lemma fastMatch_loop_ext (cfg : Config Regexp) (clusterIDs : list Z)
    (tokens : list string) (includeParams : bool) :
  ∀ maxSim maxParamCount maxCluster s1 s2 r s1',
    (∀ k, cached k s1 = cached k s2) → cache s2 ≠ None →
    fastMatch_loop cfg clusterIDs tokens includeParams
      maxSim maxParamCount maxCluster s1 = Ok (r, s1') →
    ∃ s2', fastMatch_loop cfg clusterIDs tokens includeParams
             maxSim maxParamCount maxCluster s2 = Ok (r, s2').
Proof.
  induction clusterIDs as [|clusterID clusterIDs IH];
    intros maxSim maxParamCount maxCluster s1 s2 r s1' Hs Hsome;
    cbn [fastMatch_loop].
  - unfold mret, M_ret. intros [= <- _]. eauto.
  - intros Hrun. apply bind_M_Ok in Hrun as (v & s1a & HG & Hrun).
    destruct (ClusterCache_Get_Ok _ _ _ _ HG) as [-> Hs1].
    destruct (ClusterCache_Get_returns clusterID s2 Hsome) as [s2a HG2].
    rewrite (bind_M_run _ _ _ _ _ HG2).
    destruct (ClusterCache_Get_Ok _ _ _ _ HG2) as [_ Hs2].
    assert (Hs' : ∀ k, cached k s1a = cached k s2a).
    { intros k. now rewrite Hs1, Hs2. }
    pose proof (ClusterCache_Get_some _ _ _ _ HG2) as Hsome'.
    rewrite <- Hs. destruct (cached clusterID s1) as [c|].
    + apply bind_M_Ok in Hrun as ([sim pc] & s1b & Hl & Hrun).
      apply lift_Ok in Hl as [Hd ->].
      assert (Hl : lift (getSeqDistance cfg (Cluster.tokens c) tokens includeParams) s2a
                   = Ok ((sim, pc), s2a)).
      { unfold lift. now rewrite Hd. }
      rewrite (bind_M_run _ _ _ _ _ Hl).
      destruct (f_gt sim maxSim || f_eq sim maxSim && (maxParamCount <? pc));
        eapply IH; eauto.
    + eapply IH; eauto.
Qed.

Lemma treeSearch_ext (cfg : Config Regexp) (root : Node) (tokens : list string)
    (simTh : Q) (includeParams : bool) (s1 s2 s1' : ClusterCache)
    (r : option Cluster.t) :
  (∀ k, cached k s1 = cached k s2) → cache s2 ≠ None →
  treeSearch cfg root tokens simTh includeParams s1 = Ok (r, s1') →
  ∃ s2', treeSearch cfg root tokens simTh includeParams s2 = Ok (r, s2').
Proof.
  intros Hs Hsome. rewrite !treeSearch_leaf_of.
  destruct (leaf_of cfg root tokens) as [leaf|].
  - destruct (len tokens =? 0).
    + destruct (clusterIDs leaf) as [|clusterID ids].
      * intros Hrun. apply lift_Ok in Hrun as [? _]. discriminate.
      * intros HG. apply ClusterCache_Get_Ok in HG as [-> _].
        rewrite Hs. now apply ClusterCache_Get_returns.
    + unfold fastMatch. intros Hrun.
      apply bind_M_Ok in Hrun as ([maxSim maxCluster] & s1a & Hloop & Hret).
      destruct (fastMatch_loop_ext _ _ _ _ _ _ _ _ _ _ _ Hs Hsome Hloop) as [s2a Hloop2].
      rewrite (bind_M_run _ _ _ _ _ Hloop2).
      unfold mret, M_ret in *. injection Hret as <- _. eauto.
  - unfold mret, M_ret. intros [= <- _]. eauto.
Qed.

(** Under one visiting order of the patterns, a [Match] does not
    change what a later [Match] returns. *)
Lemma Match_then_Match_one_order (d : Drain Regexp) (content : string)
    (r : option Cluster.t) (d' : Drain Regexp)
    (content2 : string) (r2 : option Cluster.t) (d2 : Drain Regexp) :
  Match d content = Ok (r, d') →
  Match d content2 = Ok (r2, d2) →
  ∃ d2', Match d' content2 = Ok (r2, d2').
Proof.
  unfold Match.
  destruct (treeSearch _ _ (Tokenizer (config d) content) _ _ _)
    as [[r0 cache1]|] eqn:Hsearch; cbn [mbind result_bind]; [|discriminate].
  intros [= <- <-]. cbn [config rootNode idToCluster clustersCounter].
  destruct (treeSearch _ _ (Tokenizer (config d) content2) _ _ _)
    as [[r3 cache2]|] eqn:Hsearch2; cbn [mbind result_bind]; [|discriminate].
  intros [= <- <-].
  destruct (treeSearch_cached _ _ _ _ _ _ _ _ Hsearch) as [Hk _].
  destruct (cache (idToCluster d)) as [l|] eqn:Hl.
  - assert (Hsome : cache cache1 ≠ None).
    { eapply (treeSearch_keeps (λ s, cache s ≠ None));
        [apply kept_some | exact Hsearch | congruence]. }
    destruct (treeSearch_ext _ _ _ _ _ _ cache1 _ _
                (λ k, eq_sym (Hk k)) Hsome Hsearch2) as [s2' ->].
    cbn. eauto.
  - assert (E : cache1 = idToCluster d).
    { revert Hsearch. rewrite treeSearch_leaf_of.
      destruct (leaf_of _ _ _) as [leaf|]; [|now intros [= _ <-]].
      destruct (len _ =? 0).
      - destruct (clusterIDs leaf); [intros [? _]%lift_Ok; discriminate|].
        unfold ClusterCache_Get. now rewrite Hl.
      - unfold fastMatch. intros Hrun.
        apply bind_M_Ok in Hrun as ([maxSim maxCluster] & s1a & Hloop & Hret).
        unfold mret, M_ret in Hret. injection Hret as _ <-.
        revert Hloop. destruct (clusterIDs leaf); cbn [fastMatch_loop].
        + now intros [= _ _ <-].
        + intros (v & s1b & HG & _)%bind_M_Ok. revert HG.
          unfold ClusterCache_Get. now rewrite Hl. }
    rewrite E, Hsearch2. cbn. eauto.
Qed.

End Repeat.

(** ** The keys of the tree *)

Section Keys.

Context {Regexp : Type} `{!Matcher Regexp} `{!Unicode}.








End Keys.

(** ** Runs, counted *)

Section CountedRuns.

Context {Regexp : Type} `{!Matcher Regexp} `{!Unicode}.

Lemma train_lines_reachable_in (cfg : Config Regexp) (lines : list string) :
  ∀ (n : nat) (d d' : Drain Regexp),
    reachable_in cfg n d → train_lines d lines = Ok d' →
    reachable_in cfg (n + length lines) d'.
Proof.
  induction lines as [|line lines IH]; intros n d d' Hd; cbn [train_lines length].
  - intros [= <-]. now rewrite Nat.add_0_r.
  - destruct (Train d line) as [[c d1]|] eqn:HT; cbn; [|discriminate].
    intros Hrun. rewrite Nat.add_succ_r. apply (IH (S n) d1 d'); [|exact Hrun].
    eapply reachable_in_Train; eauto.
Qed.

Lemma learner_reachable_in (cfg : Config Regexp) (lines : list string)
    (d : Drain Regexp) :
  learner cfg lines = Ok d → reachable_in cfg (length lines) d.
Proof.
  unfold learner. destruct (New cfg) as [d0|] eqn:HNew; cbn; [|discriminate].
  apply (train_lines_reachable_in cfg lines 0). now apply reachable_in_New.
Qed.

End CountedRuns.

(** ** The visiting order of the patterns *)

Section Orders.

Context {Regexp : Type} `{!Matcher Regexp} `{!Unicode}.

Lemma existsb_perm {A : Type} (f : A → bool) (l l' : list A) :
  l ≡ₚ l' → existsb f l = existsb f l'.
Proof.
  induction 1 as [|x l l' _ IH|x y l|l l' l'' _ IH1 _ IH2]; cbn.
  - reflexivity.
  - now rewrite IH.
  - destruct (f x), (f y); reflexivity.
  - congruence.
Qed.

(** Two configurations that differ in the order of their patterns
    agree on the tokens that every order classifies alike. *)
Lemma perm_agree (tokens : list string) (cfg cfg' : Config Regexp) :
  maxNodeDepth cfg' = maxNodeDepth cfg → SimTh cfg' = SimTh cfg →
  MaxChildren cfg' = MaxChildren cfg → Tokenizer cfg' = Tokenizer cfg →
  ParamPatterns cfg' ≡ₚ ParamPatterns cfg →
  Forall (one_label (ParamPatterns cfg)) tokens →
  agree tokens cfg cfg'.
Proof.
  intros Hd Hs Hc Ht Hperm Hone. unfold agree.
  split; [exact Hd|]. split; [exact Hs|]. split; [exact Hc|]. split; [exact Ht|].
  split.
  - intros t. unfold isParamString. now apply existsb_perm.
  - eapply Forall_impl; [exact Hone|]. intros t Ht1. unfold getParamString.
    now apply getParamString_range_perm.
Qed.

Lemma with_patterns_agree (tokens : list string) (cfg : Config Regexp)
    (patterns : list (string * Regexp)) :
  patterns ≡ₚ ParamPatterns cfg →
  Forall (one_label (ParamPatterns cfg)) tokens →
  agree tokens cfg (with_patterns patterns cfg).
Proof. intros Hperm Hone. now apply perm_agree. Qed.

Lemma getSeqDistance_agree (cfg cfg' : Config Regexp) (seq1 seq2 : list string)
    (includeParams : bool) :
  (∀ t, isParamString cfg' t = isParamString cfg t) →
  getSeqDistance cfg' seq1 seq2 includeParams
  = getSeqDistance cfg seq1 seq2 includeParams.
Proof.
  intros Hp. unfold getSeqDistance.
  assert (E : ∀ s1 s2 a b, getSeqDistance_loop cfg' s1 s2 a b
                           = getSeqDistance_loop cfg s1 s2 a b).
  { induction s1 as [|t1 s1 IH]; intros [|t2 s2] a b; cbn [getSeqDistance_loop];
      try reflexivity.
    rewrite Hp. destruct (isParamString cfg t1); [apply IH|].
    destruct (String.eqb t1 t2); apply IH. }
  now rewrite E.
Qed.

Lemma createTemplate_agree (cfg cfg' : Config Regexp) (source target : list string) :
  Forall (λ t, getParamString cfg' t = getParamString cfg t) source →
  createTemplate cfg' source target = createTemplate cfg source target.
Proof.
  intros Hl. unfold createTemplate. f_equal.
  destruct (negb _); [reflexivity|]. f_equal.
  revert target. induction Hl as [|s source Hs _ IH]; intros [|t target];
    cbn [createTemplate_loop]; try reflexivity.
  now rewrite Hs, IH.
Qed.

Lemma fastMatch_agree (cfg cfg' : Config Regexp) (clusterIDs : list Z)
    (tokens : list string) (simTh : Q) (includeParams : bool) (s : ClusterCache) :
  (∀ t, isParamString cfg' t = isParamString cfg t) →
  fastMatch cfg' clusterIDs tokens simTh includeParams s
  = fastMatch cfg clusterIDs tokens simTh includeParams s.
Proof.
  intros Hp. unfold fastMatch.
  assert (E : ∀ ids maxSim maxParamCount maxCluster s0,
             fastMatch_loop cfg' ids tokens includeParams maxSim maxParamCount
               maxCluster s0
             = fastMatch_loop cfg ids tokens includeParams maxSim maxParamCount
                 maxCluster s0).
  { induction ids as [|id ids IH]; intros maxSim maxParamCount maxCluster s0;
      cbn [fastMatch_loop]; [reflexivity|].
    unfold mbind, M_bind. destruct (ClusterCache_Get id s0) as [[[c|] s1]|];
      [|apply IH|reflexivity].
    rewrite (getSeqDistance_agree cfg cfg') by exact Hp.
    destruct (lift _ s1) as [[[sim pc] s2]|]; [|reflexivity].
    destruct (f_gt sim maxSim || f_eq sim maxSim && (maxParamCount <? pc));
      apply IH. }
  unfold mbind, M_bind. now rewrite E.
Qed.

Lemma treeSearch_loop_agree (cfg cfg' : Config Regexp) (tokens : list string)
    (tokenCount : Z) :
  maxNodeDepth cfg' = maxNodeDepth cfg →
  Forall (λ t, getParamString cfg' t = getParamString cfg t) tokens →
  ∀ curNode curNodeDepth,
    treeSearch_loop cfg' curNode tokens curNodeDepth tokenCount
    = treeSearch_loop cfg curNode tokens curNodeDepth tokenCount.
Proof.
  intros Hd Hl. induction Hl as [|t tokens Ht _ IH]; intros curNode curNodeDepth;
    cbn [treeSearch_loop]; [reflexivity|].
  rewrite Hd, Ht. destruct (_ <=? _); [reflexivity|].
  destruct (_ =? _); [reflexivity|].
  destruct (keyToChildNode curNode !! t); [apply IH|].
  destruct (keyToChildNode curNode !! getParamString cfg t); [apply IH | reflexivity].
Qed.

Lemma leaf_of_agree (cfg cfg' : Config Regexp) (root : Node) (tokens : list string) :
  agree tokens cfg cfg' → leaf_of cfg' root tokens = leaf_of cfg root tokens.
Proof.
  intros (Hd & _ & _ & _ & _ & Hl). unfold leaf_of.
  destruct (keyToChildNode root !! _); [|reflexivity].
  destruct (len tokens =? 0); [reflexivity|]. now apply treeSearch_loop_agree.
Qed.

Lemma treeSearch_agree (cfg cfg' : Config Regexp) (root : Node) (tokens : list string)
    (simTh : Q) (includeParams : bool) (s : ClusterCache) :
  agree tokens cfg cfg' →
  treeSearch cfg' root tokens simTh includeParams s
  = treeSearch cfg root tokens simTh includeParams s.
Proof.
  intros Ha. rewrite !treeSearch_leaf_of, (leaf_of_agree cfg cfg') by exact Ha.
  destruct Ha as (_ & _ & _ & _ & Hp & _).
  destruct (leaf_of cfg root tokens); [|reflexivity].
  destruct (len tokens =? 0); [reflexivity|]. now apply fastMatch_agree.
Qed.

Lemma addSeqToPrefixTree_agree (cfg cfg' : Config Regexp) (root : Node)
    (cluster : Cluster.t) (s : ClusterCache) :
  agree (Cluster.tokens cluster) cfg cfg' →
  addSeqToPrefixTree cfg' root cluster s = addSeqToPrefixTree cfg root cluster s.
Proof.
  intros (Hd & _ & Hc & _ & _ & Hl). unfold addSeqToPrefixTree.
  destruct (len (Cluster.tokens cluster) =? 0); [reflexivity|].
  assert (E : ∀ tokens, Forall (λ t, getParamString cfg' t = getParamString cfg t) tokens →
             ∀ curNode currentDepth tokenCount s0,
               addSeqToPrefixTree_loop cfg' cluster curNode tokens currentDepth
                 tokenCount s0
               = addSeqToPrefixTree_loop cfg cluster curNode tokens currentDepth
                   tokenCount s0).
  { induction 1 as [|t tokens Ht _ IH]; intros curNode currentDepth tokenCount s0;
      cbn [addSeqToPrefixTree_loop]; [reflexivity|].
    rewrite Hd. destruct (_ || _); [reflexivity|].
    assert (Hchoose : chooseChild cfg' curNode t = chooseChild cfg curNode t).
    { unfold chooseChild. now rewrite Ht, Hc. }
    rewrite Hchoose. destruct (chooseChild cfg curNode t) as [key|key].
    - unfold mbind, M_bind. now rewrite IH.
    - destruct (keyToChildNode curNode !! key); [|reflexivity].
      unfold mbind, M_bind. now rewrite IH. }
  unfold mbind, M_bind. now rewrite E.
Qed.

(** A call of [Train] that visits the patterns in another order does
    the same, when the two orders agree on the tokens of the line. *)
Lemma Train_agree (cfg' : Config Regexp) (d : Drain Regexp) (content : string) :
  agree (Tokenizer (config d) content) (config d) cfg' →
  Train (mkDrain cfg' (rootNode d) (idToCluster d) (clustersCounter d)) content
  = result_map (λ cd, (cd.1, mkDrain cfg' (rootNode cd.2) (idToCluster cd.2)
                               (clustersCounter cd.2)))
      (Train d content).
Proof.
  intros Ha. pose proof Ha as (_ & Hs & _ & Ht & _ & Hl).
  unfold Train. cbn [config rootNode idToCluster clustersCounter].
  rewrite Ht, Hs, (treeSearch_agree (config d) cfg') by exact Ha.
  destruct (treeSearch _ _ _ _ _ _) as [[[m|] cache1]|]; cbn [mbind result_bind];
    [| |reflexivity].
  - rewrite (createTemplate_agree (config d) cfg') by exact Hl.
    destruct (createTemplate _ _ _) as [T'|]; cbn [mbind result_bind]; [|reflexivity].
    destruct (ClusterCache_Get _ _) as [[v cache3]|]; reflexivity.
  - destruct (ClusterCache_Set _ _ _) as [[[] cache2]|]; cbn [mbind result_bind];
      [|reflexivity].
    rewrite (addSeqToPrefixTree_agree (config d) cfg') by exact Ha.
    destruct (addSeqToPrefixTree _ _ _ _) as [[root' cache3]|]; reflexivity.
Qed.

Lemma Match_agree (cfg' : Config Regexp) (d : Drain Regexp) (content : string) :
  agree (Tokenizer (config d) content) (config d) cfg' →
  Match (mkDrain cfg' (rootNode d) (idToCluster d) (clustersCounter d)) content
  = result_map (λ cd, (cd.1, mkDrain cfg' (rootNode cd.2) (idToCluster cd.2)
                               (clustersCounter cd.2)))
      (Match d content).
Proof.
  intros Ha. pose proof Ha as (_ & _ & _ & Ht & _ & _).
  unfold Match. cbn [config rootNode idToCluster clustersCounter].
  rewrite Ht, (treeSearch_agree (config d) cfg') by exact Ha.
  destruct (treeSearch _ _ _ _ _ _) as [[r cache1]|]; reflexivity.
Qed.

Lemma train_lines_visit (patterns : list (string * Regexp)) (lines : list string) :
  ∀ d : Drain Regexp,
    patterns ≡ₚ ParamPatterns (config d) →
    (∀ line token, line ∈ lines → token ∈ Tokenizer (config d) line →
                   one_label (ParamPatterns (config d)) token) →
    train_lines (visit patterns d) lines
    = result_map (visit patterns) (train_lines d lines).
Proof.
  induction lines as [|line lines IH]; intros d Hperm Hone; cbn [train_lines];
    [reflexivity|].
  unfold visit at 1. rewrite Train_agree.
  - destruct (Train d line) as [[c d1]|] eqn:HT; cbn [result_map mbind result_bind];
      [|reflexivity].
    destruct (Train_Ok _ _ _ _ HT) as [Hcfg _]. cbn [fst snd].
    rewrite <- Hcfg. apply IH; rewrite Hcfg; [exact Hperm|].
    intros l t Hl. apply Hone. now apply list_elem_of_further.
  - apply with_patterns_agree; [exact Hperm|]. apply Forall_forall.
    intros t. apply Hone, list_elem_of_here.
Qed.

End Orders.

(** ** The properties that compare two calls, under any visiting orders *)

Section TwoCalls.

Context {Regexp : Type} `{!Matcher Regexp} `{!Unicode}.

Lemma one_label_perm (patterns patterns' : list (string * Regexp)) (token : string) :
  patterns' ≡ₚ patterns → one_label patterns token → one_label patterns' token.
Proof.
  intros Hperm Hone l1 p1 l2 p2 H1 H2. rewrite Hperm in H1, H2.
  now apply Hone.
Qed.

Lemma visit_agree (patterns : list (string * Regexp)) (d : Drain Regexp)
    (content : string) :
  patterns ≡ₚ ParamPatterns (config d) →
  Forall (one_label (ParamPatterns (config d))) (Tokenizer (config d) content) →
  Match (visit patterns d) content
  = result_map (λ cd, (cd.1, visit patterns cd.2)) (Match d content).
Proof.
  intros Hperm Hone. unfold visit at 1. rewrite Match_agree.
  - destruct (Match d content) as [[r d1]|] eqn:HM; cbn [result_map]; [|reflexivity].
    destruct (Match_Ok _ _ _ _ HM) as (Hcfg & _). cbn [fst snd]. unfold visit.
    now rewrite Hcfg.
  - now apply with_patterns_agree.
Qed.

(** C6, as amended: the code imposes no order on the map of patterns,
    but the order does not matter for the tokens whose accepting
    entries all carry one label: two visits of the map, in any two
    orders, classify such a token alike; and when the tokens of the
    lines are such tokens, two runs of the learner over the lines, the
    map visited in any two orders, go the same way and leave identical
    trees, caches and counters ([visit] changes the order of the
    patterns and nothing else). *)
Theorem visiting_order_irrelevant (cfg : Config Regexp)
    (patterns : list (string * Regexp)) :
  patterns ≡ₚ ParamPatterns cfg →
  (∀ token, one_label (ParamPatterns cfg) token →
            getParamString (with_patterns patterns cfg) token
            = getParamString cfg token)
  ∧ ∀ lines,
      (∀ line token, line ∈ lines → token ∈ Tokenizer cfg line →
                     one_label (ParamPatterns cfg) token) →
      learner (with_patterns patterns cfg) lines
      = result_map (visit patterns) (learner cfg lines).
Proof.
  intros Hperm. split.
  - intros token Hone. unfold getParamString. cbn [ParamPatterns with_patterns].
    now apply getParamString_range_perm.
  - intros lines Hone. unfold learner, New. cbn [ClusterDepth with_patterns].
    destruct (ClusterDepth cfg <? 3); [reflexivity|]. cbn [mbind result_bind].
    match goal with
    | |- _ = result_map _ (train_lines ?d0 lines) =>
        rewrite <- (train_lines_visit patterns lines d0)
    end; [reflexivity | exact Hperm | exact Hone].
Qed.

(** X2: The template update keeps the length of the template and is
    idempotent for a line whose tokens every visiting order of the
    patterns classifies alike: updating the updated template with the
    same line, the patterns visited in any order, changes nothing.
    (It panics exactly when the lengths differ.) *)
Theorem createTemplate_idempotent (cfg : Config Regexp) (source target : list string) :
  (length source ≠ length target →
   createTemplate cfg source target = Panic "source, target be of same length")
  ∧ (length source = length target →
     ∃ T', createTemplate cfg source target = Ok T'
           ∧ length T' = length target
           ∧ ∀ patterns,
               patterns ≡ₚ ParamPatterns cfg →
               Forall (one_label (ParamPatterns cfg)) source →
               createTemplate (with_patterns patterns cfg) source T' = Ok T').
Proof.
  destruct (createTemplate_twice cfg source target) as [Hpanic Hok].
  split; [exact Hpanic|]. intros Hlen.
  destruct (Hok Hlen) as (T' & HT & HlenT & Hagain).
  exists T'. split; [exact HT|]. split; [exact HlenT|].
  intros patterns Hperm Hone.
  rewrite (createTemplate_agree cfg (with_patterns patterns cfg)); [exact Hagain|].
  eapply Forall_impl; [exact Hone|]. intros t Ht. unfold getParamString.
  now apply getParamString_range_perm.
Qed.

(** X5: Insertion and search agree on a cluster whose tokens every
    visiting order of the patterns classifies alike: after the cluster
    is inserted, the search of the tokens of its template, the
    patterns visited in any order, stops at a node whose bucket ends
    with the id of the cluster. *)
Theorem addSeqToPrefixTree_then_search (cfg : Config Regexp)
    (patterns : list (string * Regexp)) (root root' : Node)
    (cluster : Cluster.t) (s s' : ClusterCache) :
  patterns ≡ₚ ParamPatterns cfg →
  Forall (one_label (ParamPatterns cfg)) (Cluster.tokens cluster) →
  addSeqToPrefixTree cfg root cluster s = Ok (root', s') →
  ∃ leaf ids,
    leaf_of (with_patterns patterns cfg) root' (Cluster.tokens cluster) = Some leaf
    ∧ clusterIDs leaf = ids ++ [Cluster.id cluster].
Proof.
  intros Hperm Hone Hadd.
  rewrite (leaf_of_agree cfg (with_patterns patterns cfg))
    by now apply with_patterns_agree.
  eapply addSeqToPrefixTree_leaf_of, Hadd.
Qed.

(** X7: A [Match] does not change what a later [Match] of a line
    returns, when every visiting order of the patterns classifies the
    tokens of that line alike: what [Match] of the line returned before
    the call, it returns after it, whatever the orders in which the two
    calls visit the patterns (the call moves records in the order of
    eviction, which no search reads). *)
Theorem Match_then_Match (d : Drain Regexp)
    (patterns1 patterns2 : list (string * Regexp)) (content : string)
    (r : option Cluster.t) (d' : Drain Regexp)
    (content2 : string) (r2 : option Cluster.t) (d2 : Drain Regexp) :
  patterns1 ≡ₚ ParamPatterns (config d) →
  patterns2 ≡ₚ ParamPatterns (config d) →
  Forall (one_label (ParamPatterns (config d))) (Tokenizer (config d) content2) →
  Match (visit patterns1 d) content = Ok (r, d') →
  Match d content2 = Ok (r2, d2) →
  ∃ d2', Match (visit patterns2 d') content2 = Ok (r2, d2').
Proof.
  intros Hp1 Hp2 Hone HM HM2.
  assert (HM2' : Match (visit patterns1 d) content2 = Ok (r2, visit patterns1 d2)).
  { rewrite visit_agree by assumption. now rewrite HM2. }
  destruct (Match_then_Match_one_order _ _ _ _ _ _ _ HM HM2') as [d3 HM3].
  destruct (Match_Ok _ _ _ _ HM) as (Hcfg & _).
  exists (visit patterns2 d3). rewrite visit_agree.
  - now rewrite HM3.
  - rewrite Hcfg. cbn [config visit ParamPatterns with_patterns].
    now rewrite Hp1, Hp2.
  - rewrite Hcfg. cbn [config visit ParamPatterns with_patterns Tokenizer].
    eapply Forall_impl; [exact Hone|]. intros t. now apply one_label_perm.
Qed.

(** X12: A line that [Train] took is then matched, when every visiting
    order of the patterns classifies the tokens of the line alike,
    their labels are keys of [ParamPatterns] (as under the default
    configuration), and the line has a token: [Match] of the line in
    the state that [Train] left returns a cluster, whatever the order
    in which it visits the patterns. *)
Theorem Train_then_Match (cfg : Config Regexp) (n : nat) (d : Drain Regexp)
    (patterns : list (string * Regexp)) (content : string)
    (c : Cluster.t) (d' : Drain Regexp) :
  reachable_in cfg n d → Z.of_nat (S n) < 2 ^ 63 →
  patterns ≡ₚ ParamPatterns cfg →
  Forall (one_label (ParamPatterns cfg)) (Tokenizer cfg content) →
  (∀ token, token ∈ Tokenizer cfg content →
            isParamString cfg (getParamString cfg token) = true) →
  Tokenizer cfg content ≠ [] →
  Train d content = Ok (c, d') →
  ∃ c' d'', Match (visit patterns d') content = Ok (Some c', d'').
Proof.
  intros Hd Hn Hperm Hone Hlabel Hne HT.
  destruct (Train_then_Match_one_order cfg n d content c d' Hd Hn Hlabel Hne HT)
    as (c' & d'' & HM).
  pose proof (reachable_in_reachable cfg n d Hd) as Hr.
  destruct (reachable_config cfg d Hr) as (_ & _ & _ & Hpp).
  destruct (Train_Ok _ _ _ _ HT) as [Hcfg _].
  exists c', (visit patterns d''). rewrite visit_agree.
  - now rewrite HM.
  - now rewrite Hcfg, Hpp.
  - now rewrite Hcfg, Hpp, (reachable_Tokenizer cfg d Hr).
Qed.

End TwoCalls.

(** ** What [Match] returns *)

Section Perfect.

Context {Regexp : Type} `{!Matcher Regexp} `{!Unicode}.

(** C1, as amended: a cluster that [Match] returns is a record of the
    cache; its template has as many tokens as the line, in every state
    when the line has a token, and for every line in the states a
    learner reaches by fewer than 2^63 calls of [Train]; and at every
    position the template token equals the input token or is one of
    the configured labels.  (The regex of the label is not asked.) *)
Theorem Match_returns_perfect (d : Drain Regexp) (content : string)
    (c : Cluster.t) (d' : Drain Regexp) :
  Match d content = Ok (Some c, d') →
  (∃ key, cached key (idToCluster d) = Some c)
  ∧ (Tokenizer (config d) content ≠ [] →
     length (Cluster.tokens c) = length (Tokenizer (config d) content))
  ∧ (∀ cfg n, reachable_in cfg n d → Z.of_nat n < 2 ^ 63 →
              length (Cluster.tokens c) = length (Tokenizer (config d) content))
  ∧ ∀ (i : nat) (t x : string),
      Cluster.tokens c !! i = Some t →
      Tokenizer (config d) content !! i = Some x →
      t = x ∨ isParamString (config d) t = true.
Proof.
  unfold Match.
  destruct (treeSearch _ _ _ _ _ _) as [[matchCluster cache1]|] eqn:Hsearch;
    cbn [mbind result_bind]; [|discriminate].
  intros [= -> <-].
  destruct (treeSearch_perfect _ _ _ _ _ _ Hsearch) as (Hkey & Hlen & Hpos).
  split; [exact Hkey|]. split; [exact Hlen|]. split; [|exact Hpos].
  intros cfg n Hd Hn.
  destruct (reachable_in_state_ok cfg n d Hd Hn) as [(_ & _ & Htree & Hnone) _].
  destruct (treeSearch_found _ _ _ _ _ _ _ _ Hsearch) as (leaf & id & Hleaf & Hin & Hc).
  destruct (leaf_of_ok _ _ _ _ _ _ Htree Hnone Hleaf) as (_ & Hids & _).
  rewrite Forall_forall in Hids. destruct (Hids id Hin) as [_ Hl].
  apply len_eq_length, Hl, Hc.
Qed.

End Perfect.

(** ** The learner on the examples *)

#[local] Existing Instance ascii_unicode.

(** Counterexample to C1 as stated: after the lines of the README,
    [Match] returns the cluster [user {name} logged in] for a line whose
    second token the regex of [{name}] rejects; no cluster of the cache
    matches that line perfectly. *)
Lemma Match_ignores_the_regex :
  returns (learner examples.readme examples.readme_lines) (λ d,
    ∃ c d',
      Match d "user 123 logged in" = Ok (Some c, d')
      ∧ Cluster.tokens c = ["user"; "{name}"; "logged"; "in"]%string
      ∧ label_accepts (config d) "{name}" "123" = false
      ∧ returns (Clusters d)
          (Forall (λ c0,
             spec_perfect_match (config d) (Cluster.tokens c0)
               (Tokenizer (config d) "user 123 logged in") = false))).
Proof.
  vm_compute. eexists _, _. repeat split. repeat constructor.
Qed.

(** C2 fails on the code: [Match] moves the cluster it scores to the
    front of the LRU list.  After [Train("a")] and [Train("b c")] the
    clusters are listed oldest first as 1, 2; after [Match("a")] as
    2, 1. *)
Theorem Match_touches_recency :
  returns (learner DefaultConfig ["a"; "b c"]%string) (λ d,
    ∃ c1 c2 d',
      Match d "a" = Ok (Some c1, d')
      ∧ Clusters d = Ok [c1; c2]
      ∧ Clusters d' = Ok [c2; c1]
      ∧ Cluster.id c1 = 1 ∧ Cluster.id c2 = 2
      ∧ idToCluster d' ≠ idToCluster d).
Proof.
  vm_compute. eexists _, _, _. repeat split. discriminate.
Qed.

(** Counterexample to C3 as stated: the template [user davidoh logged in]
    meets the line [user 42 logged in]; the new template has the label
    of the incoming [42] (none: the empty string) at position 1, not the
    label [{name}] of the old token [davidoh]. *)
Lemma Train_classifies_the_incoming_token :
  returns (learner examples.readme ["user davidoh logged in"]%string) (λ d,
    ∃ m cache1 c d',
      treeSearch (config d) (rootNode d) (Tokenizer (config d) "user 42 logged in")
        (SimTh (config d)) false (idToCluster d) = Ok (Some m, cache1)
      ∧ Train d "user 42 logged in" = Ok (c, d')
      ∧ Cluster.tokens m = ["user"; "davidoh"; "logged"; "in"]%string
      ∧ Cluster.tokens c = ["user"; ""; "logged"; "in"]%string
      ∧ spec_template_update (config d) (Cluster.tokens m)
          (Tokenizer (config d) "user 42 logged in")
        = ["user"; "{name}"; "logged"; "in"]%string).
Proof.
  vm_compute. eexists _, _, _, _. repeat split.
Qed.

(** Counterexample to C5 as stated: the pattern [[0-9]+] does not match
    the whole of [abc123], yet the classifier returns its label, where
    the first label whose regex fully matches is none. *)
Lemma getParamString_matches_a_substring :
  getParamString examples.digits_within "abc123" = "{num}"%string
  ∧ spec_classifier (ParamPatterns examples.digits_within) "abc123" = ""%string
  ∧ getParamString examples.digits_within "abc123"
    ≠ spec_classifier (ParamPatterns examples.digits_within) "abc123".
Proof. vm_compute. repeat split. discriminate. Qed.

(** Counterexample to C6 as stated: the patterns of the example program
    accept [0x10000] under two labels; visited in two orders, the one
    map classifies the token in two ways, and two learners trained on
    the same lines grow different trees. *)
Lemma getParamString_depends_on_the_order :
  ParamPatterns examples.hex_then_name ≡ₚ ParamPatterns examples.name_then_hex
  ∧ getParamString examples.hex_then_name "0x10000" = "{hex}"%string
  ∧ getParamString examples.name_then_hex "0x10000" = "{name}"%string
  ∧ returns (learner examples.hex_then_name ["0x10000 found"]%string) (λ d1,
      returns (learner examples.name_then_hex ["0x10000 found"]%string) (λ d2,
        rootNode d1 ≠ rootNode d2)).
Proof.
  split; [apply perm_swap|]. split; [reflexivity|]. split; [reflexivity|].
  vm_compute. discriminate.
Qed.

(** C9 fails on the code: with [MaxChildren = 2], after [alpha x] and
    [beta x] the node of the lines of two tokens has the two children
    [alpha] and [{name}]; the digit-free token [GAMMA] has no literal
    child and its label, the empty string, has no child either, so the
    insertion takes the case [k + 1 > MaxChildren], moves into the nil
    child and panics. *)
Theorem addSeqToPrefixTree_nil_child :
  returns (learner examples.two_children ["alpha x"; "beta x"]%string) (λ d,
    ∃ node,
      keyToChildNode (rootNode d) !! "2"%string = Some node
      ∧ size (keyToChildNode node) = 2%nat
      ∧ hasNumbers "GAMMA" = false
      ∧ keyToChildNode node !! "GAMMA"%string = None
      ∧ getParamString (config d) "GAMMA" = ""%string
      ∧ keyToChildNode node !! ""%string = None
      ∧ chooseChild (config d) node "GAMMA" = IntoChild ""
      ∧ Train d "GAMMA x" = nil_dereference).
Proof.
  vm_compute. eexists. repeat split.
Qed.


(** Counterexample to C8 as stated: the line [*], trained twice under
    the default configuration, leaves two clusters of size 1. *)
Lemma Train_star_twice :
  returns (learner DefaultConfig (replicate 2 "*"%string)) (λ d,
    Clusters d = Ok [Cluster.mk ["*"%string] 2 1; Cluster.mk ["*"%string] 1 1]
    ∧ Clusters d ≠ Ok [Cluster.mk (SpaceTokenizer "*") 1 2]).
Proof. vm_compute. split; [reflexivity | discriminate]. Qed.

(** ** The theorems at work *)

(** [Match_returns_perfect] on a learner whose tokenizer finds no token
    in the empty line: after the empty line and two lines of two
    tokens, [Match] of the empty line returns the cluster of no token,
    and [Match] of [a d] the cluster of the template [a *]. *)
Lemma Match_returns_perfect_witness :
  (∃ c d',
      Match samples.fields_trained "" = Ok (Some c, d')
      ∧ Tokenizer (config samples.fields_trained) "" = []
      ∧ (∃ key, cached key (idToCluster samples.fields_trained) = Some c)
      ∧ length (Cluster.tokens c)
        = length (Tokenizer (config samples.fields_trained) ""))
  ∧ (∃ c d',
        Match samples.fields_trained "a d" = Ok (Some c, d')
        ∧ (∃ key, cached key (idToCluster samples.fields_trained) = Some c)
        ∧ length (Cluster.tokens c)
          = length (Tokenizer (config samples.fields_trained) "a d")
        ∧ ∀ (i : nat) (t x : string),
            Cluster.tokens c !! i = Some t →
            Tokenizer (config samples.fields_trained) "a d" !! i = Some x →
            t = x ∨ isParamString (config samples.fields_trained) t = true).
Proof.
  assert (Hr : reachable_in samples.default_fields 3 samples.fields_trained).
  { apply (learner_reachable_in samples.default_fields samples.fields_lines).
    vm_compute. reflexivity. }
  split.
  - destruct (Match samples.fields_trained "") as [[[c|] d']|] eqn:E;
      [|vm_compute in E; discriminate..].
    destruct (Match_returns_perfect samples.fields_trained "" c d' E)
      as (Hkey & _ & Hlen & _).
    exists c, d'. split; [reflexivity|]. split; [reflexivity|].
    split; [exact Hkey|].
    apply (Hlen samples.default_fields 3%nat); [exact Hr | reflexivity].
  - destruct (Match samples.fields_trained "a d") as [[[c|] d']|] eqn:E;
      [|vm_compute in E; discriminate..].
    destruct (Match_returns_perfect samples.fields_trained "a d" c d' E)
      as (Hkey & Hlen & _ & Hpos).
    exists c, d'. split; [reflexivity|]. split; [exact Hkey|].
    split; [apply Hlen; vm_compute; discriminate | exact Hpos].
Defined.

(** [Train_template_update] on the template [user davidoh logged in] and
    the line [user eranr logged in]. *)
Lemma Train_template_update_witness :
  returns (learner examples.readme ["user davidoh logged in"]%string) (λ d,
    returns (Train d "user eranr logged in") (λ r,
      Cluster.tokens r.1 !! 1%nat = Some "{name}"%string
      ∧ Cluster.tokens r.1 !! 0%nat = Some "user"%string)).
Proof.
  destruct (learner _ _) as [d|] eqn:E; vm_compute in E; [|discriminate].
  injection E as <-. cbn [returns].
  match goal with
  | |- returns (Train ?d ?line) _ =>
      destruct (treeSearch (config d) (rootNode d) (Tokenizer (config d) line)
                  (SimTh (config d)) false (idToCluster d))
        as [[[m|] cache1]|] eqn:ES; vm_compute in ES; try discriminate;
      injection ES as <- <-;
      destruct (Train d line) as [[c d']|] eqn:ET; vm_compute in ET; try discriminate;
      injection ET as <- <-; cbn [returns];
      match goal with
      | |- Cluster.tokens (?c, ?d').1 !! _ = _ ∧ _ =>
          pose proof (Train_template_update d line _ c _ d'
                        ltac:(vm_compute; reflexivity) ltac:(vm_compute; reflexivity))
            as (_ & _ & Hpos)
      end
  end.
  cbn [fst]. split.
  - rewrite (Hpos 1%nat "davidoh"%string "eranr"%string) by reflexivity. reflexivity.
  - rewrite (Hpos 0%nat "user"%string "user"%string) by reflexivity. reflexivity.
Defined.

(** [SpaceTokenizer_whitespace_only] on a line of a space, a tab, a
    no-break space and an ideographic space. *)
Lemma SpaceTokenizer_whitespace_only_witness :
  whitespace_only (utf8 [32; 9; 160; 12288])
  ∧ returns (learner DefaultConfig [utf8 [32; 9; 160; 12288]; "a  b"]%string) (λ d,
      SpaceTokenizer (utf8 [32; 9; 160; 12288]) = [""%string]
      ∧ SpaceTokenizer "a  b" ≠ []
      ∧ keyToChildNode (rootNode d) !! "1"%string ≠ None
      ∧ keyToChildNode (rootNode d) !! "0"%string = None).
Proof.
  assert (H : whitespace_only (utf8 [32; 9; 160; 12288])).
  { exists [32; 9; 160; 12288]. split; reflexivity. }
  split; [exact H|].
  destruct (learner _ _) as [d|] eqn:E; vm_compute in E; [|discriminate].
  injection E as <-. cbn [returns].
  match goal with
  | |- _ ∧ _ ∧ keyToChildNode (rootNode ?d) !! _ ≠ None ∧ _ =>
      assert (Hd : reachable DefaultConfig d)
  end.
  { apply (learner_reachable _ [utf8 [32; 9; 160; 12288]; "a  b"]%string).
    vm_compute. reflexivity. }
  destruct (SpaceTokenizer_whitespace_only DefaultConfig _
              (utf8 [32; 9; 160; 12288]) "a  b" H eq_refl Hd)
    as (H1 & _ & H3 & _ & H5).
  split; [exact H1|]. split; [exact H3|]. split; [vm_compute; discriminate | exact H5].
Defined.

(** [getSeqDistance_spec] on a template with one label: three of four
    without the parameters, four of four with them. *)
Lemma getSeqDistance_spec_witness :
  length ["user"; "{name}"; "logged"; "in"]%string
  = length ["user"; "faceair"; "logged"; "in"]%string
  ∧ getSeqDistance examples.readme ["user"; "{name}"; "logged"; "in"]%string
      ["user"; "faceair"; "logged"; "in"]%string false
    = Ok (Fin (3 # 4), 1)
  ∧ getSeqDistance examples.readme ["user"; "{name}"; "logged"; "in"]%string
      ["user"; "faceair"; "logged"; "in"]%string true
    = Ok (Fin (4 # 4), 1).
Proof.
  split; [reflexivity|]. split.
  - exact (getSeqDistance_spec examples.readme
             ["user"; "{name}"; "logged"; "in"]%string
             ["user"; "faceair"; "logged"; "in"]%string false eq_refl).
  - exact (getSeqDistance_spec examples.readme
             ["user"; "{name}"; "logged"; "in"]%string
             ["user"; "faceair"; "logged"; "in"]%string true eq_refl).
Defined.

(** [visiting_order_irrelevant] on the patterns of the example program,
    visited in their two orders: the token [eranr], which one of the
    two regexes accepts, has one label, and over lines of such tokens
    the two runs leave the same learner. *)
Lemma visiting_order_irrelevant_witness :
  ParamPatterns examples.name_then_hex ≡ₚ ParamPatterns examples.hex_then_name
  ∧ getParamString examples.name_then_hex "eranr"
    = getParamString examples.hex_then_name "eranr"
  ∧ learner examples.name_then_hex samples.two_patterns_lines
    = result_map (visit (ParamPatterns examples.name_then_hex))
        (learner examples.hex_then_name samples.two_patterns_lines)
  ∧ learner examples.hex_then_name samples.two_patterns_lines
    = Ok samples.two_patterns_trained.
Proof.
  assert (Hperm : ParamPatterns examples.name_then_hex
                  ≡ₚ ParamPatterns examples.hex_then_name) by apply perm_swap.
  assert (Hone : ∀ token,
             token ∈ ["user"; "eranr"; "davidoh"; "code"; "0xZZ"]%string →
             one_label (ParamPatterns examples.hex_then_name) token).
  { intros token Htoken l1 p1 l2 p2 H1 H2 M1 M2. cbn in H1, H2.
    rewrite !elem_of_cons, elem_of_nil in Htoken.
    rewrite !elem_of_cons, elem_of_nil in H1, H2.
    destruct H1 as [[= -> ->]|[[= -> ->]|[]]];
      destruct H2 as [[= -> ->]|[[= -> ->]|[]]]; try reflexivity;
      destruct Htoken as [->|[->|[->|[->|[->|[]]]]]];
      first [vm_compute in M1; discriminate | vm_compute in M2; discriminate]. }
  destruct (visiting_order_irrelevant examples.hex_then_name
              (ParamPatterns examples.name_then_hex) Hperm) as [Hlabel Hrun].
  split; [exact Hperm|]. split; [|split].
  - apply (Hlabel "eranr"%string), Hone. rewrite !elem_of_cons. auto.
  - apply (Hrun samples.two_patterns_lines).
    intros line token Hline Htoken. apply Hone.
    unfold samples.two_patterns_lines in Hline.
    rewrite !elem_of_cons, elem_of_nil in Hline.
    destruct Hline as [->|[->|[->|[]]]];
      match type of Htoken with
      | _ ∈ ?l => let l' := eval vm_compute in l in change (token ∈ l') in Htoken
      end;
      rewrite !elem_of_cons, elem_of_nil in Htoken; rewrite !elem_of_cons;
      intuition.
  - vm_compute. reflexivity.
Defined.


(** [Train_same_line] on a line trained three times. *)
Lemma Train_same_line_witness :
  (1 ≤ 3)%nat
  ∧ Z.of_nat 3 < 2 ^ 63
  ∧ returns (learner DefaultConfig (replicate 3 "connected to 10.0.0.1"%string)) (λ d,
      Clusters d = Ok [Cluster.mk ["connected"; "to"; "10.0.0.1"]%string 1 3]).
Proof.
  split; [lia|]. split; [reflexivity|].
  apply (Train_same_line "connected to 10.0.0.1" 3); [lia | reflexivity |].
  vm_compute. discriminate.
Defined.

(** ** The further properties on sample learners *)


Lemma trained_reachable_in : reachable_in DefaultConfig 3 samples.trained.
Proof.
  apply (learner_reachable_in DefaultConfig samples.lines). vm_compute. reflexivity.
Qed.


Lemma evicted_reachable : reachable samples.one_cluster samples.evicted.
Proof.
  apply (learner_reachable samples.one_cluster samples.lines). vm_compute. reflexivity.
Qed.

Lemma no_cache_reachable_in :
  reachable_in samples.no_cache 0
    (mkDrain (mkConfig 2 4 (4 # 10) 100 [] (-1) [("*"%string, regexp.any)] SpaceTokenizer)
       createNode (mkClusterCache None) 0).
Proof. apply reachable_in_New. reflexivity. Qed.

(** [fastMatch_best] on the bucket of the lines of two tokens, for the
    line [a d]. *)
Lemma fastMatch_best_witness :
  ∃ c s',
    fastMatch DefaultConfig_New [1] ["a"; "d"]%string (4 # 10) false
      (idToCluster samples.trained) = Ok (Some c, s')
    ∧ ∃ id sim pc,
        id ∈ [1]
        ∧ cached id (idToCluster samples.trained) = Some c
        ∧ getSeqDistance DefaultConfig_New (Cluster.tokens c) ["a"; "d"]%string false
          = Ok (sim, pc)
        ∧ f_ge sim (Fin (4 # 10)) = true
        ∧ ∀ id0 c0 sim0 pc0,
            id0 ∈ [1] →
            cached id0 (idToCluster samples.trained) = Some c0 →
            getSeqDistance DefaultConfig_New (Cluster.tokens c0) ["a"; "d"]%string false
            = Ok (sim0, pc0) →
            no_better sim0 pc0 sim pc.
Proof.
  destruct (fastMatch DefaultConfig_New [1] ["a"; "d"]%string (4 # 10) false
              (idToCluster samples.trained)) as [[[c|] s']|] eqn:E;
    [|vm_compute in E; discriminate..].
  exists c, s'. split; [reflexivity|].
  exact (fastMatch_best DefaultConfig_New [1] ["a"; "d"]%string (4 # 10) false
           (idToCluster samples.trained) s' (Some c) E).
Defined.

(** [Match_frame] on the line [a d]. *)
Lemma Match_frame_witness :
  ∃ r d',
    Match samples.trained "a d" = Ok (r, d')
    ∧ config d' = config samples.trained
    ∧ rootNode d' = rootNode samples.trained
    ∧ clustersCounter d' = clustersCounter samples.trained
    ∧ (∀ key, cached key (idToCluster d') = cached key (idToCluster samples.trained))
    ∧ (∀ c, r = Some c → ∃ key, cached key (idToCluster d') = Some c).
Proof.
  destruct (Match samples.trained "a d") as [[r d']|] eqn:E;
    [|vm_compute in E; discriminate].
  exists r, d'. split; [reflexivity|].
  exact (Match_frame samples.trained "a d" r d' E).
Defined.

(** [Clusters_distinct_ids] after three lines. *)
Lemma Clusters_distinct_ids_witness :
  ∃ cs,
    Clusters samples.trained = Ok cs
    ∧ NoDup (map Cluster.id cs)
    ∧ Forall (λ c, 1 ≤ Cluster.id c ≤ clustersCounter samples.trained) cs
    ∧ clustersCounter samples.trained ≤ Z.of_nat 3
    ∧ ∀ c, c ∈ cs ↔ cached (Cluster.id c) (idToCluster samples.trained) = Some c.
Proof.
  destruct (Clusters samples.trained) as [cs|] eqn:E;
    [|vm_compute in E; discriminate].
  exists cs. split; [reflexivity|].
  apply (Clusters_distinct_ids DefaultConfig 3 samples.trained cs);
    [exact trained_reachable_in | reflexivity | exact E].
Defined.

(** [Train_returns_cached] on a fourth line. *)
Lemma Train_returns_cached_witness :
  ∃ c d',
    Train samples.trained "a e" = Ok (c, d')
    ∧ cached (Cluster.id c) (idToCluster d') = Some c
    ∧ length (Cluster.tokens c) = length (Tokenizer (config samples.trained) "a e")
    ∧ 1 ≤ Cluster.id c ≤ clustersCounter d'
    ∧ ∃ cs, Clusters d' = Ok cs ∧ c ∈ cs.
Proof.
  destruct (Train samples.trained "a e") as [[c d']|] eqn:E;
    [|vm_compute in E; discriminate].
  exists c, d'. split; [reflexivity|].
  apply (Train_returns_cached DefaultConfig 3 samples.trained "a e" c d');
    [exact trained_reachable_in | reflexivity | exact E].
Defined.

(** [Match_returns] on a line that was not trained. *)
Lemma Match_returns_witness :
  ∃ r d', Match samples.trained "p q r s" = Ok (r, d').
Proof.
  apply (Match_returns DefaultConfig 3 samples.trained "p q r s");
    [exact trained_reachable_in | reflexivity].
Defined.


(** [Clusters_at_most_MaxClusters] on the learner of one cluster. *)
Lemma Clusters_at_most_MaxClusters_witness :
  ∃ cs, Clusters samples.evicted = Ok cs ∧ len cs ≤ 1.
Proof.
  destruct (Clusters samples.evicted) as [cs|] eqn:E;
    [|vm_compute in E; discriminate].
  exists cs. split; [reflexivity|].
  exact (Clusters_at_most_MaxClusters samples.one_cluster samples.evicted cs
           evicted_reachable E).
Defined.

(** [negative_MaxClusters] on [MaxClusters = -1]. *)
Lemma negative_MaxClusters_witness :
  ∃ d,
    New samples.no_cache = Ok d
    ∧ Clusters d = nil_dereference
    ∧ ∀ content, Train d content = nil_dereference
                 ∧ Match d content = Ok (None, d).
Proof.
  eexists.
  apply (negative_MaxClusters samples.no_cache);
    [reflexivity | exact (reachable_in_reachable _ _ _ no_cache_reachable_in)].
Defined.

(** [Train_panics_on_nil_only] on the learner without a cache. *)
Lemma Train_panics_on_nil_only_witness :
  ∃ d e,
    Train d "a b" = Panic e
    ∧ e = "invalid memory address or nil pointer dereference"%string.
Proof.
  eexists. eexists.
  assert (E : Train
                (mkDrain (mkConfig 2 4 (4 # 10) 100 [] (-1)
                            [("*"%string, regexp.any)] SpaceTokenizer)
                   createNode (mkClusterCache None) 0) "a b"
              = Panic "invalid memory address or nil pointer dereference").
  { vm_compute. reflexivity. }
  split; [exact E|].
  exact (Train_panics_on_nil_only samples.no_cache 0 _ "a b" _
           no_cache_reachable_in eq_refl E).
Defined.

(** [Clusters_sizes_count_lines] after three lines. *)
Lemma Clusters_sizes_count_lines_witness :
  ∃ cs,
    Clusters samples.trained = Ok cs
    ∧ total_size cs = Z.of_nat 3
    ∧ len cs = clustersCounter samples.trained.
Proof.
  destruct (Clusters samples.trained) as [cs|] eqn:E;
    [|vm_compute in E; discriminate].
  exists cs. split; [reflexivity|].
  apply (Clusters_sizes_count_lines DefaultConfig 3 samples.trained cs);
    [exact trained_reachable_in | reflexivity | vm_compute; discriminate | exact E].
Defined.


(** The tokens of the sample lines are accepted under one label by the
    two patterns of the example program. *)
Lemma two_patterns_one_label (token : string) :
  token ∈ ["user"; "eranr"; "davidoh"; "code"; "0xZZ"; "faceair"]%string →
  one_label (ParamPatterns examples.hex_then_name) token.
Proof.
  intros Htoken l1 p1 l2 p2 H1 H2 M1 M2. cbn in H1, H2.
  rewrite !elem_of_cons, elem_of_nil in Htoken.
  rewrite !elem_of_cons, elem_of_nil in H1, H2.
  destruct H1 as [[= -> ->]|[[= -> ->]|[]]];
    destruct H2 as [[= -> ->]|[[= -> ->]|[]]]; try reflexivity;
    destruct Htoken as [->|[->|[->|[->|[->|[->|[]]]]]]];
    first [vm_compute in M1; discriminate | vm_compute in M2; discriminate].
Qed.

Lemma two_patterns_reachable_in :
  reachable_in examples.hex_then_name 3 samples.two_patterns_trained.
Proof.
  apply (learner_reachable_in examples.hex_then_name samples.two_patterns_lines).
  vm_compute. reflexivity.
Qed.

(** [createTemplate_idempotent] on the patterns of the example program,
    visited in their other order by the second update. *)
Lemma createTemplate_idempotent_witness :
  ∃ T',
    createTemplate examples.hex_then_name ["user"; "faceair"]%string
      ["user"; "eranr"]%string = Ok T'
    ∧ length T' = length ["user"; "eranr"]%string
    ∧ createTemplate
        (with_patterns (ParamPatterns examples.name_then_hex) examples.hex_then_name)
        ["user"; "faceair"]%string T' = Ok T'.
Proof.
  destruct (createTemplate_idempotent examples.hex_then_name
              ["user"; "faceair"]%string ["user"; "eranr"]%string) as [_ Hok].
  destruct (Hok eq_refl) as (T' & HT & Hlen & Hagain).
  exists T'. split; [exact HT|]. split; [exact Hlen|].
  apply Hagain; [apply perm_swap|].
  repeat constructor; apply two_patterns_one_label; rewrite !elem_of_cons; auto 10.
Defined.

(** [addSeqToPrefixTree_then_search] on a cluster whose first token has
    a number in it and goes below its label; the search visits the
    patterns in the other order. *)
Lemma addSeqToPrefixTree_then_search_witness :
  ∃ root' s',
    addSeqToPrefixTree (config samples.two_patterns_trained) createNode
      (Cluster.mk ["0xZZ"; "code"]%string 1 1) (idToCluster samples.new)
    = Ok (root', s')
    ∧ ∃ leaf ids,
        leaf_of
          (with_patterns (ParamPatterns examples.name_then_hex)
             (config samples.two_patterns_trained))
          root' ["0xZZ"; "code"]%string = Some leaf
        ∧ clusterIDs leaf = ids ++ [1].
Proof.
  destruct (addSeqToPrefixTree (config samples.two_patterns_trained) createNode
              (Cluster.mk ["0xZZ"; "code"]%string 1 1) (idToCluster samples.new))
    as [[root' s']|] eqn:E; [|vm_compute in E; discriminate].
  exists root', s'. split; [reflexivity|].
  apply (addSeqToPrefixTree_then_search (config samples.two_patterns_trained)
           (ParamPatterns examples.name_then_hex) createNode root'
           (Cluster.mk ["0xZZ"; "code"]%string 1 1) (idToCluster samples.new) s');
    [apply perm_swap | | exact E].
  repeat constructor; apply two_patterns_one_label; rewrite !elem_of_cons; auto 10.
Defined.

(** [Match_then_Match] on two lines, the first [Match] visiting the
    patterns in the other order. *)
Lemma Match_then_Match_witness :
  ∃ r d' r2 d2,
    Match (visit (ParamPatterns examples.name_then_hex) samples.two_patterns_trained)
      "user x" = Ok (r, d')
    ∧ Match samples.two_patterns_trained "user eranr" = Ok (r2, d2)
    ∧ ∃ d2', Match (visit (ParamPatterns examples.hex_then_name) d') "user eranr"
             = Ok (r2, d2').
Proof.
  destruct (Match (visit (ParamPatterns examples.name_then_hex)
                     samples.two_patterns_trained) "user x")
    as [[r d']|] eqn:E; [|vm_compute in E; discriminate].
  destruct (Match samples.two_patterns_trained "user eranr") as [[r2 d2]|] eqn:E2;
    [|vm_compute in E2; discriminate].
  exists r, d', r2, d2. split; [reflexivity|]. split; [reflexivity|].
  apply (Match_then_Match samples.two_patterns_trained
           (ParamPatterns examples.name_then_hex)
           (ParamPatterns examples.hex_then_name) "user x" r d' "user eranr" r2 d2);
    [apply perm_swap | reflexivity | | exact E | exact E2].
  change (Forall (one_label (ParamPatterns examples.hex_then_name))
            ["user"; "eranr"]%string).
  repeat constructor; apply two_patterns_one_label; rewrite !elem_of_cons; auto 10.
Defined.

(** [Train_then_Match] on a fourth line, [Match] visiting the patterns
    in the other order. *)
Lemma Train_then_Match_witness :
  ∃ c d',
    Train samples.two_patterns_trained "user faceair" = Ok (c, d')
    ∧ ∃ c' d'',
        Match (visit (ParamPatterns examples.name_then_hex) d') "user faceair"
        = Ok (Some c', d'').
Proof.
  destruct (Train samples.two_patterns_trained "user faceair") as [[c d']|] eqn:E;
    [|vm_compute in E; discriminate].
  exists c, d'. split; [reflexivity|].
  assert (Htokens : Tokenizer examples.hex_then_name "user faceair"
                    = ["user"; "faceair"]%string) by (vm_compute; reflexivity).
  apply (Train_then_Match examples.hex_then_name 3 samples.two_patterns_trained
           (ParamPatterns examples.name_then_hex) "user faceair" c d');
    [exact two_patterns_reachable_in | reflexivity | apply perm_swap | | |
     rewrite Htokens; discriminate | exact E].
  - rewrite Htokens.
    repeat constructor; apply two_patterns_one_label; rewrite !elem_of_cons; auto 10.
  - rewrite Htokens. intros token Htoken.
    rewrite !elem_of_cons, elem_of_nil in Htoken.
    destruct Htoken as [->|[->|[]]]; vm_compute; reflexivity.
Defined.
